(** * podpac coordinate model: one-dimensional coordinates and [Coordinate]

    A shallow embedding of [podpac/core/coordinate.py]: the classes [Coord],
    [SingleCoord], [GridCoord], [UniformGridCoord] and [Coordinate].
    The module [podpac/core/coordinate/coordinate.py] has the same
    [_coords_validate], [_validate_dim], [get_dims_map], [unstack_dict],
    [stack_dict], [get_shape] and [dims], with [ValueError] where this one
    raises [CoordinateException]; its one-dimensional classes are not part
    of the sources.

    Conventions of the embedding:
    - numeric coordinate values are Python floats and numpy float64 arrays,
      modelled as exact rationals [Q]. The model agrees with float64 where
      the arithmetic of a run is exact, as it is on integers of moderate
      size ([float_int] below); every concrete run uses such numbers, and
      a general statement whose truth depends on rounding is made for them.
      Arrays of Python integers (which numpy keeps as int64 and truncates
      on assignment) and the datetime64 branches of the source are outside
      the model;
    - a raised exception is a value of [exn] on the left of a sum;
    - a mutable Python list or numpy array that a method writes into lives
      in a [store] (a [gmap] from locations to lists) and is passed by
      location; so does the array that a coordinate object caches as its
      [bounds];
    - an [OrderedDict] is an association list kept in insertion order;
    - the values of the dictionary given to [Coordinate] are [Coord]
      objects, or sequences of them under a stacked key; [pad] is a number. *)

From Stdlib Require Import QArith Qround Lqa ZArith Lia Ascii String.
From stdpp Require Import gmap strings list.

Local Open Scope Q_scope.

(** ** Exceptions and the error monad *)

(** The texts of the [CoordinateException]s of the module, with the values
    formatted into them. *)
Inductive message : Type :=
| single_multiple_values
| single_type_not_recognized
| grid_not_1d
| grid_not_same_type
| uniform_requires_num_or_step
| uniform_not_both
| uniform_invalid_coords
| invalid_dimension (dim : string)
| repeated_dimension (dim : string)
| stacked_size_mismatch (size expected : Z) (key stacked : string).

Inductive exn : Type :=
| CoordinateException (msg : message)
| NotImplementedError
| TypeError
| IndexError
| KeyError
| ZeroDivisionError
| NumpyValueError
| TraitError.

(** [ZeroDivisionError] also stands for a float division by zero inside
    numpy, where the source goes on with [inf] or [nan]: the rational
    model stops there. *)

Definition result (A : Type) : Type := (exn + A)%type.

Definition ok {A} (x : A) : result A := inr x.
Definition raise {A} (e : exn) : result A := inl e.

Definition rbind {A B} (m : result A) (f : A -> result B) : result B :=
  match m with
  | inl e => inl e
  | inr x => f x
  end.

Notation "x <- m ;; k" := (rbind m (fun x => k))
  (at level 100, m at next level, right associativity).

(** ** Python and numpy primitives on rationals *)

Definition Qltb (a b : Q) : bool := negb (Qle_bool b a).
Definition Qeqb (a b : Q) : bool := Qeq_bool a b.

(** Python's builtin [max(a, b)] and [min(a, b)]: the first argument wins
    a tie. [np.maximum] and [np.minimum] agree with them on numbers. *)
Definition py_max (a b : Q) : Q := if Qltb a b then b else a.
Definition py_min (a b : Q) : Q := if Qltb b a then b else a.

(** True division of floats: Python raises on a zero divisor. *)
Definition py_div (a b : Q) : result Q :=
  if Qeqb b 0 then raise ZeroDivisionError else ok (a / b).

(** The numbers on which the rational model is exact: the integers up to
    [2^50] in absolute value. float64 holds them, and the sums, differences
    and products that the methods below form from them stay under [2^53],
    so they are exact. The quotient of two integers under [2^53] is
    rounded, but never onto or across an integer (it is at least the
    inverse of the divisor away from the next integer, the rounding error
    is smaller), so its floor and its ceiling are those of the exact
    quotient. *)
Definition float_int (x : Q) : Prop :=
  exists z : Z, x == inject_Z z /\ (Z.abs z <= 2 ^ 50)%Z.

(** [np.arange(start, stop, step)] on floats: [ceil((stop - start) / step)]
    values [start + i * step]. numpy computes the length in float64 and
    the values as [start + i * ((start + step) - start)], which is the
    same on [float_int] numbers. The length is computed by dividing by the
    step: Python floats raise [ZeroDivisionError] on a zero step. *)
Definition np_arange (start stop step : Q) : result (list Q) :=
  if Qeqb step 0 then raise ZeroDivisionError
  else
    let n := Z.to_nat (Qceiling ((stop - start) / step)) in
    ok (map (fun i : nat => start + inject_Z (Z.of_nat i) * step) (seq 0 n)).

(** [np.linspace(start, stop, num)]: [num] evenly spaced samples with both
    end points; a negative [num] is rejected by numpy. *)
Definition np_linspace (start stop : Q) (num : Z) : result (list Q) :=
  if (num <? 0)%Z then raise NumpyValueError
  else if (num =? 1)%Z then ok [start]
  else
    let n := Z.to_nat num in
    ok (map (fun i : nat =>
               if Nat.eqb (S i) n then stop
               else start + inject_Z (Z.of_nat i) * ((stop - start) / inject_Z (num - 1)))
            (seq 0 n)).

(** A Python slice [a[i:j]]: a negative index counts from the end, and
    both ends are clipped to the length. *)
Definition slice_clip (len i : Z) : Z :=
  if (i <? 0)%Z then Z.max 0 (i + len) else Z.min i len.

Definition py_slice {A} (l : list A) (i j : Z) : list A :=
  let len := Z.of_nat (length l) in
  let i' := Z.to_nat (slice_clip len i) in
  let j' := Z.to_nat (slice_clip len j) in
  take (j' - i') (drop i' l).

(** ** The store of mutable bounds lists *)

Definition loc := positive.
Abbreviation store := (gmap loc (list Q)).

(** A computation that reads and writes the store and may raise. What was
    written before an exception stays written, as in Python. *)
Definition M (A : Type) : Type := store -> result A * store.

Definition mret {A} (x : A) : M A := fun σ => (ok x, σ).

Definition mbind {A B} (m : M A) (f : A -> M B) : M B :=
  fun σ => match m σ with
           | (inl e, σ') => (inl e, σ')
           | (inr x, σ') => f x σ'
           end.

(** A computation that leaves the store alone. *)
Definition lift {A} (r : result A) : M A := fun σ => (r, σ).

Notation "x <~ m ;; k" := (mbind m (fun x => k))
  (at level 100, m at next level, right associativity).

(** [b[i]]; a location outside the store is a name bound to no list. *)
Definition load (b : loc) (i : nat) : M Q :=
  fun σ => match σ !! b with
           | None => (raise KeyError, σ)
           | Some l => match l !! i with
                       | None => (raise IndexError, σ)
                       | Some x => (ok x, σ)
                       end
           end.

(** [b[i] = x]: Python raises when [i] is out of range. *)
Definition store_item (b : loc) (i : nat) (x : Q) : M unit :=
  fun σ => match σ !! b with
           | None => (raise KeyError, σ)
           | Some l => if decide (i < length l)%nat
                       then (ok tt, <[b := <[i := x]> l]> σ)
                       else (raise IndexError, σ)
           end.

(** ** Traits shared by every [Coord] *)

Inductive ctype_t := segment | point | fence | post.

Record kwargs_t := mk_kwargs {
  units : option string;
  ctype : ctype_t;
  segment_position : Q;
  extents : option (list Q)
}.

Definition default_kwargs : kwargs_t :=
  {| units := None; ctype := segment; segment_position := 1 # 2; extents := None |}.

(** The three concrete coordinate classes. [start], [stop], [num] and
    [step] are the traits of [UniformGridCoord]. *)
Inductive Coord : Type :=
| SingleCoord (kw : kwargs_t) (coords : Q)
| GridCoord (kw : kwargs_t) (coords : list Q)
| UniformGridCoord (kw : kwargs_t) (start stop : Q) (num : option Z) (step : option Q).

Definition kwargs (c : Coord) : kwargs_t :=
  match c with
  | SingleCoord kw _ | GridCoord kw _ | UniformGridCoord kw _ _ _ _ => kw
  end.

(** *** Constructors with their validation *)

(** [SingleCoord._coords_validate]: exactly one value. *)
Definition SingleCoord_init (kw : kwargs_t) (val : list Q) : result Coord :=
  match val with
  | [x] => ok (SingleCoord kw x)
  | _ => raise (CoordinateException single_multiple_values)
  end.

(** [GridCoord._coords_validate]: the value is squeezed, so one element
    gives a 0-d array, which is rejected; [val[0]] fails on no element. *)
Definition GridCoord_init (kw : kwargs_t) (val : list Q) : result Coord :=
  match val with
  | [] => raise IndexError
  | [_] => raise (CoordinateException grid_not_1d)
  | _ => ok (GridCoord kw val)
  end.

(** What [UniformGridCoord.__init__] receives: either the traits by keyword
    or a [coords] tuple [(start, stop, num)]. *)
Definition UniformGridCoord_init (kw : kwargs_t) (start stop : Q)
    (num : option Z) (step : option Q) : result Coord :=
  match num, step with
  | None, None => raise (CoordinateException uniform_requires_num_or_step)
  | Some _, Some _ => raise (CoordinateException uniform_not_both)
  | _, _ => ok (UniformGridCoord kw start stop num step)
  end.

(** [UniformGridCoord(coords=(start, stop, n))]: [_parse_coords] binds the
    third entry to the local [size], never to [num], so the test
    [num is None and step is None] sees no [num]. *)
Definition UniformGridCoord_init_coords (kw : kwargs_t) (coords : list Q) : result Coord :=
  match coords with
  | [start; stop; _size] => UniformGridCoord_init kw start stop None None
  | _ => raise (CoordinateException uniform_invalid_coords)
  end.

(** [self.__class__(coords=...)] *)
Definition class_init (c : Coord) (kw : kwargs_t) (coords : list Q) : result Coord :=
  match c with
  | SingleCoord _ _ => SingleCoord_init kw coords
  | GridCoord _ _ => GridCoord_init kw coords
  | UniformGridCoord _ _ _ _ _ => UniformGridCoord_init_coords kw coords
  end.

(** *** Properties

    [bounds], [delta] and [coordinates] are cached properties: the value
    that the property computes is assigned to the trait [_cached_bounds],
    [_cached_delta] or [_cached_coords] of the object, which validates it,
    and is handed out from there (see [cached_bounds] below). *)

Definition is_max_to_min (c : Coord) : bool :=
  match c with
  | SingleCoord _ _ => false
  | GridCoord _ coords => Qltb (List.last coords 0) (hd 0 coords)
  | UniformGridCoord _ start stop _ _ => Qltb stop start
  end.

Definition size (c : Coord) : result Z :=
  match c with
  | SingleCoord _ _ => ok 1%Z
  | GridCoord _ coords => ok (Z.of_nat (length coords))
  | UniformGridCoord _ start stop num step =>
      match num with
      | Some n => ok n
      | None =>
          match step with
          | None => raise TypeError
          | Some s =>
              q <- py_div (start - stop) s ;;
              ok (Z.max 0 (Qceiling q))
          end
      end
  end.

(** [SingleCoord.delta] computes [np.sqrt(np.finfo(np.float32).eps)], a
    numpy float32. The trait [_cached_delta] of [Coord] takes a [Float] or
    a [timedelta64], and a numpy float32 is neither: the assignment that
    keeps the value raises [TraitError], at every access. [GridCoord]
    declares its [_cached_delta] as an array, which is what it computes,
    and [UniformGridCoord] computes a float. *)
Definition delta (c : Coord) : result Q :=
  match c with
  | SingleCoord _ _ => raise TraitError
  | GridCoord _ coords =>
      ok ((List.last coords 0 - hd 0 coords) / inject_Z (Z.of_nat (length coords))
          * (if is_max_to_min c then -1 else 1))
  | UniformGridCoord _ start stop num step =>
      match step with
      | Some s => ok s
      | None =>
          match num with
          | None => raise TypeError
          | Some n =>
              d <- py_div (stop - start + 1) (inject_Z n) ;;
              ok (if is_max_to_min c then d * -1 else d)
          end
      end
  end.

(** [np.nanmin] / [np.nanmax] of a non-empty array (no NaN in the model). *)
Definition np_min (l : list Q) : Q := foldr py_min (hd 0 l) l.
Definition np_max (l : list Q) : Q := foldr py_max (hd 0 l) l.

(** The two entries of the array that the [bounds] property computes.
    [SingleCoord.bounds] is [[coords - delta, coords + delta]] and so needs
    [self.delta]. *)
Definition bounds (c : Coord) : result (Q * Q) :=
  match c with
  | SingleCoord _ x => d <- delta c ;; ok (x - d, x + d)
  | GridCoord _ coords => ok (np_min coords, np_max coords)
  | UniformGridCoord _ start stop _ _ =>
      ok (if is_max_to_min c then (stop, start) else (start, stop))
  end.

Definition coordinates (c : Coord) : result (list Q) :=
  match c with
  | SingleCoord _ x => ok [x]
  | GridCoord _ coords => ok coords
  | UniformGridCoord _ start stop num step =>
      match step with
      | Some s =>
          d <- delta c ;;
          np_arange start (stop + d) s
      | None =>
          n <- size c ;;
          np_linspace start stop n
      end
  end.

(** ** Intersection of one-dimensional coordinates *)

(** What [intersect] and [intersect_bounds] return: the list
    [[lefti, righti]] when [ind] is set, a coordinate object otherwise. *)
Inductive answer : Type :=
| Ind (lefti righti : Z)
| Obj (c : Coord).

(** [np.where(gt & lt)[0]] *)
Fixpoint np_where (mask : list bool) (i : Z) : list Z :=
  match mask with
  | [] => []
  | m :: rest => if m then i :: np_where rest (i + 1) else np_where rest (i + 1)
  end.

(** Python's [min] / [max] of a non-empty list of indices. *)
Definition list_min (l : list Z) : Z := foldr Z.min (hd 0%Z l) l.
Definition list_max (l : list Z) : Z := foldr Z.max (hd 0%Z l) l.

(** [intersect_bounds] of the three classes. [bnd] is the location of the
    array that the caller passes as [bounds]. In the definitions named
    [_with], [sb] holds the two entries of [self.bounds] at the time of the
    call: the methods read them and never change them (when [bnd] is the
    very array of [self.bounds], the two assignments of [UniformGridCoord]
    write back what it holds). *)
Definition SingleCoord_intersect_bounds (c : Coord) (bnd : loc)
    (pad : Z) (ind : bool) : M answer :=
  if ind then mret (Ind 0 1) else mret (Obj c).

Definition GridCoord_intersect_bounds_with (sb : Q * Q) (c : Coord) (coords : list Q)
    (bnd : loc) (pad : Z) (ind : bool) : M answer :=
  b0 <~ load bnd 0 ;;
  d <~ lift (delta c) ;;
  let gt := map (fun x => Qle_bool (b0 - d) x) coords in
  b1 <~ load bnd 1 ;;
  let lt := map (fun x => Qle_bool x (b1 + d)) coords in
  let inds := np_where (zip_with andb gt lt) 0 in
  lift
    match inds with
    | [] =>
        if ind then ok (Ind 0 0)
        else
          o <- class_init c default_kwargs [fst sb; snd sb; 0] ;;
          ok (Obj o)
    | _ =>
        let lefti := Z.max 0 (list_min inds - pad) in
        n <- size c ;;
        let righti := Z.min (list_max inds + pad + 1) n in
        if ind then ok (Ind lefti righti)
        else
          o <- GridCoord_init (kwargs c) (py_slice coords lefti righti) ;;
          ok (Obj o)
    end.

Definition UniformGridCoord_intersect_bounds_with (sb : Q * Q) (c : Coord) (bnd : loc)
    (pad : Z) (ind : bool) : M answer :=
  (* bounds[0] = max(self.bounds[0], bounds[0]) *)
  x0 <~ load bnd 0 ;;
  _ <~ store_item bnd 0 (py_max (fst sb) x0) ;;
  (* bounds[1] = min(self.bounds[1], bounds[1]) *)
  x1 <~ load bnd 1 ;;
  _ <~ store_item bnd 1 (py_min (snd sb) x1) ;;
  b0 <~ load bnd 0 ;;
  d <~ lift (delta c) ;;
  q0 <~ lift (py_div (b0 - fst sb) d) ;;
  let imin := Qfloor q0 in
  b1 <~ load bnd 1 ;;
  q1 <~ lift (py_div (snd sb - b1) d) ;;
  let imax := Qceiling q1 in
  lift
    (if ind then
       let '(imin, imax) := if is_max_to_min c then (imax, imin) else (imin, imax) in
       n <- size c ;;
       let imin := Z.min n (Z.max 0 (imin - pad)) in
       let imax := Z.min n (Z.max 0 (n - imax + pad)) in
       ok (Ind imin imax)
     else
       let cmin := py_max (fst sb) (fst sb + inject_Z (Z.max 0 (imin - pad)) * d) in
       let cmax := py_min (snd sb) (snd sb - inject_Z (Z.max 0 (imax - pad)) * d) in
       let '(cmin, cmax) := if is_max_to_min c then (cmax, cmin) else (cmin, cmax) in
       new_crd <- UniformGridCoord_init (kwargs c) cmin cmax None (Some d) ;;
       ok (Obj new_crd)).

Definition intersect_bounds_with (sb : Q * Q) (c : Coord) (bnd : loc) (pad : Z) (ind : bool)
  : M answer :=
  match c with
  | SingleCoord _ _ => SingleCoord_intersect_bounds c bnd pad ind
  | GridCoord _ coords => GridCoord_intersect_bounds_with sb c coords bnd pad ind
  | UniformGridCoord _ _ _ _ _ => UniformGridCoord_intersect_bounds_with sb c bnd pad ind
  end.

(** The methods on an object whose [bounds] hold what the property
    computes. *)
Definition GridCoord_intersect_bounds (c : Coord) (coords : list Q)
    (bnd : loc) (pad : Z) (ind : bool) : M answer :=
  sb <~ lift (bounds c) ;;
  GridCoord_intersect_bounds_with sb c coords bnd pad ind.

Definition UniformGridCoord_intersect_bounds (c : Coord) (bnd : loc)
    (pad : Z) (ind : bool) : M answer :=
  sb <~ lift (bounds c) ;;
  UniformGridCoord_intersect_bounds_with sb c bnd pad ind.

Definition intersect_bounds (c : Coord) (bnd : loc) (pad : Z) (ind : bool) : M answer :=
  match c with
  | SingleCoord _ _ => SingleCoord_intersect_bounds c bnd pad ind
  | GridCoord _ coords => GridCoord_intersect_bounds c coords bnd pad ind
  | UniformGridCoord _ _ _ _ _ => UniformGridCoord_intersect_bounds c bnd pad ind
  end.

(** The store of a caller that holds one list, [[lo, hi]]. *)
Definition fresh_bounds (lo hi : Q) : store := {[ 1%positive := [lo; hi] ]}.

(** The answer of a call [c.intersect_bounds([lo, hi], pad, ind)] on a
    fresh list: the selection of the bounds [lo, hi]. *)
Definition select (c : Coord) (lo hi : Q) (pad : Z) (ind : bool) : result answer :=
  fst (intersect_bounds c 1%positive pad ind (fresh_bounds lo hi)).

(** *** Coordinate objects and their cached bounds *)

(** A coordinate object on the heap: its traits, and the cell of the store
    that holds the array of its [_cached_bounds]. A cell outside the store
    is a cache that is still empty; two objects with one cell are one
    object. *)
Record object := mk_object {
  traits : Coord;
  _cached_bounds : loc
}.

(** Modelled from the spec: the decorator [cached_property] of
    [podpac.core.utils], which is not among the sources. The spec has the
    cached properties ([bounds], [coordinates], [delta]) computed at most
    once per instance, and the classes declare the traits that keep the
    values. So the first access of [o.bounds] computes the array and keeps
    it, and every access hands out the array that is kept, not a copy: the
    caller gets its location. *)
Definition cached_bounds (o : object) : M loc :=
  fun σ => match σ !! _cached_bounds o with
           | Some _ => (ok (_cached_bounds o), σ)
           | None =>
               match bounds (traits o) with
               | inl e => (inl e, σ)
               | inr sb => (ok (_cached_bounds o), <[_cached_bounds o := [fst sb; snd sb]]> σ)
               end
           end.

(** [Coord.intersect_check]. [None] is Python's implicit [return None].
    The method reads [self.bounds] and [other_coord.bounds] several times;
    after the first access each of them is the kept array, which the
    method does not write, so the entries are read once here. *)
Definition intersect_check (self other_coord : object) (ind : bool) : M (option answer) :=
  let c := traits self in
  if negb (bool_decide (units (kwargs c) = units (kwargs (traits other_coord))))
  then lift (raise NotImplementedError)
  else
    sb <~ cached_bounds self ;;
    ob <~ cached_bounds other_coord ;;
    s0 <~ load sb 0 ;;
    o0 <~ load ob 0 ;;
    s1 <~ load sb 1 ;;
    o1 <~ load ob 1 ;;
    lift
      (if Qeqb s0 o0 && Qeqb s1 o1 then
         if ind then
           n <- size c ;;
           ok (Some (Ind 0 n))
         else ok (Some (Obj c))
       else
         let ibounds0 := py_max s0 o0 in
         let ibounds1 := py_min s1 o1 in
         if Qltb ibounds1 ibounds0 then
           if ind then ok (Some (Ind 0 0))
           else
             o <- class_init c default_kwargs [s0; s1; 0] ;;
             ok (Some (Obj o))
         else ok None).

(** [Coord.intersect]. What a non-[None] check holds (a list of two
    numbers or an object) is true for [if check]. Otherwise the array of
    [other_coord.bounds] itself is handed to [intersect_bounds], which
    reads [self.bounds] from the array that [self] keeps. *)
Definition intersect (self other_coord : object) (pad : Z) (ind : bool) : M answer :=
  check <~ intersect_check self other_coord ind ;;
  match check with
  | Some a => mret a
  | None =>
      ob <~ cached_bounds other_coord ;;
      sb <~ cached_bounds self ;;
      s0 <~ load sb 0 ;;
      s1 <~ load sb 1 ;;
      intersect_bounds_with (s0, s1) (traits self) ob pad ind
  end.

(** [c.intersect(other_coord)] on two objects made for the call, with
    nothing cached yet. *)
Definition intersect_new (c other_coord : Coord) (pad : Z) (ind : bool) : result answer :=
  fst (intersect (mk_object c 1%positive) (mk_object other_coord 2%positive) pad ind ∅).

(** Indexing [c.coordinates[I[0]:I[1]]] with an index answer. *)
Definition index_with (c : Coord) (a : answer) : result (list Q) :=
  match a with
  | Ind i j => l <- coordinates c ;; ok (py_slice l i j)
  | Obj _ => raise TypeError
  end.

(** ** Strings and ordered dictionaries *)

(** [s.split('_')] *)
Fixpoint split_us (s : string) : list string :=
  match s with
  | EmptyString => [EmptyString]
  | String a s' =>
      if Ascii.eqb a "_"%char then EmptyString :: split_us s'
      else match split_us s' with
           | [] => [String a EmptyString]
           | p :: ps => String a p :: ps
           end
  end.

(** ['_' in s] *)
Fixpoint contains_us (s : string) : bool :=
  match s with
  | EmptyString => false
  | String a s' => Ascii.eqb a "_"%char || contains_us s'
  end.

Section odict.
Context {V : Type}.

Definition odict : Type := list (string * V).

Fixpoint od_get (k : string) (d : odict) : option V :=
  match d with
  | [] => None
  | (k', v) :: r => if decide (k = k') then Some v else od_get k r
  end.

Definition od_mem (k : string) (d : odict) : bool := bool_decide (k ∈ d.*1).

(** [d[k] = v]: an existing key keeps its position. *)
Fixpoint od_set (k : string) (v : V) (d : odict) : odict :=
  match d with
  | [] => [(k, v)]
  | (k', v') :: r => if decide (k = k') then (k, v) :: r else (k', v') :: od_set k v r
  end.

(** [d[k]] *)
Definition od_item (k : string) (d : odict) : result V :=
  match od_get k d with
  | Some v => ok v
  | None => raise KeyError
  end.
End odict.
Arguments odict : clear implicits.

Fixpoint foldM {A S} (f : S -> A -> result S) (l : list A) (s : S) : result S :=
  match l with
  | [] => ok s
  | x :: r => s' <- f s x ;; foldM f r s'
  end.

(** ** The multi-dimensional [Coordinate] *)

(** A value of the [coords] dictionary handed to the constructor: a [Coord]
    object, or for a stacked key the sequence of its [Coord] objects. *)
Inductive entry : Type :=
| One (c : Coord)
| Many (cs : list Coord).

Record Coordinate_kwargs := {
  coord_ref_sys : string;
  co_segment_position : Q;
  co_ctype : ctype_t
}.

Record Coordinate := mk_Coordinate {
  co_kwargs : Coordinate_kwargs;
  _coords : odict Coord;
  dims_map : odict string
}.

(** The defaults of [Coordinate.__init__]. *)
Definition default_Coordinate_kwargs : Coordinate_kwargs :=
  {| coord_ref_sys := "WGS84"; co_segment_position := 1 # 2; co_ctype := segment |}.

Definition _valid_dims : list string := ["time"; "lat"; "lon"; "alt"]%string.

(** [_validate_dim]: the new [seen_dims], or the exception. *)
Definition _validate_dim (dim : string) (seen_dims : list string) : result (list string) :=
  if negb (bool_decide (dim ∈ _valid_dims))
  then raise (CoordinateException (invalid_dimension dim))
  else if bool_decide (dim ∈ seen_dims)
  then raise (CoordinateException (repeated_dimension dim))
  else ok (seen_dims ++ [dim]).

Definition get_dims_map {V} (coords : odict V) : odict string :=
  fold_left
    (fun stacked_coords c =>
       if contains_us c
       then fold_left (fun m cc => od_set cc c m) (split_us c) stacked_coords
       else od_set c c stacked_coords)
    coords.*1 [].

(** [val[i]] on a value of the constructor's dictionary; a [Coord] object
    is not subscriptable. *)
Definition entry_item (val : entry) (i : nat) : result entry :=
  match val with
  | One _ => raise TypeError
  | Many cs => match cs !! i with
               | Some c => ok (One c)
               | None => raise IndexError
               end
  end.

(** [unstack_dict] with [check_dim_repeat=False]; [self_dims_map] is
    [self.dims_map]. *)
Definition unstack_dict (self_dims_map : odict string) (coords : odict entry)
  : result (odict entry) :=
  foldM
    (fun new_crds '(key, val) =>
       if negb (od_mem key self_dims_map) then
         foldM (fun new_crds '(i, k) =>
                  v <- entry_item val i ;;
                  ok (od_set k v new_crds))
               (imap (fun i k => (i, k)) (split_us key)) new_crds
       else ok (od_set key val new_crds))
    coords [].

(** [make_coord] on a value that is not a [Coord]: here a sequence of
    [Coord] objects, which numpy turns into an object array that the
    validation of [SingleCoord] or [GridCoord] rejects. *)
Definition make_coord (val : entry) : result Coord :=
  match val with
  | One c => ok c
  | Many [] => raise IndexError
  | Many [_] => raise (CoordinateException single_type_not_recognized)
  | Many _ => raise (CoordinateException grid_not_same_type)
  end.

(** The state of the loop of [_coords_validate]. *)
Record validate_state := {
  seen_dims : list string;
  stack_dims : gmap string Z
}.

(** The body of the loop of [_coords_validate] for one key. *)
Definition _coords_validate_step (self_dims_map : odict string) (st : validate_state)
    (item : string * Coord) : result validate_state :=
  let '(key, val) := item in
  seen <- _validate_dim key (seen_dims st) ;;
  if negb (bool_decide (key ∈ self_dims_map.*2)) then
    d <- od_item key self_dims_map ;;
    match stack_dims st !! d with
    | None =>
        n <- size val ;;
        ok {| seen_dims := seen; stack_dims := <[d := n]> (stack_dims st) |}
    | Some expected =>
        n <- size val ;;
        if negb (Z.eqb n expected)
        then raise (CoordinateException (stacked_size_mismatch n expected key d))
        else ok {| seen_dims := seen; stack_dims := stack_dims st |}
    end
  else ok {| seen_dims := seen; stack_dims := stack_dims st |}.

Definition _coords_validate (self_dims_map : odict string) (value : odict Coord)
  : result (odict Coord) :=
  _ <- foldM (_coords_validate_step self_dims_map) value
         {| seen_dims := []; stack_dims := ∅ |} ;;
  ok value.

(** [Coordinate.__init__] on an [OrderedDict] of [Coord] objects. *)
Definition Coordinate_init (coords : odict entry) (kw : Coordinate_kwargs)
  : result Coordinate :=
  let dm := get_dims_map coords in
  unstacked <- unstack_dict dm coords ;;
  made <- foldM (fun acc '(key, val) => c <- make_coord val ;; ok (acc ++ [(key, c)]))
                unstacked [] ;;
  validated <- _coords_validate dm made ;;
  ok {| co_kwargs := kw; _coords := validated; dims_map := dm |}.

(** The body of the loop of [stack_dict] for one item of [dims_map]. *)
Definition stack_dict_step (coords : odict Coord) (stacked_coords : odict entry)
    (item : string * string) : result (odict entry) :=
  let '(key, val) := item in
  match od_get val stacked_coords with
  | Some temp =>
      let temp := match temp with One c => [c] | Many cs => cs end in
      c <- od_item key coords ;;
      ok (od_set val (Many (temp ++ [c])) stacked_coords)
  | None =>
      c <- od_item key coords ;;
      ok (od_set val (One c) stacked_coords)
  end.

Definition stack_dict (coords : odict Coord) (dm : odict string) : result (odict entry) :=
  foldM (stack_dict_step coords) dm [].

(** The body of the loop of [get_shape]: [acc] is [(shape, seen_dims)]. *)
Definition get_shape_step (other_coords : Coordinate) (acc : list Z * list string)
    (item : string * Coord) : result (list Z * list string) :=
  let '(shape, seen) := acc in
  let '(k, c) := item in
  if od_mem k (_coords other_coords) then
    oc <- od_item k (_coords other_coords) ;;
    n <- size oc ;;
    d <- od_item k (dims_map other_coords) ;;
    if bool_decide (d ∈ seen) then ok (shape, seen)
    else ok (shape ++ [n], seen ++ [d])
  else
    n <- size c ;;
    ok (shape ++ [n], seen).

Definition get_shape (self other_coords : Coordinate) : result (list Z) :=
  r <- foldM (get_shape_step other_coords) (_coords self) ([], []) ;;
  ok (fst r).

Definition shape (self : Coordinate) : result (list Z) := get_shape self self.

Definition dims (self : Coordinate) : list string :=
  fold_left (fun dims v => if bool_decide (v ∈ dims) then dims else dims ++ [v])
            (dims_map self).*2 [].


(** The object answer of [Coord.intersect] with [ind=False]. *)
Definition as_coord (a : answer) : result Coord :=
  match a with
  | Obj c => ok c
  | Ind _ _ => raise TypeError
  end.

(** A loop whose body reads and writes the store. *)
Fixpoint mfoldM {A S} (f : S -> A -> M S) (l : list A) (s : S) : M S :=
  match l with
  | [] => mret s
  | x :: r => s' <~ f s x ;; mfoldM f r s'
  end.

(** The coordinates that a [Coordinate] stores are objects on the heap.
    [_coords] has their traits; where a method reaches their cached
    bounds it is given, as [self_cell] and [other_cell], the cell of the
    object stored under each name. Two names with one cell hold one
    object. *)

(** The body of the loop of [Coordinate.intersect] for one dimension. *)
Definition Coordinate_intersect_step (self_cell other_cell : string -> loc)
    (other : Coordinate) (pad : Z)
    (new_crds : odict Coord) (item : string * Coord) : M (odict Coord) :=
  let '(d, c) := item in
  match od_get d (_coords other) with
  | None => mret (od_set d c new_crds)
  | Some oc =>
      a <~ intersect (mk_object c (self_cell d)) (mk_object oc (other_cell d)) pad false ;;
      r <~ lift (as_coord a) ;;
      mret (od_set d r new_crds)
  end.

(** [Coordinate.intersect] with a scalar [pad]. *)
Definition Coordinate_intersect (self other : Coordinate)
    (self_cell other_cell : string -> loc) (pad : Z) : M Coordinate :=
  new_crds <~ mfoldM (Coordinate_intersect_step self_cell other_cell other pad)
                (_coords self) [] ;;
  lift (stacked_coords <- stack_dict new_crds (dims_map self) ;;
        Coordinate_init stacked_coords (co_kwargs self)).

(** Constructors with the default traits, as a caller writes them. *)
Definition uniform (start stop step : Q) : Coord :=
  UniformGridCoord default_kwargs start stop None (Some step).
Definition grid (coords : list Q) : Coord := GridCoord default_kwargs coords.
Definition single (coords : Q) : Coord := SingleCoord default_kwargs coords.

(** Membership in an array of rationals, up to the value of the number. *)
Definition InQ (v : Q) (l : list Q) : Prop := exists x, x ∈ l /\ x == v.

(** ** Notions used in the statements *)

(** The two index computations and the answer, once the clipped bounds
    [b0] and [b1] have been written back. *)
Definition uniform_answer_with (sb : Q * Q) (c : Coord) (b0 b1 : Q) (pad : Z) (ind : bool)
  : result answer :=
  d <- delta c ;;
  q0 <- py_div (b0 - fst sb) d ;;
  let imin := Qfloor q0 in
  q1 <- py_div (snd sb - b1) d ;;
  let imax := Qceiling q1 in
  if ind then
    let '(imin, imax) := if is_max_to_min c then (imax, imin) else (imin, imax) in
    n <- size c ;;
    ok (Ind (Z.min n (Z.max 0 (imin - pad))) (Z.min n (Z.max 0 (n - imax + pad))))
  else
    let cmin := py_max (fst sb) (fst sb + inject_Z (Z.max 0 (imin - pad)) * d) in
    let cmax := py_min (snd sb) (snd sb - inject_Z (Z.max 0 (imax - pad)) * d) in
    let '(cmin, cmax) := if is_max_to_min c then (cmax, cmin) else (cmin, cmax) in
    new_crd <- UniformGridCoord_init (kwargs c) cmin cmax None (Some d) ;;
    ok (Obj new_crd).

Definition uniform_answer (c : Coord) (b0 b1 : Q) (pad : Z) (ind : bool) : result answer :=
  sb <- bounds c ;;
  uniform_answer_with sb c b0 b1 pad ind.

(** The answer of [GridCoord.intersect_bounds] for the bounds [b0, b1]. *)
Definition grid_answer_with (sb : Q * Q) (c : Coord) (coords : list Q) (b0 b1 : Q)
    (pad : Z) (ind : bool) : result answer :=
  d <- delta c ;;
  let gt := map (fun x => Qle_bool (b0 - d) x) coords in
  let lt := map (fun x => Qle_bool x (b1 + d)) coords in
  let inds := np_where (zip_with andb gt lt) 0 in
  match inds with
  | [] =>
      if ind then ok (Ind 0 0)
      else
        o <- class_init c default_kwargs [fst sb; snd sb; 0] ;;
        ok (Obj o)
  | _ =>
      let lefti := Z.max 0 (list_min inds - pad) in
      n <- size c ;;
      let righti := Z.min (list_max inds + pad + 1) n in
      if ind then ok (Ind lefti righti)
      else
        o <- GridCoord_init (kwargs c) (py_slice coords lefti righti) ;;
        ok (Obj o)
  end.

Definition grid_answer (c : Coord) (coords : list Q) (b0 b1 : Q) (pad : Z) (ind : bool)
  : result answer :=
  sb <- bounds c ;;
  grid_answer_with sb c coords b0 b1 pad ind.

(** What [intersect_check] answers once the entries [s0, s1] of
    [self.bounds] and [o0, o1] of [other_coord.bounds] have been read. *)
Definition check_answer (c : Coord) (s0 s1 o0 o1 : Q) (ind : bool) : result (option answer) :=
  if Qeqb s0 o0 && Qeqb s1 o1 then
    if ind then
      n <- size c ;;
      ok (Some (Ind 0 n))
    else ok (Some (Obj c))
  else
    if Qltb (py_min s1 o1) (py_max s0 o0) then
      if ind then ok (Some (Ind 0 0))
      else
        o <- class_init c default_kwargs [s0; s1; 0] ;;
        ok (Some (Obj o))
    else ok None.

(** Cells for two [Coordinate] objects that hold a different object under
    each name, and share none: [own_cell false] for the one, [own_cell
    true] for the other. *)
Definition own_cell (side : bool) (d : string) : loc :=
  if side then (encode d)~1%positive else (encode d)~0%positive.

(** Every array in the store has two entries, as the arrays of [bounds]
    have. *)
Definition two_entries (σ : store) : Prop :=
  forall l x, σ !! l = Some x -> exists a b, x = [a; b].

(** The store after two new objects have cached their bounds. *)
Definition two_caches (sb ob : Q * Q) : store :=
  <[2%positive := [fst ob; snd ob]]> (<[1%positive := [fst sb; snd sb]]> ∅).

(** [lo] and [hi] are the least and the greatest value of the array [l]. *)
Definition is_min_max (lo hi : Q) (l : list Q) : Prop :=
  InQ lo l /\ InQ hi l /\ forall x, x ∈ l -> lo <= x <= hi.

(** The keys after [d[k] = v]. *)
Definition add_key (ks : list string) (k : string) : list string :=
  if bool_decide (k ∈ ks) then ks else ks ++ [k].

(** [set_all kvs d]: the assignments [d[k] = v] in turn. *)
Definition set_all {V} (kvs : list (string * V)) (d : odict V) : odict V :=
  fold_left (fun m kv => od_set kv.1 kv.2 m) kvs d.

(** The assignments of [get_dims_map]: every part of every key, mapped to
    the key. *)
Definition dim_pairs (keys : list string) : list (string * string) :=
  flat_map (fun c => map (fun cc => (cc, c)) (split_us c)) keys.

(** The assignments [unstack_dict] makes for one item of a well-shaped
    dictionary. *)
Definition unstack_items (kv : string * entry) : list (string * entry) :=
  if contains_us kv.1 then
    match kv.2 with
    | Many cs => zip (split_us kv.1) (One <$> cs)
    | One _ => []
    end
  else [kv].

(** A stacked key comes with as many coordinates as it has parts, a plain
    key with one coordinate. *)
Definition well_shaped (kv : string * entry) : Prop :=
  if contains_us kv.1
  then exists cs, kv.2 = Many cs /\ length cs = length (split_us kv.1)
  else exists c, kv.2 = One c.

(** The coordinates that one item of a well-shaped dictionary holds, under
    their dimension names. *)
Definition coords_of_item (kv : string * entry) : list (string * Coord) :=
  match kv.2 with
  | One c => [(kv.1, c)]
  | Many cs => zip (split_us kv.1) cs
  end.

(** The sizes recorded for the stacked keys seen so far. *)
Definition sizes_recorded (dm : odict string) (stack : gmap string Z)
    (pre : odict Coord) : Prop :=
  forall k c d, (k, c) ∈ pre -> k ∉ (dm.*2) -> od_get k dm = Some d ->
                exists n, stack !! d = Some n /\ size c = ok n.


(** The value that [stack_dict] stores under a key: the coordinate
    itself for one part, the list of the coordinates for several. *)
Definition entry_of (l : list Coord) : entry :=
  match l with
  | [c] => One c
  | _ => Many l
  end.

Definition od_get_d (crds : odict Coord) (k : string) : Coord :=
  default (single 0) (od_get k crds).

(** The dictionary that [stack_dict] hands to the constructor. *)
Definition restacked (crds : odict Coord) (keys : list string) : odict entry :=
  map (fun c => (c, entry_of (map (od_get_d crds) (split_us c)))) keys.

(** ** Further operations of the one-dimensional classes *)


(** [a.min()] and [a.max()] of a numpy array: numpy rejects an empty one. *)
Definition arr_min (a : list Q) : result Q :=
  match a with
  | [] => raise NumpyValueError
  | _ => ok (np_min a)
  end.

Definition arr_max (a : list Q) : result Q :=
  match a with
  | [] => raise NumpyValueError
  | _ => ok (np_max a)
  end.

(** [Coord.__add__], reached from [__add__] of the three classes. The
    result is the new [GridCoord] together with a flag that tells whether
    the overlap warning is printed. *)
Definition Coord_add (self other : Coord) : result (Coord * bool) :=
  cs0 <- coordinates self ;;
  cs1 <- coordinates other ;;
  let cs1 := if negb (Bool.eqb (is_max_to_min self) (is_max_to_min other))
             then rev cs1 else cs1 in
  mn0 <- arr_min cs0 ;;
  mx1 <- arr_max cs1 ;;
  r <- (if is_max_to_min self then
          if Qltb mx1 mn0 then ok (cs0 ++ cs1, false)
          else
            mx0 <- arr_max cs0 ;;
            mn1 <- arr_min cs1 ;;
            if Qltb mx0 mn1 then ok (cs1 ++ cs0, false)
            else ok (cs0 ++ cs1, true)
        else
          if Qltb mx1 mn0 then ok (cs1 ++ cs0, false)
          else
            mx0 <- arr_max cs0 ;;
            mn1 <- arr_min cs1 ;;
            if Qltb mx0 mn1 then ok (cs0 ++ cs1, false)
            else ok (cs0 ++ cs1, true)) ;;
  c <- GridCoord_init (kwargs self) r.1 ;;
  ok (c, r.2).

(** [area_bounds] of the three classes, as the two-element array (or, for
    a [GridCoord] with [extents], the list) that the property returns, on
    an object whose [bounds] hold what the property computes. *)
Definition in_fence_segment (t : ctype_t) : bool :=
  match t with
  | fence | segment => true
  | point | post => false
  end.

Definition area_bounds (c : Coord) : result (list Q) :=
  match c with
  | SingleCoord _ _ => sb <- bounds c ;; ok [fst sb; snd sb]
  | GridCoord kw _ =>
      match extents kw with
      | Some (x :: e) => if in_fence_segment (ctype kw) then ok (x :: e)
                         else sb <- bounds c ;; ok [fst sb; snd sb]
      | _ => sb <- bounds c ;; ok [fst sb; snd sb]
      end
  | UniformGridCoord kw _ _ _ _ =>
      sb <- bounds c ;;
      if in_fence_segment (ctype kw) then
        let p := segment_position kw in
        d <- delta c ;;
        ok [fst sb + - p * d; snd sb + (1 - p) * d]
      else ok [fst sb; snd sb]
  end.

(** ** Further operations of [Coordinate] *)

(** ['_'.join(l)] *)
Fixpoint join_us (l : list string) : string :=
  match l with
  | [] => EmptyString
  | s :: r =>
      match r with
      | [] => s
      | _ => String.append s (String "_"%char (join_us r))
      end
  end.

(** [Coordinate.unstack(copy)]. The first component is what the call
    returns, the second is [self] after the call: with [copy=False] the
    method rebinds [self.dims_map] and returns [self]. The copy is built
    from [self._coords] alone, without [self.kwargs]. *)
Definition unstack (self : Coordinate) (copy : bool) : result Coordinate * Coordinate :=
  if copy then
    (Coordinate_init (prod_map id One <$> _coords self) default_Coordinate_kwargs, self)
  else
    let self' := {| co_kwargs := co_kwargs self;
                    _coords := _coords self;
                    dims_map := map (fun v => (v, v)) (dims_map self).*1 |} in
    (ok self', self').

(** [Coordinate.stack(stack_dims, copy)], with the same two components.
    The dict comprehension that copies [dims_map] keeps the insertion
    order, as a [dict] does from Python 3.7 on. With [copy=False] the new
    [dims_map] is bound before the validation and is put back only when
    the validation raises a [CoordinateException]. *)
Definition stack (self : Coordinate) (stack_dims : list string) (copy : bool)
  : result Coordinate * Coordinate :=
  let stack_dim := join_us stack_dims in
  let dm := fold_left (fun m k => od_set k stack_dim m) stack_dims (dims_map self) in
  match stack_dict (_coords self) dm with
  | inl e => (inl e, self)
  | inr stacked =>
      if copy then (Coordinate_init stacked (co_kwargs self), self)
      else
        let self' := {| co_kwargs := co_kwargs self;
                        _coords := _coords self;
                        dims_map := dm |} in
        match _coords_validate dm (_coords self) with
        | inl (CoordinateException msg) => (inl (CoordinateException msg), self)
        | inl e => (inl e, self')
        | inr _ => (ok self', self')
        end
  end.

(** The body of the loop of [replace_coords]: [acc] is [(coords, dims_map)]. *)
Definition replace_coords_step (other : Coordinate) (acc : odict Coord * odict string)
    (c : string) : result (odict Coord * odict string) :=
  let '(coords, dm) := acc in
  if od_mem c (_coords other) then
    oc <- od_item c (_coords other) ;;
    od <- od_item c (dims_map other) ;;
    ok (od_set c oc coords, od_set c od dm)
  else ok (coords, dm).

(** [Coordinate.replace_coords(other)] with [copy=True]. *)
Definition replace_coords (self other : Coordinate) : result Coordinate :=
  r <- foldM (replace_coords_step other) (_coords self).*1 (_coords self, dims_map self) ;;
  stacked <- stack_dict r.1 r.2 ;;
  Coordinate_init stacked default_Coordinate_kwargs.

(** A Python [slice(start, stop)]; [None] is an open end. *)
Inductive slice_t : Type :=
| slice (start stop : option Z).

(** The body of the loop of [intersect_ind_slice] for one dimension. The
    list that [intersect] returns with [ind=True] has two entries, so the
    test [if ind] holds. *)
Definition intersect_ind_slice_step (self_cell other_cell : string -> loc)
    (other : Coordinate) (pad : Z)
    (slc : list slice_t) (item : string * Coord) : M (list slice_t) :=
  let '(d, c) := item in
  match od_get d (_coords other) with
  | None => mret (slc ++ [slice None None])
  | Some oc =>
      a <~ intersect (mk_object c (self_cell d)) (mk_object oc (other_cell d)) pad true ;;
      lift match a with
           | Ind i j => ok (slc ++ [slice (Some i) (Some j)])
           | Obj _ => raise TypeError
           end
  end.

(** [Coordinate.intersect_ind_slice] with a scalar [pad]; the cells of the
    stored objects are given as for [Coordinate.intersect]. *)
Definition intersect_ind_slice (self other : Coordinate)
    (self_cell other_cell : string -> loc) (pad : Z) : M (list slice_t) :=
  mfoldM (intersect_ind_slice_step self_cell other_cell other pad) (_coords self) [].

(** [a[slc]] on an array. *)
Definition apply_slice {A} (l : list A) (slc : slice_t) : list A :=
  match slc with
  | slice start stop =>
      py_slice l (default 0%Z start) (default (Z.of_nat (length l)) stop)
  end.

(** The dimension map that [stack] computes on an unstacked [Coordinate]:
    the names in [stack_dims] go to the joined name, the others to
    themselves. *)
Definition stacked_map (stack_dims names : list string) : odict string :=
  map (fun p => (p, if bool_decide (p ∈ stack_dims) then join_us stack_dims else p)) names.

(** ** Operations of the newer module

    [podpac/core/coordinate/coordinate.py] keeps [self._coords] and
    [self.dims_map] as the older module does. The operations below touch
    the keys of the two dictionaries only, so the values of [_coords]
    are of any type [V]. *)

(** [is_stacked] *)
Definition is_stacked (dims_map : odict string) : bool :=
  existsb (fun kv => negb (bool_decide (kv.1 = kv.2))) dims_map.

(** [del d[k]] on a dictionary that has the key. *)
Definition od_del {V} (k : string) (d : odict V) : odict V :=
  List.filter (fun kv => negb (bool_decide (kv.1 = k))) d.

(** The loop of [drop_dims] over [args]. The state is
    [(self._coords, self.dims_map)], which the method changes in place: the
    result is [split_dims] or the exception, together with the state that
    the loop leaves. *)
Fixpoint drop_dims_loop {V} (args split_dims : list string) (self : odict V * odict string)
  : result (list string) * (odict V * odict string) :=
  match args with
  | [] => (ok split_dims, self)
  | arg :: args =>
      if negb (od_mem arg self.1) then drop_dims_loop args split_dims self
      else
        let coords := od_del arg self.1 in
        match od_get arg self.2 with
        | None => (raise KeyError, (coords, self.2))
        | Some d =>
            if bool_decide (d = arg)
            then drop_dims_loop args split_dims (coords, od_del arg self.2)
            else drop_dims_loop args (split_dims ++ split_us d) (coords, self.2)
        end
  end.

(** [drop_dims] on the names [args]: the method calls itself on
    [split_dims] until the list comes out empty; [fuel] bounds the number
    of calls. *)
Fixpoint drop_dims {V} (fuel : nat) (args : list string) (self : odict V * odict string)
  : option (result unit * (odict V * odict string)) :=
  match fuel with
  | O => None
  | S fuel =>
      match drop_dims_loop args [] self with
      | (inl e, self') => Some (inl e, self')
      | (inr [], self') => Some (ok tt, self')
      | (inr split_dims, self') => drop_dims fuel split_dims self'
      end
  end.

(** A name goes when one of [args] is a part of the key it belongs to. *)
Definition key_dropped (args : list string) (key : string) : bool :=
  existsb (fun a => bool_decide (a ∈ split_us key)) args.

(** [Coordinate.__getitem__] *)
Definition Coordinate_getitem (self : Coordinate) (item : string) : result Coord :=
  od_item item (_coords self).

(** The body of the generator in [transpose]: [(dim, self._coords[dim])]
    goes into the new [OrderedDict]. *)
Definition transpose_step (self_coords acc : odict Coord) (dim : string)
  : result (odict Coord) :=
  c <- od_item dim self_coords ;;
  ok (od_set dim c acc).

(** [transpose] of the newer module, with the two components of
    [unstack]. Without names the method reverses [self._coords.keys()]
    by a slice, which Python 3 rejects. With [in_place] the new
    dictionary is assigned to the trait [_coords], which validates it
    against [self.dims_map] (the newer module raises [ValueError] where
    [_coords_validate] here raises [CoordinateException]); otherwise the
    constructor is called on the new dictionary with [self.kwargs]. *)
Definition transpose (self : Coordinate) (dims : list string) (in_place : bool)
  : result Coordinate * Coordinate :=
  match dims with
  | [] => (raise TypeError, self)
  | _ =>
      match foldM (transpose_step (_coords self)) dims [] with
      | inl e => (inl e, self)
      | inr coords =>
          if in_place then
            match _coords_validate (dims_map self) coords with
            | inl e => (inl e, self)
            | inr validated =>
                let self' := {| co_kwargs := co_kwargs self;
                                _coords := validated;
                                dims_map := dims_map self |} in
                (ok self', self')
            end
          else (Coordinate_init (prod_map id One <$> coords) (co_kwargs self), self)
      end
  end.

(** * Properties *)

(** ** Comparisons, [max] and [min] *)

Lemma Qltb_true a b : Qltb a b = true <-> a < b.
Proof.
  unfold Qltb. rewrite negb_true_iff. split.
  - intros H. apply Qnot_le_lt. intros Hle. apply Qle_bool_iff in Hle. congruence.
  - intros H. destruct (Qle_bool b a) eqn:E; [|done].
    apply Qle_bool_iff in E. lra.
Qed.

Lemma Qltb_false a b : Qltb a b = false <-> b <= a.
Proof.
  unfold Qltb. rewrite negb_false_iff. apply Qle_bool_iff.
Qed.

Lemma Qeqb_true a b : Qeqb a b = true <-> a == b.
Proof. apply Qeq_bool_iff. Qed.

Lemma Qeqb_false a b : Qeqb a b = false <-> ~ a == b.
Proof.
  unfold Qeqb. split.
  - intros H He. apply Qeq_bool_iff in He. congruence.
  - intros H. destruct (Qeq_bool a b) eqn:E; [|done].
    apply Qeq_bool_iff in E. contradiction.
Qed.

Lemma py_max_spec a b : (a < b /\ py_max a b = b) \/ (b <= a /\ py_max a b = a).
Proof.
  unfold py_max. destruct (Qltb a b) eqn:E.
  - left. by apply Qltb_true in E.
  - right. by apply Qltb_false in E.
Qed.

Lemma py_min_spec a b : (b < a /\ py_min a b = b) \/ (a <= b /\ py_min a b = a).
Proof.
  unfold py_min. destruct (Qltb b a) eqn:E.
  - left. by apply Qltb_true in E.
  - right. by apply Qltb_false in E.
Qed.

Lemma py_div_ok a b : ~ b == 0 -> py_div a b = ok (a / b).
Proof. intros H. unfold py_div. apply Qeqb_false in H. by rewrite H. Qed.

Lemma Qdiv_mul_cancel a b : ~ b == 0 -> a / b * b == a.
Proof. intros H. field. exact H. Qed.

Lemma Qceiling_nonpos q : q <= 0 -> (Qceiling q <= 0)%Z.
Proof.
  intros H. rewrite <- (Qceiling_Z 0). by apply Qceiling_resp_le.
Qed.

(** ** [UniformGridCoord]: size and coordinate values *)

(** With a step whose sign agrees with the order of [start] and [stop],
    the quotient [(start - stop) / step] is negative, so [size] is 0
    whatever the range. *)
Lemma size_uniform_step_consistent kw start stop s :
  (start < stop /\ 0 < s) \/ (stop < start /\ s < 0) ->
  size (UniformGridCoord kw start stop None (Some s)) = ok 0%Z.
Proof.
  intros H. cbn [size].
  assert (Hs : ~ s == 0) by (intros E; destruct H as [[_ H]|[_ H]]; lra).
  rewrite (py_div_ok _ _ Hs). cbn [rbind ok]. f_equal.
  apply Z.max_l, Qceiling_nonpos.
  pose proof (Qdiv_mul_cancel (start - stop) s Hs) as Hq.
  set (q := (start - stop) / s) in *.
  destruct H as [[H1 H2]|[H1 H2]]; nra.
Qed.

(** [np_arange] yields the multiples of the step in order. *)
Lemma np_arange_lookup start stop s l (i : nat) :
  np_arange start stop s = ok l ->
  (i < length l)%nat ->
  l !! i = Some (start + inject_Z (Z.of_nat i) * s).
Proof.
  unfold np_arange. destruct (Qeqb s 0); [done|].
  intros [= <-]. rewrite length_map, length_seq. intros Hi.
  rewrite list_lookup_fmap, lookup_seq_lt by done. done.
Qed.

(** When [stop] is not a whole number of steps from [start], the values
    run one step past it: [np.arange] is given [stop + delta] as its end. *)
Example coordinates_run_past_stop :
  coordinates (uniform 0 45 10) = ok [0; 10; 20; 30; 40; 50].
Proof. by vm_compute. Qed.

(** C1: the uniform coordinate with start=0, stop=50, step=10 has the
    coordinate values [0,10,20,30,40,50] and is not descending, but its
    [size] property is 0 instead of the 6 values that [coordinates]
    holds. *)
Theorem C1_uniform_size_disagrees_with_coordinates :
  coordinates (uniform 0 50 10) = ok [0; 10; 20; 30; 40; 50] /\
  is_max_to_min (uniform 0 50 10) = false /\
  size (uniform 0 50 10) = ok 0%Z.
Proof. by vm_compute. Qed.

(** ** The effect of [UniformGridCoord.intersect_bounds] on its argument *)

Lemma UniformGridCoord_intersect_bounds_with_run sb c (σ : store) bnd lo hi rest pad ind :
  σ !! bnd = Some (lo :: hi :: rest) ->
  let b0 := py_max (fst sb) lo in
  let b1 := py_min (snd sb) hi in
  UniformGridCoord_intersect_bounds_with sb c bnd pad ind σ
  = (uniform_answer_with sb c b0 b1 pad ind, <[bnd := b0 :: b1 :: rest]> σ).
Proof.
  intros Hσ b0 b1. unfold UniformGridCoord_intersect_bounds_with, uniform_answer_with.
  unfold mbind at 1. unfold load at 1. rewrite Hσ. cbn [lookup list_lookup ok].
  unfold mbind at 1. unfold store_item at 1. rewrite Hσ. cbn [length].
  rewrite decide_True by lia. cbn [ok insert list_insert]. fold b0.
  unfold mbind at 1. unfold load at 1. rewrite lookup_insert_eq. cbn [lookup list_lookup ok].
  unfold mbind at 1. unfold store_item at 1. rewrite lookup_insert_eq. cbn [length].
  rewrite decide_True by lia. cbn [ok insert list_insert].
  rewrite insert_insert_eq. fold b1.
  unfold mbind at 1. unfold load at 1. rewrite lookup_insert_eq. cbn [lookup list_lookup ok].
  unfold mbind at 1. unfold lift at 1.
  destruct (delta c) as [e|d]; [done|]. cbn [rbind].
  unfold mbind at 1. unfold lift at 1.
  destruct (py_div (b0 - sb.1) d) as [e|q0]; [done|]. cbn [rbind].
  unfold mbind at 1. unfold load at 1. rewrite lookup_insert_eq. cbn [lookup list_lookup ok].
  unfold mbind at 1. unfold lift at 1.
  destruct (py_div (sb.2 - b1) d) as [e|q1]; [done|]. cbn [rbind].
  unfold lift. done.
Qed.

Lemma UniformGridCoord_intersect_bounds_run c sb (σ : store) bnd lo hi rest pad ind :
  bounds c = ok sb ->
  σ !! bnd = Some (lo :: hi :: rest) ->
  let b0 := py_max (fst sb) lo in
  let b1 := py_min (snd sb) hi in
  UniformGridCoord_intersect_bounds c bnd pad ind σ
  = (uniform_answer c b0 b1 pad ind, <[bnd := b0 :: b1 :: rest]> σ).
Proof.
  intros Hb Hσ b0 b1. unfold UniformGridCoord_intersect_bounds, uniform_answer.
  rewrite Hb. unfold mbind at 1. unfold lift at 1. cbn [rbind ok].
  by apply UniformGridCoord_intersect_bounds_with_run.
Qed.

(** C10: [UniformGridCoord.intersect_bounds] assigns to [bounds[0]] and
    [bounds[1]] of the list the caller passed: whatever the call answers or
    raises, the list then holds the two bounds clipped to the coordinate's
    own bounds, its further entries and every other list being untouched;
    and for a non-zero step the call does answer. *)
Theorem C10_uniform_intersect_bounds_writes_argument
    (c : Coord) (sb : Q * Q) (σ : store) (bnd : loc) (lo hi : Q) (rest : list Q)
    (pad : Z) (ind : bool) :
  bounds c = ok sb ->
  σ !! bnd = Some (lo :: hi :: rest) ->
  let clipped := py_max (fst sb) lo :: py_min (snd sb) hi :: rest in
  snd (UniformGridCoord_intersect_bounds c bnd pad ind σ) = <[bnd := clipped]> σ /\
  (forall kw start stop s,
      c = UniformGridCoord kw start stop None (Some s) -> ~ s == 0 ->
      exists a, fst (UniformGridCoord_intersect_bounds c bnd pad ind σ) = ok a).
Proof.
  intros Hb Hσ clipped.
  rewrite (UniformGridCoord_intersect_bounds_run _ _ _ _ _ _ _ _ _ Hb Hσ). cbn [fst snd].
  split; [done|].
  intros kw start stop s -> Hs.
  unfold uniform_answer, uniform_answer_with. cbn [bounds delta rbind ok].
  rewrite !py_div_ok by done. cbn [rbind ok].
  destruct ind.
  - cbn [size]. rewrite py_div_ok by done. cbn [rbind ok].
    destruct (is_max_to_min _); eauto.
  - destruct (is_max_to_min _); cbn [UniformGridCoord_init rbind ok]; eauto.
Qed.

(** C10 on the list [45, 100] and the coordinate start=20, stop=70, step=10:
    the list then holds [45, 70]. *)
Lemma C10_witness :
  snd (UniformGridCoord_intersect_bounds (uniform 20 70 10) 1%positive 1 false
         (fresh_bounds 45 100))
  = <[1%positive := [45; 70]]> (fresh_bounds 45 100).
Proof.
  exact (proj1 (C10_uniform_intersect_bounds_writes_argument
                  (uniform 20 70 10) (20, 70) (fresh_bounds 45 100) 1%positive 45 100 [] 1 false
                  eq_refl (lookup_singleton_eq _ _))).
Defined.

(** ** Selection on an ascending [UniformGridCoord] *)

Lemma Z_lt_Qceiling (k : Z) (q : Q) : (k < Qceiling q)%Z <-> inject_Z k < q.
Proof.
  split.
  - intros H. apply Qle_lt_trans with (inject_Z (Qceiling q - 1)).
    + rewrite <- Zle_Qle. lia.
    + apply Qceiling_lt.
  - intros H. rewrite Zlt_Qlt. apply Qlt_le_trans with q; [done|]. apply Qle_ceiling.
Qed.

Lemma Qfloor_le_Z (k : Z) (q : Q) : q <= inject_Z k -> (Qfloor q <= k)%Z.
Proof.
  intros H. rewrite <- (Qfloor_Z k). by apply Qfloor_resp_le.
Qed.

(** The values of [np.arange] with a positive step: the multiples of the
    step from [a] on that are below [b]. *)
Lemma InQ_np_arange a b s l v :
  0 < s -> np_arange a b s = ok l ->
  InQ v l <-> exists k : nat, v == a + inject_Z (Z.of_nat k) * s /\ v < b.
Proof.
  intros Hs. unfold np_arange.
  assert (Hs0 : Qeqb s 0 = false) by (apply Qeqb_false; lra).
  rewrite Hs0. intros [= <-]. unfold InQ.
  pose proof (Qdiv_mul_cancel (b - a) s ltac:(lra)) as Hq.
  set (q := (b - a) / s) in *.
  assert (Hk : forall k : nat, (k < Z.to_nat (Qceiling q))%nat <->
                               a + inject_Z (Z.of_nat k) * s < b).
  { intros k. transitivity (Z.of_nat k < Qceiling q)%Z; [lia|].
    rewrite Z_lt_Qceiling. split; intros; nra. }
  split.
  - intros (x & Hx & Hxv). apply list_elem_of_fmap in Hx as (k & -> & Hk').
    apply elem_of_seq in Hk'. exists k. split; [by symmetry|].
    rewrite <- Hxv. apply Hk. lia.
  - intros (k & Hv & Hlt). exists (a + inject_Z (Z.of_nat k) * s). split; [|by symmetry].
    apply list_elem_of_fmap. exists k. split; [done|]. apply elem_of_seq.
    split; [lia|]. cbn. apply Hk. by rewrite <- Hv.
Qed.

Lemma np_arange_ok a b s : ~ s == 0 -> exists l, np_arange a b s = ok l.
Proof.
  intros Hs. unfold np_arange. apply Qeqb_false in Hs. rewrite Hs. eauto.
Qed.

Lemma coordinates_uniform_step kw start stop s :
  coordinates (UniformGridCoord kw start stop None (Some s)) = np_arange start (stop + s) s.
Proof. reflexivity. Qed.

(** The selection on a uniform coordinate, whose bounds are [start] and
    [stop] in ascending order. *)
Lemma select_uniform kw start stop num step lo hi pad ind :
  let c := UniformGridCoord kw start stop num step in
  let sb := if Qltb stop start then (stop, start) else (start, stop) in
  select c lo hi pad ind
  = uniform_answer_with sb c (py_max (fst sb) lo) (py_min (snd sb) hi) pad ind.
Proof.
  intros c sb. unfold select, fresh_bounds, c. cbn [intersect_bounds].
  by rewrite (UniformGridCoord_intersect_bounds_run (UniformGridCoord kw start stop num step)
                sb _ _ lo hi [] pad ind eq_refl (lookup_singleton_eq _ _)).
Qed.

(** C2, as the code has it, on numbers that float64 handles exactly: on an
    ascending uniform coordinate (positive step, start <= stop) and with a
    padding [pad >= 0], selecting the bounds [lo, hi] returns the uniform
    coordinate of the same step whose start is
    [start + max(0, floor((b0 - start) / step) - pad) * step] and whose
    stop is [stop - max(0, ceil((stop - b1) / step) - pad) * step], [b0]
    and [b1] being the bounds clipped to [start, stop]; every coordinate
    value that lies within [lo, hi] is among the values of the result
    (which may hold more: the values below [lo] down to the floor, and
    [pad] values on each side). *)
Theorem C2_select_uniform_ascending kw start stop s lo hi pad :
  float_int start -> float_int stop -> float_int s -> float_int lo -> float_int hi ->
  0 < s -> start <= stop -> (0 <= pad)%Z ->
  let c := UniformGridCoord kw start stop None (Some s) in
  let imin := Qfloor ((py_max start lo - start) / s) in
  let imax := Qceiling ((stop - py_min stop hi) / s) in
  let cmin := py_max start (start + inject_Z (Z.max 0 (imin - pad)) * s) in
  let cmax := py_min stop (stop - inject_Z (Z.max 0 (imax - pad)) * s) in
  let r := UniformGridCoord kw cmin cmax None (Some s) in
  select c lo hi pad false = ok (Obj r) /\
  exists l l', coordinates c = ok l /\ coordinates r = ok l' /\
    forall v, InQ v l -> lo <= v <= hi -> InQ v l'.
Proof.
  intros _ _ _ _ _ Hs Hle Hpad c imin imax cmin cmax r.
  assert (Hs0 : ~ s == 0) by lra.
  assert (Hdir : Qltb stop start = false) by by apply Qltb_false.
  split.
  - unfold c. rewrite select_uniform. cbn zeta. rewrite Hdir.
    unfold uniform_answer_with. cbn [is_max_to_min delta kwargs].
    rewrite Hdir. cbn [fst snd rbind ok].
    rewrite !py_div_ok by done. cbn [rbind ok UniformGridCoord_init fst]. done.
  - destruct (np_arange_ok start (stop + s) s Hs0) as [l Hl].
    destruct (np_arange_ok cmin (cmax + s) s Hs0) as [l' Hl'].
    exists l, l'. unfold c, r. rewrite !coordinates_uniform_step.
    split; [done|]. split; [done|].
    intros v Hv [Hlo Hhi].
    apply (InQ_np_arange _ _ _ _ _ Hs Hl) in Hv as (k & Hk & Hlt).
    apply (InQ_np_arange _ _ _ _ _ Hs Hl').
    (* the clipped bounds and the two quotients *)
    set (b0 := py_max start lo) in *. set (b1 := py_min stop hi) in *.
    pose proof (Qdiv_mul_cancel (b0 - start) s Hs0) as Hq0.
    pose proof (Qdiv_mul_cancel (stop - b1) s Hs0) as Hq1.
    set (q0 := (b0 - start) / s) in *. set (q1 := (stop - b1) / s) in *.
    set (m := Z.max 0 (imin - pad)) in *. set (M := Z.max 0 (imax - pad)) in *.
    assert (Hk0 : 0 <= inject_Z (Z.of_nat k)) by (rewrite <- (Zle_Qle 0); lia).
    assert (Hm0 : 0 <= inject_Z m) by (rewrite <- (Zle_Qle 0); lia).
    assert (HM0 : 0 <= inject_Z M) by (rewrite <- (Zle_Qle 0); lia).
    assert (Hcmin : cmin == start + inject_Z m * s).
    { unfold cmin. destruct (py_max_spec start (start + inject_Z m * s)) as [[_ ->]|[? ->]];
        [reflexivity | nra]. }
    assert (Hcmax : cmax == stop - inject_Z M * s).
    { unfold cmax. destruct (py_min_spec stop (stop - inject_Z M * s)) as [[_ ->]|[? ->]];
        [reflexivity | nra]. }
    assert (Hb0 : b0 <= v).
    { unfold b0. destruct (py_max_spec start lo) as [[_ ->]|[_ ->]]; [done | nra]. }
    assert (Hmk : (m <= Z.of_nat k)%Z).
    { assert (imin <= Z.of_nat k)%Z; [|lia].
      apply Qfloor_le_Z. fold q0. nra. }
    exists (Z.to_nat (Z.of_nat k - m)). split.
    + rewrite Z2Nat.id by lia. rewrite Hcmin, Hk.
      unfold Zminus. rewrite inject_Z_plus, inject_Z_opp. ring.
    + rewrite Hcmax. destruct (Z.max_spec 0 (imax - pad)) as [[HM1 HM]|[HM1 HM]];
        fold M in HM; rewrite HM.
      * (* the upper index is trimmed: the value is at most the clipped bound *)
        assert (Hlt1 : inject_Z (imax - 1) < q1) by apply Qceiling_lt.
        assert (Hpad' : inject_Z (imax - pad) <= inject_Z (imax - 1) + 1).
        { rewrite <- (inject_Z_plus _ 1), <- Zle_Qle. lia. }
        assert (v <= b1 \/ (stop < v /\ imax = 0%Z)) as [Hvb|[_ Himax]].
        { unfold b1 in *. destruct (py_min_spec stop hi) as [[Hh Hb]|[Hh Hb]].
          - left. by rewrite Hb.
          - destruct (Qlt_le_dec stop v) as [Hsv|Hsv].
            + right. split; [done|]. unfold imax, q1. rewrite Hb.
              assert (E : (stop - stop) / s == inject_Z 0) by (field; done).
              rewrite E. apply Qceiling_Z.
            + left. by rewrite Hb. }
        -- assert (inject_Z (imax - 1) * s < q1 * s) by (apply Qmult_lt_compat_r; done).
           assert (inject_Z (imax - pad) * s <= (inject_Z (imax - 1) + 1) * s)
             by (apply Qmult_le_compat_r; lra).
           clear - H H0 Hq1 Hvb. clearbody imax q1 b1. lra.
        -- lia.
      * change (inject_Z 0) with 0. lra.
Qed.

(** C2 at the scenario: with the default padding of 1 the selection of
    [45, 100] starts at 30. *)
Lemma C2_witness :
  (float_int 20 /\ float_int 70 /\ float_int 10 /\ float_int 45 /\ float_int 100) /\
  (0 < 10 /\ 20 <= 70 /\ (0 <= 1)%Z) /\
  select (uniform 20 70 10) 45 100 1 false = ok (Obj (uniform 30 70 10)).
Proof.
  assert (F : forall z : Z, (Z.abs z <= 2 ^ 50)%Z -> float_int (inject_Z z)).
  { intros z Hz. exists z. split; [reflexivity | exact Hz]. }
  assert (F1 : float_int 20) by (apply (F 20%Z); discriminate).
  assert (F2 : float_int 70) by (apply (F 70%Z); discriminate).
  assert (F3 : float_int 10) by (apply (F 10%Z); discriminate).
  assert (F4 : float_int 45) by (apply (F 45%Z); discriminate).
  assert (F5 : float_int 100) by (apply (F 100%Z); discriminate).
  assert (H1 : 0 < 10) by reflexivity.
  assert (H2 : 20 <= 70) by discriminate.
  assert (H3 : (0 <= 1)%Z) by discriminate.
  split; [done|]. split; [done|].
  exact (proj1 (C2_select_uniform_ascending default_kwargs 20 70 10 45 100 1
                  F1 F2 F3 F4 F5 H1 H2 H3)).
Defined.

(** C2 as stated fails: with the default padding of 1 (and with no padding
    too) the selection of [45, 100] from start=20, stop=70, step=10 is not
    the coordinate that starts at 50. *)
Lemma C2_counterexample :
  ~ (select (uniform 20 70 10) 45 100 1 false = ok (Obj (uniform 50 70 10)) \/
     select (uniform 20 70 10) 45 100 0 false = ok (Obj (uniform 50 70 10))).
Proof. vm_compute. intros [H|H]; discriminate H. Qed.

(** ** Index answers against object answers *)

(** [GridCoord.intersect_bounds] reads the list and leaves it as it was. *)
Lemma GridCoord_intersect_bounds_with_run sb c coords (σ : store) bnd lo hi rest pad ind :
  σ !! bnd = Some (lo :: hi :: rest) ->
  GridCoord_intersect_bounds_with sb c coords bnd pad ind σ
  = (grid_answer_with sb c coords lo hi pad ind, σ).
Proof.
  intros Hσ. unfold GridCoord_intersect_bounds_with, grid_answer_with.
  unfold mbind at 1. unfold load at 1. rewrite Hσ. cbn [lookup list_lookup ok].
  unfold mbind at 1. unfold lift at 1.
  destruct (delta c) as [e|d]; [done|]. cbn [rbind].
  unfold mbind at 1. unfold load at 1. rewrite Hσ. cbn [lookup list_lookup ok].
  done.
Qed.

Lemma GridCoord_intersect_bounds_run kw coords (σ : store) bnd lo hi rest pad ind :
  σ !! bnd = Some (lo :: hi :: rest) ->
  GridCoord_intersect_bounds (GridCoord kw coords) coords bnd pad ind σ
  = (grid_answer (GridCoord kw coords) coords lo hi pad ind, σ).
Proof.
  intros Hσ. unfold GridCoord_intersect_bounds, grid_answer. cbn [bounds].
  unfold mbind at 1. unfold lift at 1. cbn [rbind ok].
  exact (GridCoord_intersect_bounds_with_run _ _ _ _ _ lo hi rest _ _ Hσ).
Qed.

(** On a [GridCoord] with a value inside the (widened) bounds, the object
    answer holds exactly the slice that the index answer names. *)
Lemma GridCoord_select_consistent kw coords lo hi pad i j s :
  select (GridCoord kw coords) lo hi pad true = ok (Ind i j) ->
  select (GridCoord kw coords) lo hi pad false = ok (Obj s) ->
  (i, j) <> (0, 0)%Z ->
  index_with (GridCoord kw coords) (Ind i j) = coordinates s.
Proof.
  unfold select. cbn [intersect_bounds].
  rewrite !(GridCoord_intersect_bounds_run _ _ _ _ lo hi [])
    by apply lookup_singleton_eq.
  cbn [fst]. unfold grid_answer, grid_answer_with. cbn [bounds delta size rbind ok].
  destruct (np_where _ _) as [|i0 inds].
  - intros [= <- <-] _ Hne. done.
  - cbn [rbind ok]. intros [= <- <-].
    destruct (GridCoord_init _ _) as [e|o] eqn:E; [done|].
    cbn [rbind ok]. intros [= <-] _.
    unfold GridCoord_init in E. cbn [index_with coordinates rbind ok].
    destruct (py_slice _ _ _) as [|? [|? ?]]; [done..|]. by injection E as <-.
Qed.

(** A [SingleCoord] answers with itself and with the slice [0:1]. *)
Lemma SingleCoord_select_consistent kw x lo hi pad :
  select (SingleCoord kw x) lo hi pad true = ok (Ind 0 1) /\
  select (SingleCoord kw x) lo hi pad false = ok (Obj (SingleCoord kw x)) /\
  index_with (SingleCoord kw x) (Ind 0 1) = coordinates (SingleCoord kw x).
Proof. done. Qed.

(** With a step whose sign agrees with the order of [start] and [stop],
    the index answer of a uniform coordinate is always the empty range:
    both ends are clipped to [size], which is 0. *)
Lemma uniform_select_index_empty kw start stop s lo hi pad :
  (start < stop /\ 0 < s) \/ (stop < start /\ s < 0) ->
  select (UniformGridCoord kw start stop None (Some s)) lo hi pad true = ok (Ind 0 0).
Proof.
  intros H. rewrite select_uniform. cbn zeta. unfold uniform_answer_with.
  rewrite (size_uniform_step_consistent _ _ _ _ H). cbn [delta rbind ok].
  assert (Hs : ~ s == 0) by (intros E; destruct H as [[_ H]|[_ H]]; lra).
  rewrite !py_div_ok by done. cbn [rbind ok].
  destruct (is_max_to_min _); f_equal; f_equal; lia.
Qed.

(** C3: the index answer and the object answer of a selection disagree.
    On the array-backed coordinate [1,2,3] and the bounds [10,20] the index
    answer [0,0] selects no value while the object answer holds the three
    values [1,3,0]; on the uniform coordinate start=20, stop=70, step=10 and
    the bounds [45,100] the index answer is [0,0] again (its [size] is 0)
    while the object answer holds [30,40,50,60,70]. *)
Theorem C3_index_answer_disagrees_with_object_answer :
  (select (grid [1; 2; 3]) 10 20 1 true = ok (Ind 0 0) /\
   index_with (grid [1; 2; 3]) (Ind 0 0) = ok [] /\
   select (grid [1; 2; 3]) 10 20 1 false = ok (Obj (grid [1; 3; 0])) /\
   coordinates (grid [1; 3; 0]) = ok [1; 3; 0]) /\
  (select (uniform 20 70 10) 45 100 1 true = ok (Ind 0 0) /\
   index_with (uniform 20 70 10) (Ind 0 0) = ok [] /\
   select (uniform 20 70 10) 45 100 1 false = ok (Obj (uniform 30 70 10)) /\
   coordinates (uniform 30 70 10) = ok [30; 40; 50; 60; 70]).
Proof. by vm_compute. Qed.

(** ** Disjoint bounds *)

(** Running a computation step by step. *)
Lemma mbind_run {A B} (m : M A) (f : A -> M B) (σ σ' : store) x :
  m σ = (ok x, σ') -> mbind m f σ = f x σ'.
Proof. intros H. unfold mbind. by rewrite H. Qed.

Lemma mbind_raise {A B} (m : M A) (f : A -> M B) (σ σ' : store) e :
  m σ = (inl e, σ') -> mbind m f σ = (inl e, σ').
Proof. intros H. unfold mbind. by rewrite H. Qed.

Lemma load_run (σ : store) b l i x :
  σ !! b = Some l -> l !! i = Some x -> load b i σ = (ok x, σ).
Proof. intros H1 H2. unfold load. by rewrite H1, H2. Qed.

Lemma cached_bounds_kept o (σ : store) l :
  σ !! _cached_bounds o = Some l -> cached_bounds o σ = (ok (_cached_bounds o), σ).
Proof. intros H. unfold cached_bounds. by rewrite H. Qed.

Lemma cached_bounds_first o (σ : store) sb :
  σ !! _cached_bounds o = None -> bounds (traits o) = ok sb ->
  cached_bounds o σ = (ok (_cached_bounds o), <[_cached_bounds o := [fst sb; snd sb]]> σ).
Proof. intros H1 H2. unfold cached_bounds. by rewrite H1, H2. Qed.

Lemma cached_bounds_raise o (σ : store) e :
  σ !! _cached_bounds o = None -> bounds (traits o) = inl e ->
  cached_bounds o σ = (inl e, σ).
Proof. intros H1 H2. unfold cached_bounds. by rewrite H1, H2. Qed.

(** Reading [bounds] on an object that has them cached, or can compute
    them, leaves them cached and changes nothing else. *)
Lemma cached_bounds_ok o (σ : store) :
  two_entries σ ->
  is_Some (σ !! _cached_bounds o) \/ (exists sb, bounds (traits o) = ok sb) ->
  exists (σ' : store) a b,
    cached_bounds o σ = (ok (_cached_bounds o), σ') /\
    σ' !! _cached_bounds o = Some [a; b] /\
    two_entries σ' /\ σ ⊆ σ'.
Proof.
  intros Hσ Hc. destruct (σ !! _cached_bounds o) as [x|] eqn:E.
  - destruct (Hσ _ _ E) as (a & b & ->). exists σ, a, b.
    by rewrite (cached_bounds_kept _ _ _ E).
  - destruct Hc as [[x Hx]|[sb Hsb]]; [done|].
    exists (<[_cached_bounds o := [sb.1; sb.2]]> σ), sb.1, sb.2.
    rewrite (cached_bounds_first _ _ _ E Hsb). split; [done|].
    split; [apply lookup_insert_eq|]. split; [|by apply insert_subseteq].
    intros l x. destruct (decide (l = _cached_bounds o)) as [->|Hne].
    + rewrite lookup_insert_eq. intros [= <-]. eauto.
    + rewrite lookup_insert_ne by done. apply Hσ.
Qed.

(** [intersect] on two objects with the same units that have their bounds
    cached or can compute them: both arrays are cached afterwards, and the
    check decides on their entries. *)
Lemma intersect_run self other_coord (σ : store) pad ind :
  units (kwargs (traits self)) = units (kwargs (traits other_coord)) ->
  two_entries σ ->
  is_Some (σ !! _cached_bounds self) \/ (exists sb, bounds (traits self) = ok sb) ->
  is_Some (σ !! _cached_bounds other_coord) \/
    (exists ob, bounds (traits other_coord) = ok ob) ->
  exists (σ' : store) s0 s1 o0 o1,
    two_entries σ' /\ σ ⊆ σ' /\
    σ' !! _cached_bounds self = Some [s0; s1] /\
    σ' !! _cached_bounds other_coord = Some [o0; o1] /\
    intersect self other_coord pad ind σ
    = match check_answer (traits self) s0 s1 o0 o1 ind with
      | inl e => (inl e, σ')
      | inr (Some a) => (ok a, σ')
      | inr None =>
          intersect_bounds_with (s0, s1) (traits self) (_cached_bounds other_coord) pad ind σ'
      end.
Proof.
  intros Hu Hσ Hs Ho.
  destruct (cached_bounds_ok self σ Hσ Hs) as (σ1 & s0 & s1 & E1 & L1 & Hσ1 & Hsub1).
  assert (Ho1 : is_Some (σ1 !! _cached_bounds other_coord) \/
                (exists ob, bounds (traits other_coord) = ok ob)).
  { destruct Ho as [[x Hx]|Ho]; [left|by right]. exists x. by apply (lookup_weaken σ). }
  destruct (cached_bounds_ok other_coord σ1 Hσ1 Ho1) as (σ2 & o0 & o1 & E2 & L2 & Hσ2 & Hsub2).
  pose proof (lookup_weaken _ _ _ _ L1 Hsub2) as L1'.
  exists σ2, s0, s1, o0, o1. split; [done|]. split; [by transitivity σ1|].
  split; [done|]. split; [done|].
  assert (Hchk : intersect_check self other_coord ind σ
                 = (check_answer (traits self) s0 s1 o0 o1 ind, σ2)).
  { unfold intersect_check. rewrite bool_decide_eq_true_2 by done. cbn [negb].
    rewrite (mbind_run _ _ _ _ _ E1), (mbind_run _ _ _ _ _ E2).
    rewrite (mbind_run _ _ _ _ _ (load_run _ _ _ 0%nat _ L1' eq_refl)).
    rewrite (mbind_run _ _ _ _ _ (load_run _ _ _ 0%nat _ L2 eq_refl)).
    rewrite (mbind_run _ _ _ _ _ (load_run _ _ _ 1%nat _ L1' eq_refl)).
    rewrite (mbind_run _ _ _ _ _ (load_run _ _ _ 1%nat _ L2 eq_refl)).
    done. }
  unfold intersect.
  destruct (check_answer (traits self) s0 s1 o0 o1 ind) as [e|[a|]] eqn:E.
  - by apply mbind_raise.
  - by erewrite mbind_run; [|exact Hchk].
  - erewrite mbind_run; [|exact Hchk]. cbn beta iota.
    rewrite (mbind_run _ _ _ _ _ (cached_bounds_kept _ _ _ L2)).
    rewrite (mbind_run _ _ _ _ _ (cached_bounds_kept _ _ _ L1')).
    rewrite (mbind_run _ _ _ _ _ (load_run _ _ _ 0%nat _ L1' eq_refl)).
    rewrite (mbind_run _ _ _ _ _ (load_run _ _ _ 1%nat _ L1' eq_refl)).
    done.
Qed.

(** [intersect] on two new objects whose [bounds] can be computed: both
    arrays are cached, and the check decides. *)
Lemma intersect_new_run c other_coord sb ob pad ind :
  units (kwargs c) = units (kwargs other_coord) ->
  bounds c = ok sb -> bounds other_coord = ok ob ->
  intersect (mk_object c 1%positive) (mk_object other_coord 2%positive) pad ind ∅
  = match check_answer c (fst sb) (snd sb) (fst ob) (snd ob) ind with
    | inl e => (inl e, two_caches sb ob)
    | inr (Some a) => (ok a, two_caches sb ob)
    | inr None => intersect_bounds_with sb c 2%positive pad ind (two_caches sb ob)
    end.
Proof.
  intros Hu Hc Ho.
  set (self := mk_object c 1%positive). set (other := mk_object other_coord 2%positive).
  assert (H1 : two_caches sb ob !! 1%positive = Some [sb.1; sb.2]).
  { unfold two_caches. rewrite lookup_insert_ne by done. apply lookup_insert_eq. }
  assert (H2 : two_caches sb ob !! 2%positive = Some [ob.1; ob.2]) by apply lookup_insert_eq.
  assert (Hchk : intersect_check self other ind ∅
                 = (check_answer c sb.1 sb.2 ob.1 ob.2 ind, two_caches sb ob)).
  { unfold intersect_check. cbn [traits self other].
    rewrite bool_decide_eq_true_2 by done. cbn [negb].
    rewrite (mbind_run _ _ _ _ _ (cached_bounds_first self ∅ sb (lookup_empty _) Hc)).
    erewrite mbind_run; [|apply (cached_bounds_first other _ ob); [|exact Ho]].
    2:{ cbn. rewrite lookup_insert_ne by done. apply lookup_empty. }
    fold (two_caches sb ob).
    rewrite (mbind_run _ _ _ _ _ (load_run _ _ _ 0%nat _ H1 eq_refl)).
    rewrite (mbind_run _ _ _ _ _ (load_run _ _ _ 0%nat _ H2 eq_refl)).
    rewrite (mbind_run _ _ _ _ _ (load_run _ _ _ 1%nat _ H1 eq_refl)).
    rewrite (mbind_run _ _ _ _ _ (load_run _ _ _ 1%nat _ H2 eq_refl)).
    done. }
  unfold intersect.
  destruct (check_answer c sb.1 sb.2 ob.1 ob.2 ind) as [e|[a|]] eqn:E.
  - by apply mbind_raise.
  - by erewrite mbind_run; [|exact Hchk].
  - erewrite mbind_run; [|exact Hchk].
    cbn beta iota.
    rewrite (mbind_run _ _ _ _ _ (cached_bounds_kept other _ _ H2)).
    rewrite (mbind_run _ _ _ _ _ (cached_bounds_kept self _ _ H1)).
    rewrite (mbind_run _ _ _ _ _ (load_run _ _ _ 0%nat _ H1 eq_refl)).
    rewrite (mbind_run _ _ _ _ _ (load_run _ _ _ 1%nat _ H1 eq_refl)).
    by destruct sb.
Qed.

(** Whatever the class, with equal units and disjoint bounds the object
    answer of [intersect] is what the constructor of the class makes of the
    tuple (min, max, 0), and the index answer is the empty range. *)
Lemma intersect_disjoint c other_coord sb ob pad :
  units (kwargs c) = units (kwargs other_coord) ->
  bounds c = ok sb -> bounds other_coord = ok ob ->
  fst sb <= snd sb ->
  snd sb < fst ob \/ snd ob < fst sb ->
  intersect_new c other_coord pad false
  = (o <- class_init c default_kwargs [fst sb; snd sb; 0] ;; ok (Obj o)) /\
  intersect_new c other_coord pad true = ok (Ind 0 0).
Proof.
  intros Hu Hc Ho Hasc Hdisj. unfold intersect_new.
  rewrite !(intersect_new_run _ _ sb ob) by done.
  assert (Hchk : forall ind, check_answer c sb.1 sb.2 ob.1 ob.2 ind
            = if ind then ok (Some (Ind 0 0))
              else (o <- class_init c default_kwargs [fst sb; snd sb; 0] ;;
                    ok (Some (Obj o)))).
  { intros ind. unfold check_answer.
    assert (Hne : Qeqb sb.1 ob.1 && Qeqb sb.2 ob.2 = false).
    { apply andb_false_iff.
      destruct (Qeqb sb.1 ob.1) eqn:E1; [|by left].
      right. apply Qeqb_true in E1. apply Qeqb_false. destruct Hdisj; lra. }
    rewrite Hne.
    assert (Hlt : Qltb (py_min sb.2 ob.2) (py_max sb.1 ob.1) = true).
    { apply Qltb_true.
      destruct (py_min_spec sb.2 ob.2) as [[? ->]|[? ->]];
      destruct (py_max_spec sb.1 ob.1) as [[? ->]|[? ->]];
      destruct Hdisj; lra. }
    by rewrite Hlt. }
  rewrite !Hchk. split; [|done].
  by destruct (class_init _ _ _).
Qed.

(** On a new [SingleCoord], and against one, [intersect] raises: the
    check reads [bounds], which needs [delta]. *)
Lemma intersect_single kw x c other_coord sb pad ind :
  units kw = units (kwargs other_coord) ->
  units (kwargs c) = units kw ->
  bounds c = ok sb ->
  intersect_new (SingleCoord kw x) other_coord pad ind = raise TraitError /\
  intersect_new c (SingleCoord kw x) pad ind = raise TraitError.
Proof.
  intros Hu Hu' Hc. unfold intersect_new, intersect, intersect_check. cbn [traits kwargs].
  rewrite !bool_decide_eq_true_2 by done. cbn [negb]. split.
  - unfold mbind at 1. unfold mbind at 1. by unfold cached_bounds at 1.
  - unfold mbind at 1. unfold mbind at 1. unfold cached_bounds at 1.
    cbn [_cached_bounds traits]. rewrite lookup_empty, Hc. unfold ok at 1.
    unfold mbind at 1. unfold cached_bounds at 1. cbn [_cached_bounds traits].
    by rewrite lookup_insert_ne.
Qed.

(** C4: intersecting with a coordinate whose bounds are disjoint does not
    give an empty coordinate object. A uniform coordinate raises (the
    constructor is called without [num] or [step]), a single coordinate
    raises as soon as its bounds are read, and an array-backed coordinate
    answers with the three values (min, max, 0); selecting disjoint bounds
    on a uniform coordinate gives a coordinate with one value, and on a
    single coordinate the coordinate itself. Only the index answers of a
    uniform and of an array-backed coordinate are the empty range [0,0]. *)
Theorem C4_disjoint_bounds_do_not_give_empty_object :
  intersect_new (uniform 0 50 10) (uniform 100 200 10) 1 false
    = raise (CoordinateException uniform_requires_num_or_step) /\
  (intersect_new (single 15) (grid [100; 110; 120]) 1 false = raise TraitError /\
   intersect_new (single 15) (grid [100; 110; 120]) 1 true = raise TraitError /\
   select (single 15) 100 120 1 false = ok (Obj (single 15))) /\
  (intersect_new (grid [1; 2; 3]) (grid [10; 11; 12]) 1 false = ok (Obj (grid [1; 3; 0])) /\
   select (grid [1; 2; 3]) 10 20 1 false = ok (Obj (grid [1; 3; 0])) /\
   size (grid [1; 3; 0]) = ok 3%Z) /\
  (select (uniform 20 70 10) 80 100 1 false = ok (Obj (uniform 70 70 10)) /\
   coordinates (uniform 70 70 10) = ok [70]) /\
  (intersect_new (uniform 0 50 10) (uniform 100 200 10) 1 true = ok (Ind 0 0) /\
   intersect_new (grid [1; 2; 3]) (grid [10; 11; 12]) 1 true = ok (Ind 0 0)).
Proof. by vm_compute. Qed.

(** ** Bounds and direction *)

Lemma foldr_py_min_spec d l :
  foldr py_min d l ∈ d :: l /\ forall x, x ∈ d :: l -> foldr py_min d l <= x.
Proof.
  induction l as [|a l [IH1 IH2]]; cbn [foldr].
  - split; [left|]. intros x ->%list_elem_of_singleton. lra.
  - destruct (py_min_spec a (foldr py_min d l)) as [[Hlt ->]|[Hle ->]]; split.
    + apply elem_of_cons in IH1 as [->|?]; [left | by do 2 right].
    + intros x Hx. apply elem_of_cons in Hx as [->|Hx].
      { by apply IH2; left. }
      apply elem_of_cons in Hx as [->|Hx]; [lra|]. by apply IH2; right.
    + right; left.
    + intros x Hx. apply elem_of_cons in Hx as [->|Hx].
      { pose proof (IH2 d ltac:(left)). lra. }
      apply elem_of_cons in Hx as [->|Hx]; [lra|].
      pose proof (IH2 x ltac:(by right)). lra.
Qed.

Lemma foldr_py_max_spec d l :
  foldr py_max d l ∈ d :: l /\ forall x, x ∈ d :: l -> x <= foldr py_max d l.
Proof.
  induction l as [|a l [IH1 IH2]]; cbn [foldr].
  - split; [left|]. intros x ->%list_elem_of_singleton. lra.
  - destruct (py_max_spec a (foldr py_max d l)) as [[Hlt ->]|[Hle ->]]; split.
    + apply elem_of_cons in IH1 as [->|?]; [left | by do 2 right].
    + intros x Hx. apply elem_of_cons in Hx as [->|Hx].
      { by apply IH2; left. }
      apply elem_of_cons in Hx as [->|Hx]; [lra|]. by apply IH2; right.
    + right; left.
    + intros x Hx. apply elem_of_cons in Hx as [->|Hx].
      { pose proof (IH2 d ltac:(left)). lra. }
      apply elem_of_cons in Hx as [->|Hx]; [lra|].
      pose proof (IH2 x ltac:(by right)). lra.
Qed.

Lemma np_min_max_spec l : l <> [] -> is_min_max (np_min l) (np_max l) l.
Proof.
  intros Hl. destruct l as [|a l]; [done|].
  unfold np_min, np_max, is_min_max, InQ. cbn [hd].
  destruct (foldr_py_min_spec a (a :: l)) as [H1 H2].
  destruct (foldr_py_max_spec a (a :: l)) as [H3 H4].
  split; [|split].
  - exists (foldr py_min a (a :: l)). split; [|reflexivity].
    apply elem_of_cons in H1 as [->|?]; [left | done].
  - exists (foldr py_max a (a :: l)). split; [|reflexivity].
    apply elem_of_cons in H3 as [->|?]; [left | done].
  - intros x Hx. split; [apply H2 | apply H4]; by right.
Qed.

Lemma inject_Z_nat_nonneg (k : nat) : 0 <= inject_Z (Z.of_nat k).
Proof. rewrite <- (Zle_Qle 0). lia. Qed.

(** The bounds of an array-backed coordinate are the least and the
    greatest of its values, and a uniform coordinate is descending exactly
    when start > stop, its bounds being [start] and [stop] in ascending
    order. *)
Lemma bounds_GridCoord kw coords :
  coords <> [] ->
  exists sb, bounds (GridCoord kw coords) = ok sb /\ is_min_max (fst sb) (snd sb) coords.
Proof. intros Hne. eexists. split; [reflexivity|]. by apply np_min_max_spec. Qed.

Lemma bounds_UniformGridCoord kw start stop num step :
  let c := UniformGridCoord kw start stop num step in
  (is_max_to_min c = true <-> stop < start) /\
  exists sb, bounds c = ok sb /\ fst sb <= snd sb /\
             (sb = (start, stop) \/ sb = (stop, start)).
Proof.
  cbn [bounds is_max_to_min]. split; [apply Qltb_true|].
  eexists. split; [reflexivity|]. destruct (Qltb stop start) eqn:E; cbn [fst snd].
  - apply Qltb_true in E. split; [lra | by right].
  - apply Qltb_false in E. split; [lra | by left].
Qed.

(** C5: the [bounds] of a single-value coordinate cannot be read. The
    coordinate 15 holds the value 15, but its [delta], and with it its
    [bounds], raise [TraitError] instead of giving (15, 15). The bounds of
    the uniform coordinate start=0, stop=45, step=10 are (0, 45) while its
    values run to 50. On the array [3, 1, 2] and on the descending
    coordinate start=50, stop=0, step=-10 the bounds are the least and the
    greatest value, in ascending order. *)
Theorem C5_bounds_of_a_single_coordinate_raise :
  (coordinates (single 15) = ok [15] /\
   delta (single 15) = raise TraitError /\
   bounds (single 15) = raise TraitError) /\
  (bounds (uniform 0 45 10) = ok (0, 45) /\
   coordinates (uniform 0 45 10) = ok [0; 10; 20; 30; 40; 50]) /\
  (bounds (grid [3; 1; 2]) = ok (1, 3) /\
   bounds (uniform 50 0 (-10)) = ok (0, 50) /\
   coordinates (uniform 50 0 (-10)) = ok [50; 40; 30; 20; 10; 0] /\
   is_max_to_min (uniform 50 0 (-10)) = true).
Proof. by vm_compute. Qed.

(** ** Ordered dictionaries *)

Section odict_facts.
Context {V : Type}.
Implicit Types (d : odict V) (k : string) (v : V).

Lemma od_set_keys k v d : (od_set k v d).*1 = add_key d.*1 k.
Proof.
  unfold add_key. induction d as [|[k' v'] d IH]; cbn [od_set fmap list_fmap fst].
  - by rewrite bool_decide_eq_false_2 by apply not_elem_of_nil.
  - destruct (decide (k = k')) as [->|Hne].
    + by rewrite bool_decide_eq_true_2 by left.
    + cbn [fmap list_fmap fst]. rewrite IH. case_bool_decide as H1.
      * by rewrite bool_decide_eq_true_2 by by right.
      * rewrite bool_decide_eq_false_2; [done|].
        intros [?|?]%elem_of_cons; done.
Qed.

Lemma od_set_fresh k v d : k ∉ d.*1 -> od_set k v d = d ++ [(k, v)].
Proof.
  induction d as [|[k' v'] d IH]; cbn [od_set fmap list_fmap fst]; [done|].
  intros Hk. apply not_elem_of_cons in Hk as [Hne Hk].
  rewrite decide_False by done. by rewrite IH.
Qed.

Lemma od_get_set_eq k v d : od_get k (od_set k v d) = Some v.
Proof.
  induction d as [|[k' v'] d IH]; cbn [od_set od_get].
  - by rewrite decide_True.
  - destruct (decide (k = k')) as [->|Hne]; cbn [od_get].
    + by rewrite decide_True.
    + by rewrite decide_False.
Qed.

Lemma od_get_set_ne k k' v d : k' <> k -> od_get k' (od_set k v d) = od_get k' d.
Proof.
  intros Hne. induction d as [|[k0 v0] d IH]; cbn [od_set od_get].
  - by rewrite decide_False.
  - destruct (decide (k = k0)) as [->|Hne0]; cbn [od_get].
    + by rewrite !decide_False.
    + by rewrite IH.
Qed.

Lemma od_get_Some_elem k v d : od_get k d = Some v -> (k, v) ∈ d.
Proof.
  induction d as [|[k' v'] d IH]; cbn [od_get]; [done|].
  destruct (decide (k = k')) as [->|Hne].
  - intros [= ->]. left.
  - intros H. right. by apply IH.
Qed.

Lemma od_get_None k d : od_get k d = None <-> k ∉ d.*1.
Proof.
  induction d as [|[k' v'] d IH]; cbn [od_get fmap list_fmap fst].
  - split; [intros _; apply not_elem_of_nil | done].
  - destruct (decide (k = k')) as [->|Hne].
    + split; [done|]. intros H. exfalso. apply H. left.
    + rewrite IH. rewrite not_elem_of_cons. tauto.
Qed.

Lemma od_get_is_Some k d : is_Some (od_get k d) <-> k ∈ d.*1.
Proof.
  rewrite <- not_eq_None_Some, od_get_None.
  split; [|by intros ? ?]. intros H. by destruct (decide (k ∈ d.*1)).
Qed.

Lemma elem_od_get k v d : NoDup d.*1 -> (k, v) ∈ d -> od_get k d = Some v.
Proof.
  induction d as [|[k' v'] d IH]; cbn [od_get fmap list_fmap fst].
  - intros _ H. by apply elem_of_nil in H.
  - intros [Hk Hd]%NoDup_cons [[= -> ->]|Hin]%elem_of_cons.
    + by rewrite decide_True.
    + rewrite decide_False; [by apply IH|].
      intros ->. apply Hk. apply list_elem_of_fmap. by exists (k', v).
Qed.

Lemma od_mem_true k d : od_mem k d = true <-> k ∈ d.*1.
Proof. unfold od_mem. apply bool_decide_eq_true. Qed.


Lemma od_get_app_r k d1 d2 : k ∉ d1.*1 -> od_get k (d1 ++ d2) = od_get k d2.
Proof.
  induction d1 as [|[k' v'] d1 IH]; cbn [od_get fmap list_fmap fst app]; [done|].
  intros [Hne Hk]%not_elem_of_cons. rewrite decide_False by done. by apply IH.
Qed.
End odict_facts.

Lemma add_key_fresh ks k : k ∉ ks -> add_key ks k = ks ++ [k].
Proof. intros H. unfold add_key. by rewrite bool_decide_eq_false_2. Qed.

Lemma NoDup_add_key ks k : NoDup ks -> NoDup (add_key ks k).
Proof.
  intros H. unfold add_key. case_bool_decide; [done|].
  apply NoDup_app. split; [done|]. split; [|apply NoDup_singleton].
  intros x Hx ->%list_elem_of_singleton. done.
Qed.

Lemma elem_of_add_key ks k x : x ∈ add_key ks k <-> x ∈ ks \/ x = k.
Proof.
  unfold add_key. case_bool_decide.
  - split; [by left|]. intros [?| ->]; done.
  - rewrite elem_of_app, list_elem_of_singleton. done.
Qed.

Lemma NoDup_fold_add_key l ks : NoDup ks -> NoDup (fold_left add_key l ks).
Proof.
  revert ks. induction l as [|k l IH]; intros ks H; cbn [fold_left]; [done|].
  by apply IH, NoDup_add_key.
Qed.

Lemma elem_of_fold_add_key l ks x : x ∈ fold_left add_key l ks <-> x ∈ ks \/ x ∈ l.
Proof.
  revert ks. induction l as [|k l IH]; intros ks; cbn [fold_left].
  - split; [by left|]. intros [?|H]; [done|]. by apply elem_of_nil in H.
  - rewrite IH, elem_of_add_key, elem_of_cons. tauto.
Qed.

Lemma fold_add_key_fresh l ks : NoDup (ks ++ l) -> fold_left add_key l ks = ks ++ l.
Proof.
  revert ks. induction l as [|k l IH]; intros ks H; cbn [fold_left].
  - by rewrite app_nil_r.
  - assert (Hk : k ∉ ks).
    { apply NoDup_app in H as (_ & H & _). intros Hin. apply (H k Hin). left. }
    rewrite add_key_fresh by done. rewrite IH; rewrite <- app_assoc; done.
Qed.

(** ** Splitting dimension names *)

Lemma split_us_nonempty s : split_us s <> [].
Proof.
  destruct s as [|a s]; cbn [split_us]; [done|].
  destruct (Ascii.eqb a "_"); [done|]. by destruct (split_us s).
Qed.

Lemma split_us_plain s : contains_us s = false -> split_us s = [s].
Proof.
  induction s as [|a s IH]; cbn [split_us contains_us]; [done|].
  intros [Ha Hs]%orb_false_iff. rewrite Ha, (IH Hs). done.
Qed.

Lemma split_us_parts_plain s p : p ∈ split_us s -> contains_us p = false.
Proof.
  revert p. induction s as [|a s IH]; intros p; cbn [split_us].
  - by intros ->%list_elem_of_singleton.
  - destruct (Ascii.eqb a "_") eqn:Ha.
    + intros [->|Hp]%elem_of_cons; [done | by apply IH].
    + pose proof (split_us_nonempty s) as Hne.
      destruct (split_us s) as [|q qs]; [done|].
      intros [->|Hp]%elem_of_cons.
      * cbn [contains_us]. rewrite Ha. apply IH. left.
      * apply IH. by right.
Qed.

Lemma split_us_compound s : contains_us s = true -> (2 <= length (split_us s))%nat.
Proof.
  induction s as [|a s IH]; cbn [split_us contains_us]; [done|].
  destruct (Ascii.eqb a "_") eqn:Ha; cbn [orb].
  - intros _. pose proof (split_us_nonempty s). destruct (split_us s); [done|].
    cbn [length]. lia.
  - intros Hs. specialize (IH Hs). destruct (split_us s); cbn [length] in *; lia.
Qed.

Lemma valid_dim_plain d : d ∈ _valid_dims -> contains_us d = false.
Proof.
  unfold _valid_dims. rewrite !elem_of_cons, elem_of_nil.
  intros [->|[->|[->|[->|[]]]]]; done.
Qed.

(** ** The error monad over lists *)

Lemma foldM_app {A S} (f : S -> A -> result S) l1 l2 s :
  foldM f (l1 ++ l2) s = (s' <- foldM f l1 s ;; foldM f l2 s').
Proof.
  revert s. induction l1 as [|x l1 IH]; intros s; cbn [foldM app rbind ok]; [done|].
  destruct (f s x) as [e|s']; cbn [rbind]; [done|]. apply IH.
Qed.

(** An invariant of a loop that ran to its end. *)
Lemma foldM_inv {A S} (f : S -> A -> result S) (P : list A -> S -> Prop) l s0 s :
  P [] s0 ->
  (forall pre x suf st st', l = pre ++ x :: suf -> P pre st -> f st x = ok st' ->
                            P (pre ++ [x]) st') ->
  foldM f l s0 = ok s -> P l s.
Proof.
  intros H0 Hstep.
  assert (G : forall suf pre st, l = pre ++ suf -> P pre st ->
                                 foldM f suf st = ok s -> P l s).
  { induction suf as [|x suf IH]; intros pre st Hl HP; cbn [foldM].
    - intros [= <-]. by rewrite Hl, app_nil_r.
    - destruct (f st x) as [e|st'] eqn:E; cbn [rbind]; [done|].
      apply (IH (pre ++ [x])).
      + by rewrite <- app_assoc.
      + by apply (Hstep pre x suf st). }
  by apply (G l []).
Qed.

Lemma set_all_cons {V} k (v : V) kvs d :
  set_all ((k, v) :: kvs) d = set_all kvs (od_set k v d).
Proof. reflexivity. Qed.

Lemma set_all_keys {V} (kvs : list (string * V)) d :
  (set_all kvs d).*1 = fold_left add_key kvs.*1 d.*1.
Proof.
  revert d. induction kvs as [|[k v] kvs IH]; intros d; [done|].
  rewrite set_all_cons, IH, od_set_keys. done.
Qed.

Lemma set_all_fresh {V} (kvs : list (string * V)) d :
  NoDup (d.*1 ++ kvs.*1) -> set_all kvs d = d ++ kvs.
Proof.
  revert d. induction kvs as [|[k v] kvs IH]; intros d H.
  - by rewrite app_nil_r.
  - cbn [fmap list_fmap fst] in H.
    assert (Hk : k ∉ d.*1).
    { apply NoDup_app in H as (_ & H & _). intros Hin. apply (H k Hin). left. }
    rewrite set_all_cons, od_set_fresh by done.
    rewrite IH.
    + by rewrite <- app_assoc.
    + rewrite fmap_app. cbn [fmap list_fmap fst]. by rewrite <- app_assoc.
Qed.

Lemma set_all_app {V} (l1 l2 : list (string * V)) d :
  set_all (l1 ++ l2) d = set_all l2 (set_all l1 d).
Proof. apply fold_left_app. Qed.

(** ** The dimension map *)

Lemma dim_pairs_keys keys : (dim_pairs keys).*1 = flat_map split_us keys.
Proof.
  induction keys as [|c keys IH]; cbn [dim_pairs flat_map]; [done|].
  rewrite fmap_app. fold (dim_pairs keys). rewrite IH. f_equal.
  rewrite <- list_fmap_compose. apply list_fmap_id.
Qed.

Lemma get_dims_map_set_all {V} (coords : odict V) :
  get_dims_map coords = set_all (dim_pairs coords.*1) [].
Proof.
  unfold get_dims_map. generalize (@nil (string * string)).
  induction coords.*1 as [|c keys IH]; intros acc; cbn [fold_left dim_pairs flat_map]; [done|].
  fold (dim_pairs keys). rewrite set_all_app, IH. f_equal.
  destruct (contains_us c) eqn:Hc.
  - generalize (split_us c). intros ps. revert acc.
    induction ps as [|p ps IHp]; intros acc; [done|].
    cbn [fold_left map]. rewrite set_all_cons. apply IHp.
  - by rewrite (split_us_plain c Hc).
Qed.

Lemma get_dims_map_keys {V} (coords : odict V) :
  (get_dims_map coords).*1 = fold_left add_key (flat_map split_us coords.*1) [].
Proof. by rewrite get_dims_map_set_all, set_all_keys, dim_pairs_keys. Qed.

Lemma set_all_elem {V} (kvs : list (string * V)) d k v :
  (k, v) ∈ set_all kvs d -> (k, v) ∈ d \/ (k, v) ∈ kvs.
Proof.
  revert d. induction kvs as [|[k' v'] kvs IH]; intros d.
  - by left.
  - rewrite set_all_cons. intros [H|H]%IH; [|by right; right].
    assert (G : (k, v) ∈ d \/ (k, v) = (k', v')).
    { clear -H. induction d as [|[k0 v0] d IHd]; cbn [od_set] in H.
      - apply list_elem_of_singleton in H. by right.
      - destruct (decide (k' = k0)) as [->|Hne].
        + apply elem_of_cons in H as [->|H]; [by right | by left; right].
        + apply elem_of_cons in H as [->|H]; [by left; left|].
          destruct (IHd H) as [?|?]; [by left; right | by right]. }
    destruct G as [?| ->]; [by left | right; left].
Qed.

(** Every entry of the dimension map sends a part of a key to that key. *)
Lemma get_dims_map_elem {V} (coords : odict V) k c :
  (k, c) ∈ get_dims_map coords -> c ∈ coords.*1 /\ k ∈ split_us c.
Proof.
  rewrite get_dims_map_set_all. intros [H|H]%set_all_elem.
  - by apply elem_of_nil in H.
  - unfold dim_pairs in H. apply list_elem_of_In, in_flat_map in H as (c' & Hc' & H).
    apply list_elem_of_In, list_elem_of_fmap in H as (p & [= -> ->] & Hp).
    split; [by apply list_elem_of_In | done].
Qed.

Lemma elem_of_flat_map_split (keys : list string) p :
  p ∈ flat_map split_us keys <-> exists c, c ∈ keys /\ p ∈ split_us c.
Proof.
  rewrite list_elem_of_In, in_flat_map. split; intros (c & Hc & Hp); exists c.
  - by rewrite !list_elem_of_In.
  - by rewrite <- !list_elem_of_In.
Qed.

(** In the dimension map of a dictionary, a key of the dictionary is
    found exactly when it has no underscore. *)
Lemma od_mem_dims_map {V} (coords : odict V) key :
  key ∈ coords.*1 -> od_mem key (get_dims_map coords) = negb (contains_us key).
Proof.
  intros Hkey. apply eq_true_iff_eq. rewrite od_mem_true, negb_true_iff.
  rewrite get_dims_map_keys, elem_of_fold_add_key, elem_of_flat_map_split.
  split.
  - intros [H|(c & _ & Hp)]; [by apply elem_of_nil in H|].
    by apply split_us_parts_plain in Hp.
  - intros Hplain. right. exists key. split; [done|].
    rewrite (split_us_plain _ Hplain). left.
Qed.

(** ** Unstacking the constructor's dictionary *)

Lemma unstack_inner_keys val (g : nat -> nat) ks acc r :
  foldM (fun new_crds '(i, k) => v <- entry_item val i ;; ok (od_set k v new_crds))
        (imap (fun i k => (g i, k)) ks) acc = ok r ->
  r.*1 = fold_left add_key ks acc.*1.
Proof.
  revert g acc. induction ks as [|k ks IH]; intros g acc; cbn [imap foldM fold_left].
  - by intros [= <-].
  - destruct (entry_item val (g 0%nat)) as [e|v]; cbn [rbind ok]; [done|].
    intros H. apply (IH (g ∘ S)) in H. by rewrite H, od_set_keys.
Qed.

Lemma unstack_dict_keys dm (coords un : odict entry) :
  (forall key, key ∈ coords.*1 -> od_mem key dm = negb (contains_us key)) ->
  unstack_dict dm coords = ok un ->
  un.*1 = fold_left add_key (flat_map split_us coords.*1) [].
Proof.
  intros Hmem. unfold unstack_dict.
  apply (foldM_inv _ (fun pre acc =>
           acc.*1 = fold_left add_key (flat_map split_us pre.*1) [])); [done|].
  intros pre [key val] suf acc acc' Hl IH.
  rewrite Hmem by (rewrite Hl, fmap_app; apply elem_of_app; right; left).
  rewrite negb_involutive, fmap_app, flat_map_app, fold_left_app, <- IH.
  cbn [fmap list_fmap fst flat_map]. rewrite app_nil_r.
  destruct (contains_us key) eqn:Hc.
  - apply (unstack_inner_keys val id).
  - intros [= <-]. by rewrite od_set_keys, (split_us_plain _ Hc).
Qed.

Lemma unstack_inner_explicit cs (o : nat) ks acc :
  (o + length ks <= length cs)%nat ->
  foldM (fun new_crds '(i, k) => v <- entry_item (Many cs) i ;; ok (od_set k v new_crds))
        (imap (fun i k => ((o + i)%nat, k)) ks) acc
  = ok (set_all (zip ks (One <$> drop o cs)) acc).
Proof.
  revert o acc. induction ks as [|k ks IH]; intros o acc Hlen; cbn [imap foldM length] in *.
  - done.
  - cbn [entry_item]. rewrite Nat.add_0_r.
    destruct (lookup_lt_is_Some_2 cs o ltac:(lia)) as [c Hc]. rewrite Hc. cbn [rbind ok].
    rewrite (drop_S _ _ _ Hc). cbn [fmap list_fmap zip zip_with]. rewrite set_all_cons.
    rewrite <- (IH (S o)) by lia. f_equal. apply imap_ext. intros i x _. cbn. f_equal. lia.
Qed.

Lemma unstack_dict_explicit dm (coords : odict entry) :
  (forall key, key ∈ coords.*1 -> od_mem key dm = negb (contains_us key)) ->
  Forall well_shaped coords ->
  unstack_dict dm coords = ok (set_all (flat_map unstack_items coords) []).
Proof.
  unfold unstack_dict. generalize (@nil (string * entry)).
  induction coords as [|[key val] coords IH]; intros acc Hmem Hws; cbn [foldM flat_map].
  - done.
  - apply Forall_cons in Hws as [Hkv Hws].
    rewrite Hmem by left. rewrite negb_involutive.
    unfold well_shaped, unstack_items in *. cbn [fst snd] in *.
    rewrite set_all_app. destruct (contains_us key).
    + destruct Hkv as (cs & -> & Hlen).
      rewrite (unstack_inner_explicit cs 0) by (cbn; lia). cbn [rbind ok drop].
      apply IH; [|done]. intros k Hk. apply Hmem. by right.
    + cbn [rbind ok]. rewrite set_all_cons. apply IH; [|done].
      intros k Hk. apply Hmem. by right.
Qed.

Lemma make_all_inv (un : odict entry) acc made :
  foldM (fun acc '(key, val) => c <- make_coord val ;; ok (acc ++ [(key, c)])) un acc
    = ok made ->
  exists made', made = acc ++ made' /\ un = prod_map id One <$> made'.
Proof.
  revert acc. induction un as [|[key val] un IH]; intros acc; cbn [foldM].
  - intros [= <-]. exists []. by rewrite app_nil_r.
  - destruct (make_coord val) as [e|c] eqn:E; cbn [rbind ok]; [done|].
    intros (made' & -> & ->)%IH. exists ((key, c) :: made').
    rewrite <- app_assoc. split; [done|]. cbn [fmap list_fmap prod_map id]. do 2 f_equal.
    destruct val as [c'|[|? [|? ?]]]; cbn [make_coord] in E; try done. by injection E as ->.
Qed.

Lemma make_all_explicit (made : odict Coord) acc :
  foldM (fun acc '(key, val) => c <- make_coord val ;; ok (acc ++ [(key, c)]))
        (prod_map id One <$> made) acc
  = ok (acc ++ made).
Proof.
  revert acc. induction made as [|[key c] made IH]; intros acc; cbn [foldM fmap list_fmap].
  - by rewrite app_nil_r.
  - cbn [prod_map fst snd id make_coord rbind ok]. rewrite IH. by rewrite <- app_assoc.
Qed.

(** ** What [_coords_validate] establishes *)

Lemma _validate_dim_ok dim seen seen' :
  _validate_dim dim seen = ok seen' ->
  dim ∈ _valid_dims /\ (dim ∉ seen) /\ seen' = seen ++ [dim].
Proof.
  unfold _validate_dim. case_bool_decide as H1; cbn [negb]; [|done].
  case_bool_decide as H2; [done|]. by intros [= <-].
Qed.

Lemma _coords_validate_ok dm value value' :
  _coords_validate dm value = ok value' ->
  value' = value /\
  Forall (fun k => k ∈ _valid_dims) value.*1 /\
  exists stack, sizes_recorded dm stack value.
Proof.
  unfold _coords_validate.
  destruct (foldM _ value _) as [e|st] eqn:E; cbn [rbind ok]; [done|].
  intros [= <-]. split; [done|].
  enough (G : Forall (fun k => k ∈ _valid_dims) value.*1 /\
              exists stack, stack = stack_dims st /\ sizes_recorded dm stack value).
  { destruct G as (? & ? & -> & ?); eauto. }
  revert E.
  apply (foldM_inv _ (fun pre st =>
           Forall (fun k => k ∈ _valid_dims) pre.*1 /\
           exists stack, stack = stack_dims st /\ sizes_recorded dm stack pre)).
  { split; [by apply Forall_nil|]. eexists. split; [done|].
    intros k c d H. by apply elem_of_nil in H. }
  intros pre [key val] suf s0 s1 _ (Hvalid & stack & -> & Hrec).
  unfold _coords_validate_step.
  destruct (_validate_dim key (seen_dims s0)) as [e|seen] eqn:Ev; cbn [rbind ok]; [done|].
  apply _validate_dim_ok in Ev as (Hkey & _ & _).
  assert (Hvalid' : Forall (fun k => k ∈ _valid_dims) (pre ++ [(key, val)]).*1).
  { rewrite fmap_app. apply Forall_app. split; [done|]. by apply Forall_singleton. }
  case_bool_decide as Hst; cbn [negb].
  { (* not stacked: nothing is recorded *)
    intros [= <-]. split; [done|]. eexists. split; [done|]. cbn [stack_dims].
    intros k c d [Hin|Hin]%elem_of_app; [by apply Hrec|].
    apply list_elem_of_singleton in Hin as [= -> ->]. done. }
  unfold od_item. destruct (od_get key dm) as [d|] eqn:Ed; cbn [rbind ok raise]; [|done].
  destruct (stack_dims s0 !! d) as [expected|] eqn:Es.
  - destruct (size val) as [e|n] eqn:En; cbn [rbind ok]; [done|].
    destruct (Z.eqb n expected) eqn:Enn; cbn [negb]; [|done].
    apply Z.eqb_eq in Enn as ->.
    intros [= <-]. split; [done|]. eexists. split; [done|]. cbn [stack_dims].
    intros k c d' [Hin|Hin]%elem_of_app; [by apply Hrec|].
    apply list_elem_of_singleton in Hin as [= -> ->]. intros _ Hd.
    rewrite Ed in Hd. injection Hd as <-. eauto.
  - destruct (size val) as [e|n] eqn:En; cbn [rbind ok]; [done|].
    intros [= <-]. split; [done|]. eexists. split; [done|]. cbn [stack_dims].
    intros k c d' [Hin|Hin]%elem_of_app.
    + intros Hk Hd'. destruct (Hrec k c d' Hin Hk Hd') as (m & Hm & Hsz).
      exists m. split; [|done]. rewrite lookup_insert_ne; [done|]. by intros ->; rewrite Es in Hm.
    + apply list_elem_of_singleton in Hin as [= -> ->]. intros _ Hd.
      rewrite Ed in Hd. injection Hd as <-. exists n. by rewrite lookup_insert_eq.
Qed.

(** ** What the constructor establishes *)

Lemma Coordinate_init_ok coords kw A :
  Coordinate_init coords kw = ok A ->
  co_kwargs A = kw /\
  dims_map A = get_dims_map coords /\
  (_coords A).*1 = fold_left add_key (flat_map split_us coords.*1) [] /\
  (_coords A).*1 = (dims_map A).*1 /\
  NoDup (_coords A).*1 /\
  _coords_validate (dims_map A) (_coords A) = ok (_coords A).
Proof.
  unfold Coordinate_init.
  destruct (unstack_dict _ coords) as [e|un] eqn:Eun; cbn [rbind ok]; [done|].
  destruct (foldM _ un []) as [e|made] eqn:Emade; cbn [rbind ok]; [done|].
  destruct (_coords_validate _ made) as [e|validated] eqn:Ev; cbn [rbind ok]; [done|].
  intros [= <-]. cbn [co_kwargs dims_map _coords].
  apply _coords_validate_ok in Ev as Hv. destruct Hv as (-> & _ & _).
  apply make_all_inv in Emade as (made' & -> & ->). cbn [app] in *.
  apply unstack_dict_keys in Eun; [|apply od_mem_dims_map].
  rewrite <- list_fmap_compose in Eun.
  assert (Hk : made'.*1 = fold_left add_key (flat_map split_us coords.*1) []).
  { rewrite <- Eun. apply list_fmap_ext. by intros _ [k c] _. }
  split; [done|]. split; [done|]. split; [done|]. split; [|split; [|done]].
  - by rewrite Hk, get_dims_map_keys.
  - rewrite Hk. apply NoDup_fold_add_key, NoDup_nil_2.
Qed.

Lemma zip_fmap_r_pair {A B C} (f : B -> C) (l : list A) (k : list B) :
  zip l (f <$> k) = prod_map id f <$> zip l k.
Proof.
  revert k. induction l as [|a l IH]; intros [|b k]; cbn; [done..|]. by rewrite IH.
Qed.

Lemma unstack_items_coords kv :
  well_shaped kv -> unstack_items kv = prod_map id One <$> coords_of_item kv.
Proof.
  destruct kv as [key val]. unfold well_shaped, unstack_items, coords_of_item. cbn [fst snd].
  destruct (contains_us key).
  - intros (cs & -> & _). apply zip_fmap_r_pair.
  - by intros (c & ->).
Qed.

Lemma coords_of_item_keys kv :
  well_shaped kv -> (coords_of_item kv).*1 = split_us kv.1.
Proof.
  destruct kv as [key val]. unfold well_shaped, coords_of_item. cbn [fst snd].
  destruct (contains_us key) eqn:Hc.
  - intros (cs & -> & Hlen). apply fst_zip. lia.
  - intros (c & ->). by rewrite (split_us_plain _ Hc).
Qed.

Lemma flat_map_coords_keys (coords : odict entry) :
  Forall well_shaped coords ->
  (flat_map coords_of_item coords).*1 = flat_map split_us coords.*1.
Proof.
  induction 1 as [|kv coords Hkv _ IH]; cbn [flat_map fmap list_fmap]; [done|].
  rewrite fmap_app, IH. f_equal. by apply coords_of_item_keys.
Qed.

Lemma flat_map_fmap {A B C} (f : A -> list B) (g : B -> C) (l : list A) :
  g <$> flat_map f l = flat_map (fun x => g <$> f x) l.
Proof.
  induction l as [|x l IH]; cbn [flat_map]; [done|]. by rewrite fmap_app, IH.
Qed.

Lemma get_dims_map_fresh {V} (coords : odict V) :
  NoDup (flat_map split_us coords.*1) -> get_dims_map coords = dim_pairs coords.*1.
Proof.
  intros Hnd. rewrite get_dims_map_set_all. apply set_all_fresh. cbn [fmap list_fmap app].
  by rewrite dim_pairs_keys.
Qed.

(** On a well-shaped dictionary without a repeated dimension name, the
    constructor validates the coordinates in the order of the names. *)
Lemma Coordinate_init_explicit coords kw :
  NoDup (flat_map split_us coords.*1) ->
  Forall well_shaped coords ->
  get_dims_map coords = dim_pairs coords.*1 /\
  Coordinate_init coords kw =
    (validated <- _coords_validate (dim_pairs coords.*1) (flat_map coords_of_item coords) ;;
     ok {| co_kwargs := kw; _coords := validated; dims_map := dim_pairs coords.*1 |}).
Proof.
  intros Hnd Hws.
  pose proof (get_dims_map_fresh coords Hnd) as Hdm.
  split; [done|]. unfold Coordinate_init.
  rewrite unstack_dict_explicit; [|apply od_mem_dims_map|done]. cbn [rbind ok].
  assert (Hun : flat_map unstack_items coords
                = prod_map id One <$> flat_map coords_of_item coords).
  { rewrite flat_map_fmap. clear Hnd Hdm.
    induction Hws as [|kv coords Hkv _ IH]; cbn [flat_map]; [done|].
    by rewrite IH, unstack_items_coords. }
  rewrite set_all_fresh.
  2:{ cbn [fmap list_fmap app]. rewrite Hun, <- list_fmap_compose.
      rewrite <- flat_map_coords_keys in Hnd by done.
      erewrite list_fmap_ext; [exact Hnd|]. by intros _ [k c] _. }
  cbn [app]. rewrite Hun, make_all_explicit. cbn [app rbind ok]. by rewrite Hdm.
Qed.

Lemma _validate_dim_valid dim seen :
  dim ∈ _valid_dims -> dim ∉ seen -> _validate_dim dim seen = ok (seen ++ [dim]).
Proof.
  intros H1 H2. unfold _validate_dim.
  rewrite bool_decide_eq_true_2 by done. cbn [negb].
  by rewrite bool_decide_eq_false_2.
Qed.

Lemma _validate_dim_invalid dim seen :
  dim ∉ _valid_dims ->
  _validate_dim dim seen = raise (CoordinateException (invalid_dimension dim)).
Proof. intros H. unfold _validate_dim. by rewrite bool_decide_eq_false_2. Qed.

(** With valid, distinct names and defined sizes, the validation either
    passes or raises the size mismatch of a stacked dimension. *)
Lemma _coords_validate_cases dm (value : odict Coord) :
  NoDup value.*1 ->
  Forall (fun k => k ∈ _valid_dims) value.*1 ->
  (forall k, k ∈ value.*1 -> is_Some (od_get k dm)) ->
  (forall k c, (k, c) ∈ value -> exists n, size c = ok n) ->
  _coords_validate dm value = ok value \/
  exists n m k d,
    _coords_validate dm value = raise (CoordinateException (stacked_size_mismatch n m k d)).
Proof.
  intros Hnd Hvalid Hdm Hsize. unfold _coords_validate.
  enough (G : forall st, NoDup (seen_dims st ++ value.*1) ->
            (exists st', foldM (_coords_validate_step dm) value st = ok st') \/
            (exists n m k d, foldM (_coords_validate_step dm) value st
               = raise (CoordinateException (stacked_size_mismatch n m k d)))).
  { destruct (G {| seen_dims := []; stack_dims := ∅ |} Hnd)
      as [(st & ->)|(n & m & k & d & ->)]; [by left|].
    right. by exists n, m, k, d. }
  induction value as [|[key c] value IH]; intros st Hst; cbn [foldM].
  { left. eauto. }
  cbn [fmap list_fmap fst] in *.
  apply NoDup_cons in Hnd as [_ Hnd]. apply Forall_cons in Hvalid as [Hkey Hvalid].
  assert (Hseen : key ∉ seen_dims st).
  { apply NoDup_app in Hst as (_ & H & _). intros Hin. apply (H key Hin). left. }
  unfold _coords_validate_step at 1 3.
  rewrite _validate_dim_valid by done. cbn [rbind ok].
  destruct (Hsize key c ltac:(left)) as [n Hn].
  destruct (Hdm key ltac:(left)) as [d Hd].
  assert (Hnext : forall stack,
            NoDup (seen_dims {| seen_dims := seen_dims st ++ [key]; stack_dims := stack |}
                   ++ value.*1)).
  { intros stack. cbn [seen_dims]. by rewrite <- app_assoc. }
  assert (IH' := fun stack => IH Hnd Hvalid
            (fun k Hk => Hdm k (list_elem_of_further _ _ _ Hk))
            (fun k c Hk => Hsize k c (list_elem_of_further _ _ _ Hk))
            _ (Hnext stack)).
  case_bool_decide; cbn [negb rbind ok]; [apply IH'|].
  unfold od_item. rewrite Hd. cbn [rbind ok].
  destruct (stack_dims st !! d) as [expected|]; rewrite Hn; cbn [rbind ok]; [|apply IH'].
  destruct (Z.eqb n expected); cbn [negb rbind ok raise]; [apply IH'|].
  right. by exists n, expected, key, d.
Qed.

(** ** Stacked dimensions have one size *)

Lemma NoDup_dims_map_keys {V} (coords : odict V) : NoDup (get_dims_map coords).*1.
Proof. rewrite get_dims_map_keys. apply NoDup_fold_add_key, NoDup_nil_2. Qed.

(** Two names mapped to the same key are the same name, unless both are
    parts of a stacked key. *)
Lemma same_dim_cases {V} (coords : odict V) k1 k2 d :
  let dm := get_dims_map coords in
  k1 ∈ _valid_dims -> k2 ∈ _valid_dims ->
  od_get k1 dm = Some d -> od_get k2 dm = Some d ->
  k1 = k2 \/ ((k1 ∉ dm.*2) /\ (k2 ∉ dm.*2)).
Proof.
  intros dm Hv1 Hv2 H1 H2.
  assert (Hplain : forall k k', k ∈ _valid_dims -> k ∈ dm.*2 ->
                     od_get k dm = Some d -> od_get k' dm = Some d -> k' = k).
  { intros k k' Hv Hin Hk Hk'.
    apply list_elem_of_fmap in Hin as ([p c] & -> & Hpc). cbn [snd] in *.
    pose proof (valid_dim_plain _ Hv) as Hc.
    apply get_dims_map_elem in Hpc as Hp. destruct Hp as [_ Hp].
    rewrite (split_us_plain _ Hc) in Hp. apply list_elem_of_singleton in Hp as ->.
    apply elem_od_get in Hpc; [|apply NoDup_dims_map_keys].
    fold dm in Hpc. rewrite Hk in Hpc. injection Hpc as ->.
    apply od_get_Some_elem, get_dims_map_elem in Hk' as [_ Hk'].
    rewrite (split_us_plain _ Hc) in Hk'. by apply list_elem_of_singleton in Hk'. }
  destruct (decide (k1 ∈ dm.*2)) as [Hin1|Hn1].
  { left. symmetry. by apply (Hplain k1 k2). }
  destruct (decide (k2 ∈ dm.*2)) as [Hin2|Hn2].
  { left. by apply (Hplain k2 k1). }
  by right.
Qed.

Lemma stacked_sizes_equal coords kw A k1 k2 c1 c2 d :
  Coordinate_init coords kw = ok A ->
  od_get k1 (_coords A) = Some c1 -> od_get k2 (_coords A) = Some c2 ->
  od_get k1 (dims_map A) = Some d -> od_get k2 (dims_map A) = Some d ->
  size c1 = size c2.
Proof.
  intros (_ & Hdm & _ & _ & _ & Hv)%Coordinate_init_ok Hc1 Hc2 Hd1 Hd2.
  apply _coords_validate_ok in Hv as (_ & Hvalid & stack & Hrec).
  rewrite Forall_forall in Hvalid.
  apply od_get_Some_elem in Hc1 as Hin1. apply od_get_Some_elem in Hc2 as Hin2.
  assert (Hv1 : k1 ∈ _valid_dims).
  { apply Hvalid, list_elem_of_fmap. by exists (k1, c1). }
  assert (Hv2 : k2 ∈ _valid_dims).
  { apply Hvalid, list_elem_of_fmap. by exists (k2, c2). }
  rewrite Hdm in *.
  destruct (same_dim_cases coords k1 k2 d Hv1 Hv2 Hd1 Hd2) as [->|[Hs1 Hs2]].
  - rewrite Hc1 in Hc2. by injection Hc2 as ->.
  - destruct (Hrec k1 c1 d Hin1 Hs1 Hd1) as (n1 & Hn1 & ->).
    destruct (Hrec k2 c2 d Hin2 Hs2 Hd2) as (n2 & Hn2 & ->).
    rewrite Hn1 in Hn2. by injection Hn2 as ->.
Qed.

Lemma elem_of_flat_map {A B} (f : A -> list B) (l : list A) y :
  y ∈ flat_map f l <-> exists x, x ∈ l /\ y ∈ f x.
Proof.
  rewrite list_elem_of_In, in_flat_map. split; intros (x & Hx & Hy); exists x.
  - by rewrite !list_elem_of_In.
  - by rewrite <- !list_elem_of_In.
Qed.

Lemma elem_of_dim_pairs keys p c :
  (p, c) ∈ dim_pairs keys <-> c ∈ keys /\ p ∈ split_us c.
Proof.
  unfold dim_pairs. rewrite elem_of_flat_map. split.
  - intros (c' & Hc' & (p' & [= -> ->] & Hp)%list_elem_of_fmap). done.
  - intros [Hc Hp]. exists c. split; [done|]. apply list_elem_of_fmap. by exists p.
Qed.

(** The component [i] of a stacked key of a well-shaped dictionary, as the
    constructor stores it. *)
Lemma stacked_component coords key cs i ci :
  NoDup (flat_map split_us coords.*1) ->
  Forall well_shaped coords ->
  (key, Many cs) ∈ coords -> cs !! i = Some ci ->
  exists p, od_get p (flat_map coords_of_item coords) = Some ci /\
            od_get p (dim_pairs coords.*1) = Some key.
Proof.
  intros Hnd Hws Hin Hi.
  rewrite Forall_forall in Hws. pose proof (Hws _ Hin) as Hkey.
  unfold well_shaped in Hkey. cbn [fst snd] in Hkey.
  destruct (contains_us key); [|by destruct Hkey].
  destruct Hkey as (cs' & [= <-] & Hlen).
  destruct (lookup_lt_is_Some_2 (split_us key) i) as [p Hp].
  { rewrite <- Hlen. by apply lookup_lt_Some in Hi. }
  exists p. split.
  - apply elem_od_get.
    + by rewrite flat_map_coords_keys by by apply Forall_forall.
    + apply elem_of_flat_map. exists (key, Many cs). split; [done|].
      unfold coords_of_item. cbn [fst snd]. apply list_elem_of_lookup. exists i.
      apply lookup_zip_with_Some. eauto.
  - apply elem_od_get.
    + by rewrite dim_pairs_keys.
    + apply elem_of_dim_pairs. split.
      * apply list_elem_of_fmap. by exists (key, Many cs).
      * by apply list_elem_of_lookup_2 in Hp.
Qed.

(** Among distinct names the sizes under a stacked key are compared: a
    well-shaped dictionary of valid, distinct dimension names in which two
    coordinates of one stacked key differ in size is rejected with the
    size-mismatch exception. *)
Lemma stacked_size_mismatch_raises coords kw key cs i j ci cj ni nj :
  NoDup (flat_map split_us coords.*1) ->
  Forall (fun k => k ∈ _valid_dims) (flat_map split_us coords.*1) ->
  Forall well_shaped coords ->
  (forall k c, (k, c) ∈ flat_map coords_of_item coords -> exists n, size c = ok n) ->
  (key, Many cs) ∈ coords -> cs !! i = Some ci -> cs !! j = Some cj ->
  size ci = ok ni -> size cj = ok nj -> ni <> nj ->
  exists n m k d,
    Coordinate_init coords kw
    = raise (CoordinateException (stacked_size_mismatch n m k d)).
Proof.
  intros Hnd Hvalid Hws Hsize Hin Hi Hj Hni Hnj Hne.
  destruct (Coordinate_init_explicit coords kw Hnd Hws) as [Hdm Hinit].
  pose proof (flat_map_coords_keys coords Hws) as Hkeys.
  destruct (_coords_validate_cases (dim_pairs coords.*1) (flat_map coords_of_item coords))
    as [Hok|(n & m & k & d & Hraise)].
  + by rewrite Hkeys.
  + by rewrite Hkeys.
  + intros k Hk. apply od_get_is_Some. by rewrite dim_pairs_keys, <- Hkeys.
  + done.
  + (* the validation cannot pass *)
    exfalso. rewrite Hok in Hinit. cbn [rbind ok] in Hinit.
    destruct (stacked_component coords key cs i ci Hnd Hws Hin Hi) as (p & Hp1 & Hp2).
    destruct (stacked_component coords key cs j cj Hnd Hws Hin Hj) as (q & Hq1 & Hq2).
    pose proof (stacked_sizes_equal _ _ _ p q ci cj key Hinit Hp1 Hq1 Hp2 Hq2) as E.
    rewrite Hni, Hnj in E. by injection E.
  + exists n, m, k, d. rewrite Hinit, Hraise. done.
Qed.

(** C6: a repeated dimension name hides a size mismatch. The key lat_lon
    with 3 and 4 values alone is rejected with the size-mismatch
    exception. With the further key lat the same two coordinates are
    accepted: the name lat is not reported as repeated, the coordinate of
    the plain key takes the place of the 3 values, and lat_lon is left
    with the 4 values of lon, so that no sizes are compared. *)
Theorem C6_repeated_name_hides_size_mismatch :
  Coordinate_init [("lat_lon"%string, Many [grid [0; 1; 2]; grid [10; 20; 30; 40]])]
                  default_Coordinate_kwargs
  = raise (CoordinateException (stacked_size_mismatch 4 3 "lon" "lat_lon")) /\
  exists A,
    Coordinate_init [("lat_lon"%string, Many [grid [0; 1; 2]; grid [10; 20; 30; 40]]);
                     ("lat"%string, One (grid [5; 6; 7; 8; 9]))]
                    default_Coordinate_kwargs = ok A /\
    dims_map A = [("lat", "lat"); ("lon", "lat_lon")]%string /\
    _coords A = [("lat"%string, grid [5; 6; 7; 8; 9]); ("lon"%string, grid [10; 20; 30; 40])] /\
    dims A = ["lat"; "lat_lon"]%string.
Proof. split; [by vm_compute|]. eexists. by vm_compute. Qed.

(** ** The shape *)

Lemma dims_fold (A : Coordinate) : dims A = fold_left add_key (dims_map A).*2 [].
Proof. reflexivity. Qed.




(** ** Dimension names *)

(** C9: the constructor accepts only the dimension names time, lat, lon
    and alt, alone or as the parts of a stacked key. Whenever it returns,
    every stored name and every part of every key of the dictionary is one
    of the four; a dictionary with another name is rejected; the
    validation raises the invalid-dimension exception at the first such
    name that it reaches (after the names before it have passed); so for
    every plain name outside the four, and for the stacked key lat_foo. *)
Theorem C9_only_valid_dimension_names :
  (forall coords kw A,
     Coordinate_init coords kw = ok A ->
     Forall (fun k => k ∈ _valid_dims) (_coords A).*1 /\
     Forall (fun k => k ∈ _valid_dims) (flat_map split_us coords.*1)) /\
  (forall coords kw p,
     p ∈ flat_map split_us coords.*1 -> p ∉ _valid_dims ->
     exists e, Coordinate_init coords kw = raise e) /\
  (forall dm pre d c post,
     d ∉ _valid_dims -> _coords_validate dm pre = ok pre ->
     _coords_validate dm (pre ++ (d, c) :: post)
     = raise (CoordinateException (invalid_dimension d))) /\
  (forall name c kw,
     contains_us name = false -> name ∉ _valid_dims ->
     Coordinate_init [(name, One c)] kw
     = raise (CoordinateException (invalid_dimension name))) /\
  (forall c1 c2 n kw,
     size c1 = ok n ->
     Coordinate_init [("lat_foo"%string, Many [c1; c2])] kw
     = raise (CoordinateException (invalid_dimension "foo"))).
Proof.
  assert (H1 : forall coords kw A,
     Coordinate_init coords kw = ok A ->
     Forall (fun k => k ∈ _valid_dims) (_coords A).*1 /\
     Forall (fun k => k ∈ _valid_dims) (flat_map split_us coords.*1)).
  { intros coords kw A (_ & _ & Hkeys & _ & _ & Hv)%Coordinate_init_ok.
    apply _coords_validate_ok in Hv as (_ & Hvalid & _). split; [done|].
    rewrite Forall_forall in *. intros p Hp. apply Hvalid.
    rewrite Hkeys. apply elem_of_fold_add_key. by right. }
  split; [done|]. split; [|split; [|split]].
  - intros coords kw p Hp Hinvalid.
    destruct (Coordinate_init coords kw) as [e|A] eqn:E; [by exists e|].
    apply H1 in E as [_ Hvalid]. rewrite Forall_forall in Hvalid.
    by specialize (Hvalid p Hp).
  - intros dm pre d c post Hd. unfold _coords_validate. rewrite foldM_app.
    destruct (foldM _ pre _) as [e|st]; cbn [rbind ok]; [done|]. intros _.
    cbn [foldM]. unfold _coords_validate_step at 1. by rewrite _validate_dim_invalid.
  - intros name c kw Hplain Hinvalid.
    destruct (Coordinate_init_explicit [(name, One c)] kw) as [_ ->].
    + cbn [fmap list_fmap fst flat_map]. rewrite (split_us_plain _ Hplain).
      apply NoDup_singleton.
    + apply Forall_singleton. unfold well_shaped. cbn [fst snd]. rewrite Hplain. by exists c.
    + cbn [flat_map coords_of_item fst snd app]. unfold _coords_validate.
      cbn [foldM]. unfold _coords_validate_step. cbn [seen_dims].
      by rewrite _validate_dim_invalid.
  - intros c1 c2 n kw Hn.
    destruct (Coordinate_init_explicit [("lat_foo"%string, Many [c1; c2])] kw) as [_ ->].
    + refine (bool_decide_unpack _ _). by vm_compute.
    + apply Forall_singleton. exists [c1; c2]. done.
    + unfold _coords_validate. cbn. rewrite Hn. done.
Qed.

(** C9 on a dictionary with the name depth. *)
Lemma C9_witness :
  exists e,
    Coordinate_init [("lat"%string, One (grid [1; 2; 3])); ("depth"%string, One (grid [1; 2]))]
                    default_Coordinate_kwargs
    = raise e.
Proof.
  apply (proj1 (proj2 C9_only_valid_dimension_names) _ _ "depth"%string).
  - refine (bool_decide_unpack _ _). by vm_compute.
  - refine (bool_decide_unpack _ _). by vm_compute.
Defined.

(** ** Intersection of [Coordinate] objects *)

Lemma elem_of_np_where mask (o i : Z) :
  i ∈ np_where mask o <-> exists k : nat, i = (o + Z.of_nat k)%Z /\ mask !! k = Some true.
Proof.
  revert o. induction mask as [|m mask IH]; intros o; cbn [np_where].
  - split; [by intros ?%elem_of_nil | by intros (k & _ & ?)].
  - assert (Hrest : i ∈ np_where mask (o + 1) <->
                    exists k : nat, i = (o + Z.of_nat (S k))%Z /\ mask !! k = Some true).
    { rewrite IH. split; intros (k & -> & Hk); exists k; split; [lia|done|lia|done]. }
    destruct m.
    + rewrite elem_of_cons, Hrest. split.
      * intros [->|(k & -> & Hk)]; [exists 0%nat | exists (S k)]; split; [lia|done..].
      * intros ([|k] & -> & Hk); [left; lia | right; by exists k].
    + rewrite Hrest. split.
      * intros (k & -> & Hk). by exists (S k).
      * intros ([|k] & -> & Hk); [done | by exists k].
Qed.

Lemma foldr_Z_min_le d l x : x ∈ l -> (foldr Z.min d l <= x)%Z.
Proof.
  induction l as [|a l IH]; [by intros ?%elem_of_nil|].
  intros [->|Hx]%elem_of_cons; cbn [foldr]; [lia|]. specialize (IH Hx). lia.
Qed.

Lemma foldr_Z_max_ge d l x : x ∈ l -> (x <= foldr Z.max d l)%Z.
Proof.
  induction l as [|a l IH]; [by intros ?%elem_of_nil|].
  intros [->|Hx]%elem_of_cons; cbn [foldr]; [lia|]. specialize (IH Hx). lia.
Qed.










Lemma stack_dict_group crds c (ps : list string) (done : list Coord) acc :
  c ∉ acc.*1 -> done <> [] ->
  (forall p, p ∈ ps -> is_Some (od_get p crds)) ->
  foldM (stack_dict_step crds) (map (fun p => (p, c)) ps) (acc ++ [(c, entry_of done)])
  = ok (acc ++ [(c, entry_of (done ++ map (od_get_d crds) ps))]).
Proof.
  intros Hc. revert done. induction ps as [|p ps IH]; intros done Hdone Hps; cbn [map foldM].
  - by rewrite app_nil_r.
  - unfold stack_dict_step at 1. rewrite od_get_app_r by done. cbn [od_get].
    rewrite decide_True by done.
    destruct (Hps p ltac:(left)) as [x Hx]. unfold od_item. rewrite Hx. cbn [rbind ok].
    assert (Hset : forall e e', od_set c e' (acc ++ [(c, e)]) = acc ++ [(c, e')]).
    { intros e e'. clear -Hc. induction acc as [|[k v] acc IHa]; cbn [od_set app].
      - by rewrite decide_True.
      - cbn [fmap list_fmap fst] in Hc. apply not_elem_of_cons in Hc as [Hne Hc].
        rewrite decide_False by done. by rewrite IHa. }
    rewrite Hset.
    assert (Htemp : match entry_of done with One c0 => [c0] | Many cs => cs end = done).
    { by destruct done as [|? [|? ?]]. }
    rewrite Htemp.
    assert (Hentry : Many (done ++ [x]) = entry_of (done ++ [x])).
    { by destruct done as [|? [|? ?]]. }
    rewrite Hentry, IH.
    + rewrite <- app_assoc. cbn [app map]. unfold od_get_d at 2. by rewrite Hx.
    + by destruct done.
    + intros q Hq. apply Hps. by right.
Qed.

Lemma stack_dict_explicit crds (keys : list string) acc :
  NoDup (acc.*1 ++ keys) ->
  (forall p, p ∈ flat_map split_us keys -> is_Some (od_get p crds)) ->
  foldM (stack_dict_step crds) (dim_pairs keys) acc
  = ok (acc ++ map (fun c => (c, entry_of (map (od_get_d crds) (split_us c)))) keys).
Proof.
  revert acc. induction keys as [|c keys IH]; intros acc Hnd Hps; cbn [dim_pairs flat_map map].
  - by rewrite app_nil_r.
  - fold (dim_pairs keys). rewrite foldM_app.
    assert (Hc : c ∉ acc.*1).
    { apply NoDup_app in Hnd as (_ & Hnd & _). intros Hin. apply (Hnd c Hin). left. }
    pose proof (split_us_nonempty c) as Hne.
    destruct (split_us c) as [|p ps] eqn:Esplit; [done|]. cbn [map foldM].
    unfold stack_dict_step at 1.
    rewrite (proj2 (od_get_None c acc)) by done.
    destruct (Hps p) as [x Hx].
    { apply elem_of_app. left. rewrite Esplit. left. }
    unfold od_item. rewrite Hx. cbn [rbind ok]. rewrite od_set_fresh by done.
    change (One x) with (entry_of [x]).
    rewrite stack_dict_group; [|done|done|].
    2:{ intros q Hq. apply Hps. apply elem_of_app. left. rewrite Esplit. by right. }
    cbn [rbind ok]. rewrite IH.
    + rewrite <- app_assoc. cbn [app]. unfold od_get_d at 3. by rewrite Hx.
    + rewrite fmap_app. cbn [fmap list_fmap fst]. by rewrite <- app_assoc.
    + intros q Hq. apply Hps. apply elem_of_app. by right.
Qed.

Lemma restacked_keys crds keys : (restacked crds keys).*1 = keys.
Proof.
  unfold restacked. rewrite <- list_fmap_compose. apply list_fmap_id.
Qed.

Lemma restacked_well_shaped crds keys : Forall well_shaped (restacked crds keys).
Proof.
  unfold restacked. apply Forall_fmap, Forall_forall. intros c _.
  unfold compose, well_shaped. cbn [fst snd]. destruct (contains_us c) eqn:Hc.
  - pose proof (split_us_compound c Hc) as Hlen.
    destruct (split_us c) as [|p [|q ps]]; cbn [length] in Hlen; [lia..|].
    eexists. split; [done|]. by rewrite length_map.
  - rewrite (split_us_plain c Hc). by eexists.
Qed.

Lemma zip_map_self {A B} (g : A -> B) (l : list A) :
  zip l (map g l) = map (fun p => (p, g p)) l.
Proof. induction l as [|x l IH]; cbn; [done|]. by rewrite IH. Qed.

Lemma restacked_coords crds keys :
  flat_map coords_of_item (restacked crds keys)
  = map (fun p => (p, od_get_d crds p)) (flat_map split_us keys).
Proof.
  induction keys as [|c keys IH]; cbn [restacked map flat_map]; [done|].
  fold (restacked crds keys). rewrite IH, map_app. f_equal.
  unfold coords_of_item. cbn [fst snd]. destruct (contains_us c) eqn:Hc.
  - pose proof (split_us_compound c Hc) as Hlen.
    destruct (split_us c) as [|p [|q ps]]; cbn [length] in Hlen; [lia..|].
    cbn [entry_of map]. apply (zip_map_self (od_get_d crds) (p :: q :: ps)).
  - by rewrite (split_us_plain c Hc).
Qed.

Lemma od_get_d_all (crds : odict Coord) :
  NoDup crds.*1 -> map (fun p => (p, od_get_d crds p)) crds.*1 = crds.
Proof.
  intros Hnd. rewrite <- (list_fmap_compose fst). rewrite <- (list_fmap_id crds) at 2.
  apply list_fmap_ext. intros _ [k c] Hin%list_elem_of_lookup_2. cbn.
  unfold od_get_d. by rewrite (elem_od_get _ _ _ Hnd Hin).
Qed.

(** After the loop over the dimensions, [Coordinate.intersect] amounts to
    validating the new coordinates against the old dimension map. *)
Lemma restack_and_init (keys : list string) (new_crds : odict Coord) kw :
  NoDup (flat_map split_us keys) ->
  new_crds.*1 = flat_map split_us keys ->
  (stacked_coords <- stack_dict new_crds (dim_pairs keys) ;;
   Coordinate_init stacked_coords kw)
  = (validated <- _coords_validate (dim_pairs keys) new_crds ;;
     ok {| co_kwargs := kw; _coords := validated; dims_map := dim_pairs keys |}).
Proof.
  intros Hnd Hkeys.
  assert (Hk : NoDup keys).
  { clear -Hnd. induction keys as [|c keys IH]; [apply NoDup_nil_2|].
    cbn [flat_map] in Hnd. apply NoDup_app in Hnd as (_ & Hdisj & Hnd).
    apply NoDup_cons. split; [|by apply IH]. intros Hin.
    pose proof (split_us_nonempty c) as Hne.
    destruct (split_us c) as [|p ps] eqn:E; [done|].
    apply (Hdisj p); [left|]. apply elem_of_flat_map_split. exists c. rewrite E.
    split; [done | left]. }
  unfold stack_dict. rewrite (stack_dict_explicit new_crds keys []); [|done|].
  2:{ intros p Hp. apply od_get_is_Some. by rewrite Hkeys. }
  cbn [app rbind ok]. fold (restacked new_crds keys).
  destruct (Coordinate_init_explicit (restacked new_crds keys) kw) as [_ ->].
  - by rewrite restacked_keys.
  - apply restacked_well_shaped.
  - rewrite restacked_keys, restacked_coords, <- Hkeys, od_get_d_all; [done|].
    by rewrite Hkeys.
Qed.


(** Valid, distinct names that are all keys of their own pass the
    validation: no stacked dimension, no size to compare. *)
Lemma _coords_validate_plain dm (value : odict Coord) :
  NoDup value.*1 ->
  Forall (fun k => k ∈ _valid_dims) value.*1 ->
  (forall k, k ∈ value.*1 -> k ∈ dm.*2) ->
  _coords_validate dm value = ok value.
Proof.
  intros Hnd Hvalid Hplain. unfold _coords_validate.
  enough (G : forall st, NoDup (seen_dims st ++ value.*1) ->
            exists st', foldM (_coords_validate_step dm) value st = ok st').
  { by destruct (G {| seen_dims := []; stack_dims := ∅ |} Hnd) as [st ->]. }
  induction value as [|[key c] value IH]; intros st Hst; cbn [foldM]; [by eexists|].
  cbn [fmap list_fmap fst] in *.
  apply NoDup_cons in Hnd as [_ Hnd]. apply Forall_cons in Hvalid as [Hkey Hvalid].
  assert (Hseen : key ∉ seen_dims st).
  { apply NoDup_app in Hst as (_ & H & _). intros Hin. apply (H key Hin). left. }
  unfold _coords_validate_step at 1.
  rewrite _validate_dim_valid by done. cbn [rbind ok].
  rewrite bool_decide_eq_true_2 by (apply Hplain; left). cbn [negb rbind ok].
  apply IH; [done | done | |].
  - intros k Hk. apply Hplain. by right.
  - cbn [seen_dims]. by rewrite <- app_assoc.
Qed.




(** One object under two names of [B]. The uniform coordinate of lat
    clips the bounds that the object keeps to [45, 70]; they are then
    disjoint from those of lon, and the call raises as for disjoint
    bounds. With two objects of the same traits it returns. *)
Example one_object_under_two_names :
  let a := [("lat"%string, uniform 20 70 10); ("lon"%string, uniform 80 200 10)] in
  let b := [("lat"%string, uniform 45 100 5); ("lon"%string, uniform 45 100 5)] in
  let dm := [("lat", "lat"); ("lon", "lon")]%string in
  let A := {| co_kwargs := default_Coordinate_kwargs; _coords := a; dims_map := dm |} in
  let B := {| co_kwargs := default_Coordinate_kwargs; _coords := b; dims_map := dm |} in
  Coordinate_init (prod_map id One <$> a) default_Coordinate_kwargs = ok A /\
  Coordinate_init (prod_map id One <$> b) default_Coordinate_kwargs = ok B /\
  fst (Coordinate_intersect A B (own_cell false) (fun _ => 1%positive) 1 ∅)
  = raise (CoordinateException uniform_requires_num_or_step) /\
  fst (Coordinate_intersect A B (own_cell false) (own_cell true) 1 ∅)
  = ok {| co_kwargs := default_Coordinate_kwargs;
          _coords := [("lat"%string, uniform 30 70 10); ("lon"%string, uniform 80 110 10)];
          dims_map := dm |}.
Proof. by vm_compute. Qed.

(** * Further properties *)

(** ** The factory [make_coord] *)



(** ** Selection on a [GridCoord] *)

(** The tolerance of a [GridCoord] is never negative. *)
Lemma delta_GridCoord_nonneg kw coords :
  exists d, delta (GridCoord kw coords) = ok d /\ 0 <= d.
Proof.
  eexists. split; [reflexivity|]. cbn [is_max_to_min].
  set (n := inject_Z (Z.of_nat (length coords))).
  assert (Hn : 0 <= / n) by apply Qinv_le_0_compat, inject_Z_nat_nonneg.
  unfold Qdiv.
  destruct (Qltb (List.last coords 0) (hd 0 coords)) eqn:E.
  - apply Qltb_true in E. clearbody n. nra.
  - apply Qltb_false in E. clearbody n. nra.
Qed.

(** An element at an index inside a slice with non-negative ends belongs
    to the slice. *)
Lemma py_slice_elem {A} (l : list A) (i j : Z) (k : nat) x :
  (0 <= i <= Z.of_nat k)%Z -> (Z.of_nat k < j)%Z -> l !! k = Some x ->
  x ∈ py_slice l i j.
Proof.
  intros Hi Hj Hk. pose proof (lookup_lt_Some _ _ _ Hk) as Hlen.
  unfold py_slice, slice_clip.
  destruct (Z.ltb_spec i 0); [lia|]. destruct (Z.ltb_spec j 0); [lia|].
  apply list_elem_of_lookup.
  exists (k - Z.to_nat (Z.min i (Z.of_nat (length l))))%nat.
  rewrite lookup_take_lt by lia. rewrite lookup_drop. rewrite <- Hk. f_equal. lia.
Qed.

Lemma select_GridCoord kw coords lo hi pad ind :
  select (GridCoord kw coords) lo hi pad ind
  = grid_answer (GridCoord kw coords) coords lo hi pad ind.
Proof.
  unfold select. cbn [intersect_bounds].
  by rewrite (GridCoord_intersect_bounds_run _ _ _ _ lo hi []) by apply lookup_singleton_eq.
Qed.

(** X2: when some value of a [GridCoord] lies within the bounds and the
    padding is not negative, the index answer is a non-empty range
    [[i, j]] inside the array, the object answer is what the constructor
    makes of the slice [coords[i:j]], and that slice holds every value of
    the coordinate that lies within the bounds. *)
Theorem GridCoord_select_covers kw coords lo hi pad v0 :
  (0 <= pad)%Z -> v0 ∈ coords -> lo <= v0 <= hi ->
  exists i j,
    (0 <= i < j)%Z /\ (j <= Z.of_nat (length coords))%Z /\
    select (GridCoord kw coords) lo hi pad true = ok (Ind i j) /\
    select (GridCoord kw coords) lo hi pad false
      = (o <- GridCoord_init kw (py_slice coords i j) ;; ok (Obj o)) /\
    forall v, v ∈ coords -> lo <= v <= hi -> v ∈ py_slice coords i j.
Proof.
  intros Hpad Hv0 Hr0.
  destruct (delta_GridCoord_nonneg kw coords) as (d & Hd & Hd0).
  set (mask := zip_with andb (map (fun x => Qle_bool (lo - d) x) coords)
                             (map (fun x => Qle_bool x (hi + d)) coords)).
  set (inds := np_where mask 0).
  assert (Hin : forall v, v ∈ coords -> lo <= v <= hi ->
                  exists k : nat, coords !! k = Some v /\ Z.of_nat k ∈ inds).
  { intros v Hv Hr. apply list_elem_of_lookup in Hv as [k Hk]. exists k. split; [done|].
    apply elem_of_np_where. exists k. split; [lia|].
    unfold mask. rewrite lookup_zip_with, !list_lookup_fmap, Hk. cbn.
    f_equal. apply andb_true_iff. split; apply Qle_bool_iff; lra. }
  assert (Hbound : forall i, i ∈ inds -> (0 <= i < Z.of_nat (length coords))%Z).
  { intros i (k & -> & Hk)%elem_of_np_where. apply lookup_lt_Some in Hk.
    unfold mask in Hk. rewrite length_zip_with, !length_map in Hk. lia. }
  set (i := Z.max 0 (list_min inds - pad)).
  set (j := Z.min (list_max inds + pad + 1) (Z.of_nat (length coords))).
  assert (Hij : forall k, k ∈ inds -> (i <= k < j)%Z).
  { intros k Hk. pose proof (Hbound k Hk).
    pose proof (foldr_Z_min_le (hd 0%Z inds) inds k Hk).
    pose proof (foldr_Z_max_ge (hd 0%Z inds) inds k Hk).
    unfold i, j, list_min, list_max. lia. }
  destruct (Hin v0 Hv0 Hr0) as (k0 & Hk0 & Hk0i).
  assert (Hans : forall ind, select (GridCoord kw coords) lo hi pad ind
            = if ind then ok (Ind i j)
              else (o <- GridCoord_init kw (py_slice coords i j) ;; ok (Obj o))).
  { intros ind. rewrite select_GridCoord. unfold grid_answer, grid_answer_with.
    cbn [bounds rbind ok]. rewrite Hd.
    cbn [rbind ok size kwargs]. fold mask. fold inds. fold i. fold j.
    destruct inds as [|i0 inds'] eqn:E; [by apply elem_of_nil in Hk0i|].
    by destruct ind. }
  exists i, j. pose proof (Hij _ Hk0i). pose proof (Hbound _ Hk0i).
  split; [unfold i in *; lia|]. split; [unfold j; lia|].
  split; [apply (Hans true)|]. split; [apply (Hans false)|].
  intros v Hv Hr. destruct (Hin v Hv Hr) as (k & Hk & Hki).
  pose proof (Hij _ Hki). apply (py_slice_elem _ _ _ k); [unfold i in *; lia|lia|done].
Qed.

Lemma GridCoord_select_covers_witness :
  exists i j,
    select (grid [1; 2; 3; 4; 5]) 2 3 0 true = ok (Ind i j) /\
    forall v, v ∈ [1; 2; 3; 4; 5] -> 2 <= v <= 3 -> v ∈ py_slice [1; 2; 3; 4; 5] i j.
Proof.
  destruct (GridCoord_select_covers default_kwargs [1; 2; 3; 4; 5] 2 3 0 2)
    as (i & j & _ & _ & H1 & _ & H2).
  - lia.
  - apply list_elem_of_further, list_elem_of_here.
  - split; [apply Qle_refl | discriminate].
  - by exists i, j.
Defined.

(** ** Selection on a descending [UniformGridCoord] *)

(** X3: on a descending uniform coordinate (start above stop, negative
    step) with a padding that is not negative, the object answer of
    [intersect_bounds] is the coordinate itself, whatever the bounds:
    both index offsets come out as 0. *)
Theorem uniform_descending_select_is_identity kw start stop s lo hi pad :
  stop < start -> s < 0 -> (0 <= pad)%Z ->
  select (UniformGridCoord kw start stop None (Some s)) lo hi pad false
  = ok (Obj (UniformGridCoord kw start stop None (Some s))).
Proof.
  intros Hdesc Hs Hpad.
  assert (Hs0 : ~ s == 0) by lra.
  assert (Hdir : Qltb stop start = true) by by apply Qltb_true.
  rewrite select_uniform. cbn zeta. rewrite Hdir.
  unfold uniform_answer_with. cbn [is_max_to_min delta kwargs].
  rewrite Hdir. cbn [fst snd rbind ok].
  rewrite !py_div_ok by done. cbn [rbind ok].
  set (b0 := py_max stop lo). set (b1 := py_min start hi).
  assert (H0 : (Z.max 0 (Qfloor ((b0 - stop) / s) - pad) = 0)%Z).
  { assert (Hb0 : stop <= b0)
      by (unfold b0; destruct (py_max_spec stop lo) as [[? ->]|[? ->]]; lra).
    pose proof (Qdiv_mul_cancel (b0 - stop) s Hs0) as Hq.
    assert (Hle : (b0 - stop) / s <= inject_Z 0).
    { change (inject_Z 0) with 0. set (q := (b0 - stop) / s) in *.
      clearbody q b0. clear - Hq Hs Hb0. nra. }
    apply Qfloor_le_Z in Hle. lia. }
  assert (H1 : (Z.max 0 (Qceiling ((start - b1) / s) - pad) = 0)%Z).
  { assert (Hb1 : b1 <= start)
      by (unfold b1; destruct (py_min_spec start hi) as [[? ->]|[? ->]]; lra).
    pose proof (Qdiv_mul_cancel (start - b1) s Hs0) as Hq.
    assert (Hle : (start - b1) / s <= 0).
    { set (q := (start - b1) / s) in *. clearbody q b1. clear - Hq Hs Hb1. nra. }
    apply Qceiling_nonpos in Hle. lia. }
  rewrite H0, H1. change (inject_Z 0) with 0.
  assert (Hmax : py_max stop (stop + 0 * s) = stop).
  { unfold py_max. assert (E : Qltb stop (stop + 0 * s) = false) by (apply Qltb_false; lra).
    by rewrite E. }
  assert (Hmin : py_min start (start - 0 * s) = start).
  { unfold py_min. assert (E : Qltb (start - 0 * s) start = false) by (apply Qltb_false; lra).
    by rewrite E. }
  by rewrite Hmax, Hmin.
Qed.

Lemma uniform_descending_select_is_identity_witness :
  select (uniform 50 0 (-10)) 20 30 0 false = ok (Obj (uniform 50 0 (-10))).
Proof.
  apply (uniform_descending_select_is_identity default_kwargs 50 0 (-10) 20 30 0);
    [reflexivity | reflexivity | lia].
Defined.

(** ** The bounds argument of the other classes *)

(** X4: [intersect_bounds] of a [SingleCoord] and of a [GridCoord] never
    writes into the list it is given, whether it returns or raises: only
    the uniform class clips its argument in place. *)
Theorem non_uniform_intersect_bounds_keeps_argument c (σ : store) bnd pad ind :
  (forall kw start stop num step, c <> UniformGridCoord kw start stop num step) ->
  snd (intersect_bounds c bnd pad ind σ) = σ.
Proof.
  intros Hc. destruct c as [kw x|kw coords|kw start stop num step].
  - cbn. by destruct ind.
  - cbn [intersect_bounds]. unfold GridCoord_intersect_bounds. cbn [bounds].
    erewrite mbind_run; [|reflexivity].
    destruct (σ !! bnd) as [[|lo [|hi rest]]|] eqn:E.
    + unfold GridCoord_intersect_bounds_with, mbind, load. by rewrite E.
    + unfold GridCoord_intersect_bounds_with, mbind, load, lift. rewrite E. cbn.
      by rewrite E.
    + by rewrite (GridCoord_intersect_bounds_with_run _ _ _ _ _ lo hi rest).
    + unfold GridCoord_intersect_bounds_with, mbind, load. by rewrite E.
  - by destruct (Hc kw start stop num step).
Qed.

Lemma non_uniform_intersect_bounds_keeps_argument_witness :
  snd (intersect_bounds (grid [1; 2; 3; 4; 5]) 1%positive 1 false (fresh_bounds 2 3))
  = fresh_bounds 2 3.
Proof.
  apply (non_uniform_intersect_bounds_keeps_argument (grid [1; 2; 3; 4; 5])).
  intros kw start stop num step. discriminate.
Defined.

(** ** Adding two one-dimensional coordinates *)

Lemma arr_min_ok l : l <> [] -> arr_min l = ok (np_min l).
Proof. by destruct l. Qed.

Lemma arr_max_ok l : l <> [] -> arr_max l = ok (np_max l).
Proof. by destruct l. Qed.

Lemma GridCoord_init_app kw (l1 l2 : list Q) :
  l1 <> [] -> l2 <> [] -> GridCoord_init kw (l1 ++ l2) = ok (GridCoord kw (l1 ++ l2)).
Proof.
  intros H1 H2. destruct l1 as [|x [|y l1]]; [done| |done].
  by destruct l2.
Qed.

Lemma np_min_le_max l : l <> [] -> np_min l <= np_max l.
Proof.
  intros Hl. destruct (np_min_max_spec l Hl) as ((x & Hx & Hxe) & _ & H).
  destruct (H x Hx). lra.
Qed.

(** X5: the sum of two coordinates that both have values is a
    [GridCoord] with the traits of the left operand, whose values are
    those of the two operands put together: nothing is dropped and nothing
    is merged, so its size is the sum of the two sizes. *)
Theorem Coord_add_keeps_all_values a b la lb :
  coordinates a = ok la -> coordinates b = ok lb -> la <> [] -> lb <> [] ->
  exists l warned,
    Coord_add a b = ok (GridCoord (kwargs a) l, warned) /\
    l ≡ₚ la ++ lb /\
    size (GridCoord (kwargs a) l) = ok (Z.of_nat (length la + length lb)).
Proof.
  intros Ha Hb Hla Hlb. unfold Coord_add. rewrite Ha, Hb. cbn [rbind ok].
  set (lb' := if negb _ then rev lb else lb).
  assert (Hlb' : lb' <> []).
  { unfold lb'. destruct (negb _); [|done]. intros E. apply (f_equal length) in E.
    rewrite length_rev in E. by destruct lb. }
  assert (Hp : lb' ≡ₚ lb) by (unfold lb'; destruct (negb _); [symmetry; apply Permutation_rev|done]).
  rewrite !arr_min_ok, !arr_max_ok by done. cbn [rbind ok].
  assert (Hsz : forall l, l ≡ₚ la ++ lb ->
            size (GridCoord (kwargs a) l) = ok (Z.of_nat (length la + length lb))).
  { intros l Hl. cbn. by rewrite Hl, length_app. }
  destruct (is_max_to_min a), (Qltb (np_max lb') (np_min la)); cbn [rbind ok];
    try destruct (Qltb (np_max la) (np_min lb')); cbn [rbind ok fst snd];
    rewrite GridCoord_init_app by done; cbn [rbind ok];
    eexists _, _; (split; [reflexivity|]);
    (assert (Hperm : forall l, l = la ++ lb' \/ l = lb' ++ la -> l ≡ₚ la ++ lb)
       by (intros l [->| ->]; rewrite Hp; [done | apply Permutation_app_comm]));
    (split; [apply Hperm | apply Hsz, Hperm]); auto.
Qed.

Lemma Coord_add_keeps_all_values_witness :
  exists l warned,
    Coord_add (grid [1; 2; 3]) (uniform 10 20 5) = ok (GridCoord default_kwargs l, warned) /\
    l ≡ₚ [1; 2; 3] ++ [10; 15; 20].
Proof.
  destruct (Coord_add_keeps_all_values (grid [1; 2; 3]) (uniform 10 20 5)
              [1; 2; 3] [10; 15; 20]) as (l & w & H1 & H2 & _).
  - reflexivity.
  - by vm_compute.
  - done.
  - done.
  - by exists l, w.
Defined.

(** X6: for two coordinates of the same direction whose value ranges do
    not overlap, addition does not depend on the order of the operands
    (up to the traits, which come from the left one): both sums hold the
    lower values first when the operands ascend and the upper values first
    when they descend, and no warning is printed. *)
Theorem Coord_add_disjoint_commutes a b la lb :
  coordinates a = ok la -> coordinates b = ok lb -> la <> [] -> lb <> [] ->
  is_max_to_min a = is_max_to_min b ->
  np_max la < np_min lb ->
  let l := if is_max_to_min a then lb ++ la else la ++ lb in
  Coord_add a b = ok (GridCoord (kwargs a) l, false) /\
  Coord_add b a = ok (GridCoord (kwargs b) l, false).
Proof.
  intros Ha Hb Hla Hlb Hdir Hlt l.
  pose proof (np_min_le_max la Hla) as Hma. pose proof (np_min_le_max lb Hlb) as Hmb.
  assert (E1 : Qltb (np_max lb) (np_min la) = false) by (apply Qltb_false; lra).
  assert (E2 : Qltb (np_max la) (np_min lb) = true) by by apply Qltb_true.
  unfold Coord_add. rewrite Ha, Hb, <- Hdir. cbn [rbind ok].
  rewrite eqb_reflx. cbn [negb rbind ok].
  rewrite !arr_min_ok, !arr_max_ok by done. cbn [rbind ok].
  rewrite E1, E2. unfold l.
  destruct (is_max_to_min a); cbn [rbind ok fst snd];
    rewrite ?GridCoord_init_app by done; cbn [rbind ok]; done.
Qed.

Lemma Coord_add_disjoint_commutes_witness :
  Coord_add (grid [1; 2; 3]) (grid [10; 20]) = ok (grid [1; 2; 3; 10; 20], false) /\
  Coord_add (grid [10; 20]) (grid [1; 2; 3]) = ok (grid [1; 2; 3; 10; 20], false).
Proof.
  apply (Coord_add_disjoint_commutes (grid [1; 2; 3]) (grid [10; 20]) [1; 2; 3] [10; 20]);
    [reflexivity | reflexivity | done | done | reflexivity | reflexivity].
Defined.

(** ** What the constructor stores *)

Lemma dims_of_dim_pairs (keys pre : list string) :
  NoDup (pre ++ keys) ->
  fold_left add_key (dim_pairs keys).*2 pre = pre ++ keys.
Proof.
  revert pre. induction keys as [|c keys IH]; intros pre Hnd; cbn.
  - by rewrite app_nil_r.
  - unfold dim_pairs in *. cbn [flat_map]. rewrite fmap_app, fold_left_app.
    assert (Hc : fold_left add_key (map (fun cc => (cc, c)) (split_us c)).*2 pre = pre ++ [c]).
    { assert (Hfresh : c ∉ pre).
      { apply NoDup_app in Hnd as (_ & Hd & _). intros Hin. apply (Hd _ Hin). left. }
      pose proof (split_us_nonempty c) as Hne.
      destruct (split_us c) as [|p ps]; [done|]. cbn [map fmap list_fmap snd fold_left].
      rewrite add_key_fresh by done. clear Hne.
      induction ps as [|q ps IHps]; [done|]. cbn [map fmap list_fmap snd fold_left].
      unfold add_key at 2. rewrite bool_decide_eq_true_2; [done|].
      apply elem_of_app. right. left. }
    rewrite Hc. rewrite IH; [by rewrite <- app_assoc|].
    by rewrite <- app_assoc.
Qed.

(** X7: the constructor keeps what it is given. For a dictionary in
    which no dimension name occurs twice and every stacked key comes with
    one coordinate per part, a constructed [Coordinate] has the keys of the
    dictionary as its [dims], in their order, and stores every coordinate
    under its own dimension name: a plain key under the key, the i-th
    coordinate of a stacked key under the i-th part of the key. *)
Theorem Coordinate_init_keeps_input coords kw A :
  NoDup (flat_map split_us coords.*1) ->
  Forall well_shaped coords ->
  Coordinate_init coords kw = ok A ->
  dims A = coords.*1 /\
  _coords A = flat_map coords_of_item coords /\
  (forall key c, (key, One c) ∈ coords -> od_get key (_coords A) = Some c) /\
  (forall key cs i p c, (key, Many cs) ∈ coords ->
     split_us key !! i = Some p -> cs !! i = Some c ->
     od_get p (_coords A) = Some c).
Proof.
  intros Hnd Hws HA.
  destruct (Coordinate_init_explicit coords kw Hnd Hws) as [Hdm Hinit].
  rewrite Hinit in HA.
  destruct (_coords_validate _ _) as [e|validated] eqn:Ev; [done|].
  apply _coords_validate_ok in Ev as (-> & _ & _).
  cbn in HA. injection HA as <-. cbn [_coords dims_map].
  assert (Hkeys : NoDup coords.*1).
  { clear -Hnd. induction coords.*1 as [|c l IH]; [constructor|].
    cbn [flat_map] in Hnd. apply NoDup_app in Hnd as (Hc & Hd & Hl).
    constructor; [|by apply IH]. intros Hin.
    pose proof (split_us_nonempty c) as Hne.
    destruct (split_us c) as [|p ps] eqn:E; [done|].
    apply (Hd p); [left|]. apply elem_of_flat_map_split. exists c. split; [done|].
    rewrite E. left. }
  assert (Hget : forall p c, (p, c) ∈ flat_map coords_of_item coords ->
                   od_get p (flat_map coords_of_item coords) = Some c).
  { intros p c Hin. apply elem_od_get; [|done]. by rewrite flat_map_coords_keys. }
  split; [|split; [done|split]].
  - rewrite dims_fold. cbn [dims_map]. by apply (dims_of_dim_pairs _ []).
  - intros key c Hin. apply Hget. apply elem_of_flat_map. exists (key, One c).
    split; [done|]. cbn. left.
  - intros key cs i p c Hin Hp Hc. apply Hget. apply elem_of_flat_map.
    exists (key, Many cs). split; [done|]. cbn.
    apply list_elem_of_lookup. exists i. by apply lookup_zip_with_Some; exists p, c.
Qed.

Lemma Coordinate_init_keeps_input_witness :
  let coords := [("lat_lon"%string, Many [grid [0; 1; 2]; grid [10; 20; 30]]);
                 ("time"%string, One (grid [1; 2; 3; 4]))] in
  exists A,
    Coordinate_init coords default_Coordinate_kwargs = ok A /\
    dims A = ["lat_lon"; "time"]%string /\
    od_get "lon"%string (_coords A) = Some (grid [10; 20; 30]).
Proof.
  intros coords.
  destruct (Coordinate_init coords default_Coordinate_kwargs) as [e|A] eqn:E;
    [by vm_compute in E|].
  exists A. split; [done|].
  destruct (Coordinate_init_keeps_input coords default_Coordinate_kwargs A)
    as (H1 & _ & _ & H2).
  - refine (bool_decide_unpack _ _). by vm_compute.
  - repeat constructor.
    + exists [grid [0; 1; 2]; grid [10; 20; 30]]. by split.
    + by exists (grid [1; 2; 3; 4]).
  - done.
  - split; [done|].
    apply (H2 "lat_lon"%string [grid [0; 1; 2]; grid [10; 20; 30]] 1%nat); [left|done..].
Defined.

(** ** Unstacking *)

Lemma flat_map_split_plain (keys : list string) :
  Forall (fun k => contains_us k = false) keys -> flat_map split_us keys = keys.
Proof.
  induction 1 as [|k keys Hk _ IH]; [done|].
  cbn [flat_map]. by rewrite (split_us_plain _ Hk), IH.
Qed.

Lemma dim_pairs_plain (keys : list string) :
  Forall (fun k => contains_us k = false) keys ->
  dim_pairs keys = map (fun v => (v, v)) keys.
Proof.
  induction 1 as [|k keys Hk _ IH]; [done|].
  unfold dim_pairs in *. cbn [flat_map]. by rewrite (split_us_plain _ Hk), IH.
Qed.

Lemma coords_of_item_One (l : odict Coord) :
  flat_map coords_of_item (prod_map id One <$> l) = l.
Proof.
  induction l as [|[k c] l IH]; [done|]. cbn. by f_equal.
Qed.

Lemma prod_map_One_keys (l : odict Coord) : (prod_map id One <$> l).*1 = l.*1.
Proof. induction l as [|[k c] l IH]; [done|]. cbn. by f_equal. Qed.

Lemma valid_dims_plain (keys : list string) :
  Forall (fun k => k ∈ _valid_dims) keys -> Forall (fun k => contains_us k = false) keys.
Proof. intros H. eapply Forall_impl; [exact H|]. intros k. apply valid_dim_plain. Qed.

Lemma map_diag_fst (keys : list string) : (map (fun v => (v, v)) keys).*1 = keys.
Proof. induction keys as [|k keys IH]; [done|]. cbn. by f_equal. Qed.

Lemma map_diag_snd (keys : list string) : (map (fun v => (v, v)) keys).*2 = keys.
Proof. induction keys as [|k keys IH]; [done|]. cbn. by f_equal. Qed.

(** The constructor on a dictionary of plain keys. *)
Lemma Coordinate_init_plain (crds : odict Coord) kw :
  NoDup crds.*1 ->
  Forall (fun k => k ∈ _valid_dims) crds.*1 ->
  Coordinate_init (prod_map id One <$> crds) kw
  = ok {| co_kwargs := kw; _coords := crds; dims_map := map (fun v => (v, v)) crds.*1 |}.
Proof.
  intros Hnd Hvalid. pose proof (valid_dims_plain _ Hvalid) as Hplain.
  destruct (Coordinate_init_explicit (prod_map id One <$> crds) kw) as [_ ->].
  - by rewrite prod_map_One_keys, flat_map_split_plain.
  - apply Forall_forall. intros [k e] Hin.
    apply list_elem_of_fmap in Hin as ([k' c] & [= -> ->] & Hin).
    unfold well_shaped. cbn.
    assert (Hk : contains_us k' = false).
    { rewrite Forall_forall in Hplain. apply Hplain.
      apply list_elem_of_fmap. by exists (k', c). }
    rewrite Hk. by exists c.
  - rewrite prod_map_One_keys, coords_of_item_One, dim_pairs_plain by done.
    rewrite _coords_validate_plain; [done..|].
    intros k Hk. by rewrite map_diag_snd.
Qed.

(** X8: [unstack] succeeds on every constructed [Coordinate], with or
    without a copy. It keeps every stored coordinate under its name and
    maps every name to itself, so the [dims] of the result are the stored
    names. The copy carries the default keyword traits, not those of
    [self], and leaves [self] as it was; without a copy [self] is changed
    and returned. *)
Theorem unstack_keeps_coordinates coords kw A :
  Coordinate_init coords kw = ok A ->
  let names := (_coords A).*1 in
  let plain := map (fun v => (v, v)) names in
  let U := {| co_kwargs := default_Coordinate_kwargs; _coords := _coords A;
              dims_map := plain |} in
  let A' := {| co_kwargs := kw; _coords := _coords A; dims_map := plain |} in
  unstack A true = (ok U, A) /\
  unstack A false = (ok A', A') /\
  dims U = names /\ dims A' = names /\
  unstack U true = (ok U, U).
Proof.
  intros HA names plain U A'.
  destruct (Coordinate_init_ok _ _ _ HA) as (Hkw & _ & _ & Hkeys & Hnd & Hval).
  apply _coords_validate_ok in Hval as (_ & Hvalid & _).
  assert (Hdims : fold_left add_key plain.*2 [] = names).
  { unfold plain. rewrite map_diag_snd. by apply (fold_add_key_fresh _ []). }
  split; [|split; [|split; [|split]]].
  - unfold unstack. by rewrite Coordinate_init_plain.
  - unfold unstack, A', plain, names. by rewrite Hkw, Hkeys.
  - done.
  - done.
  - unfold unstack. cbn [_coords U]. by rewrite Coordinate_init_plain.
Qed.

Lemma unstack_keeps_coordinates_witness :
  let coords := [("lat_lon"%string, Many [grid [0; 1; 2]; grid [10; 20; 30]]);
                 ("time"%string, One (grid [1; 2; 3; 4]))] in
  exists A U,
    Coordinate_init coords default_Coordinate_kwargs = ok A /\
    unstack A true = (ok U, A) /\
    dims A = ["lat_lon"; "time"]%string /\
    dims U = ["lat"; "lon"; "time"]%string.
Proof.
  intros coords.
  destruct (Coordinate_init coords default_Coordinate_kwargs) as [e|A] eqn:E;
    [by vm_compute in E|].
  destruct (unstack_keeps_coordinates coords default_Coordinate_kwargs A E)
    as (H1 & _ & H2 & _).
  eexists A, _. split; [done|]. split; [exact H1|].
  vm_compute in E. injection E as <-. by vm_compute.
Defined.

(** ** Joining and splitting dimension names *)

Lemma append_String a s r : String.append (String a s) r = String a (String.append s r).
Proof. reflexivity. Qed.

Lemma split_us_append_plain s r :
  contains_us s = false ->
  split_us (String.append s (String "_"%char r)) = s :: split_us r.
Proof.
  induction s as [|a s IH]; intros H.
  - done.
  - cbn [contains_us] in H. apply orb_false_iff in H as [Ha Hs].
    rewrite append_String. cbn [split_us]. by rewrite Ha, (IH Hs).
Qed.

Lemma contains_us_append s r :
  contains_us (String.append s (String "_"%char r)) = true.
Proof.
  induction s as [|a s IH]; [done|].
  rewrite append_String. cbn [contains_us]. rewrite IH. apply orb_true_r.
Qed.

(** Splitting a joined list of plain names gives the list back. *)
Lemma split_join_us (l : list string) :
  l <> [] -> Forall (fun k => contains_us k = false) l -> split_us (join_us l) = l.
Proof.
  induction l as [|s l IH]; [done|]. intros _ Hl.
  apply Forall_cons in Hl as [Hs Hl]. cbn [join_us].
  destruct l as [|s' l]; [by apply split_us_plain|].
  rewrite split_us_append_plain by done. f_equal. by apply IH.
Qed.

Lemma contains_us_join_us (l : list string) :
  (2 <= length l)%nat -> contains_us (join_us l) = true.
Proof.
  destruct l as [|s [|s' l]]; cbn [length]; [lia..|]. intros _.
  cbn [join_us]. apply contains_us_append.
Qed.

(** ** Stacking an unstacked [Coordinate] *)

Lemma od_set_map (h : string -> string) (names : list string) k v :
  NoDup names -> k ∈ names ->
  od_set k v (map (fun p => (p, h p)) names)
  = map (fun p => (p, if decide (p = k) then v else h p)) names.
Proof.
  induction names as [|q names IH]; intros Hnd Hk; [by apply elem_of_nil in Hk|].
  apply NoDup_cons in Hnd as [Hq Hnd]. cbn [map od_set].
  destruct (decide (k = q)) as [->|Hne].
  - rewrite decide_True by done. f_equal.
    apply map_ext_in. intros p Hp%list_elem_of_In.
    rewrite decide_False; [done|]. by intros ->.
  - rewrite decide_False by done. f_equal.
    apply IH; [done|]. by apply elem_of_cons in Hk as [?|?].
Qed.

Lemma stacked_map_fold (l names : list string) (h : string -> string) J :
  NoDup names -> (forall p, p ∈ l -> p ∈ names) ->
  fold_left (fun m k => od_set k J m) l (map (fun p => (p, h p)) names)
  = map (fun p => (p, if bool_decide (p ∈ l) then J else h p)) names.
Proof.
  intros Hnd. revert h. induction l as [|k l IH]; intros h Hl; cbn [fold_left].
  - apply map_ext. intros p. by rewrite bool_decide_eq_false_2 by apply not_elem_of_nil.
  - rewrite od_set_map by (done || apply Hl; left).
    rewrite IH by (intros p Hp; apply Hl; by right).
    apply map_ext. intros p. f_equal.
    destruct (decide (p = k)) as [->|Hne].
    + rewrite (bool_decide_eq_true_2 (k ∈ k :: l)) by left. by case_bool_decide.
    + case_bool_decide as H1.
      * by rewrite bool_decide_eq_true_2 by by right.
      * rewrite bool_decide_eq_false_2; [done|]. by intros [?|?]%elem_of_cons.
Qed.

Lemma entry_of_list l : match entry_of l with One c => [c] | Many cs => cs end = l.
Proof. by destruct l as [|? [|? ?]]. Qed.

Lemma entry_of_snoc l c : l <> [] -> Many (l ++ [c]) = entry_of (l ++ [c]).
Proof. by destruct l as [|? [|? ?]]. Qed.

Lemma od_get_middle {V} (S1 S2 : odict V) k v :
  k ∉ S1.*1 -> od_get k (S1 ++ (k, v) :: S2) = Some v.
Proof.
  intros H. rewrite od_get_app_r by done. cbn. by rewrite decide_True.
Qed.

Lemma od_set_middle {V} (S1 S2 : odict V) k v w :
  k ∉ S1.*1 -> od_set k w (S1 ++ (k, v) :: S2) = S1 ++ (k, w) :: S2.
Proof.
  induction S1 as [|[k' v'] S1 IH]; cbn; intros H.
  - by rewrite decide_True.
  - apply not_elem_of_cons in H as [Hne H]. rewrite decide_False by done.
    by rewrite IH.
Qed.

Lemma od_item_get_d crds p : is_Some (od_get p crds) -> od_item p crds = ok (od_get_d crds p).
Proof. intros [c Hc]. unfold od_item, od_get_d. by rewrite Hc. Qed.

Lemma stacked_map_keys l (names : list string) : (stacked_map l names).*1 = names.
Proof. induction names as [|p names IH]; [done|]. cbn. by f_equal. Qed.

(** [stack_dict] over the names in front of the first stacked one. *)
Lemma stack_dict_plain_prefix crds l (ps : list string) acc :
  Forall (fun p => p ∉ l) ps ->
  NoDup (acc.*1 ++ ps) ->
  (forall p, p ∈ ps -> is_Some (od_get p crds)) ->
  foldM (stack_dict_step crds) (stacked_map l ps) acc
  = ok (acc ++ map (fun p => (p, One (od_get_d crds p))) ps).
Proof.
  revert acc. induction ps as [|p ps IH]; intros acc Hl Hnd Hin; cbn.
  - by rewrite app_nil_r.
  - apply Forall_cons in Hl as [Hp Hl].
    rewrite bool_decide_eq_false_2 by done.
    assert (Hfresh : p ∉ acc.*1).
    { apply NoDup_app in Hnd as (_ & H & _). intros Hacc. apply (H _ Hacc). left. }
    apply od_get_None in Hfresh as Hnone. rewrite Hnone.
    rewrite od_item_get_d by (apply Hin; left). cbn [rbind ok].
    rewrite od_set_fresh by done.
    fold (stacked_map l ps). rewrite IH.
    + by rewrite <- app_assoc.
    + done.
    + rewrite fmap_app. cbn. rewrite <- app_assoc. done.
    + intros q Hq. apply Hin. by right.
Qed.

(** [stack_dict] over the names behind the first stacked one. *)
Lemma stack_dict_group_tail crds l (ps : list string) (S1 S2 : odict entry) done :
  let J := join_us l in
  done <> [] ->
  J ∉ S1.*1 -> J ∉ ps ->
  NoDup ((S1.*1 ++ S2.*1) ++ ps) ->
  (forall p, p ∈ ps -> is_Some (od_get p crds)) ->
  foldM (stack_dict_step crds) (stacked_map l ps) (S1 ++ (J, entry_of done) :: S2)
  = ok (S1 ++ (J, entry_of (done ++ map (od_get_d crds) (filter (fun p => p ∈ l) ps)))
           :: S2 ++ map (fun p => (p, One (od_get_d crds p))) (filter (fun p => p ∉ l) ps)).
Proof.
  intros J. revert S2 done.
  induction ps as [|p ps IH]; intros S2 done Hdone HJ1 HJp Hnd Hin.
  - cbn. by rewrite !app_nil_r.
  - apply not_elem_of_cons in HJp as [HJp HJps].
    assert (Hp1 : (p ∉ S1.*1) /\ (p ∉ S2.*1)).
    { apply NoDup_app in Hnd as (_ & H & _). split; intros Hacc;
        (eapply H; [|left]); apply elem_of_app; eauto. }
    assert (Hnd' : forall x, NoDup ((S1.*1 ++ (S2 ++ [(p, x)]).*1) ++ ps)).
    { intros x. rewrite fmap_app. cbn. rewrite !app_assoc in *.
      rewrite <- (app_assoc _ [p] ps). done. }
    assert (Hin' : forall q, q ∈ ps -> is_Some (od_get q crds))
      by (intros q Hq; apply Hin; by right).
    cbn [stacked_map map foldM]. fold (stacked_map l ps). fold J.
    unfold stack_dict_step at 1.
    rewrite filter_cons. rewrite (filter_cons (fun p => p ∉ l)).
    case_bool_decide as Hmem.
    + rewrite od_get_middle by done. rewrite entry_of_list.
      rewrite od_item_get_d by (apply Hin; left). cbn [rbind ok].
      rewrite od_set_middle by done. rewrite entry_of_snoc by done.
      rewrite decide_True by done. rewrite decide_False by tauto.
      rewrite IH; [|by destruct done|done|done| |done].
      * cbn [map]. by rewrite <- app_assoc.
      * apply NoDup_app in Hnd as (H1 & H2 & H3). apply NoDup_cons in H3 as [_ H3].
        apply NoDup_app. split; [done|]. split; [|done].
        intros x Hx Hxp. apply (H2 x Hx). by right.
    + assert (Hnone : od_get p (S1 ++ (J, entry_of done) :: S2) = None).
      { apply od_get_None. rewrite fmap_app. cbn. intros Hx.
        apply elem_of_app in Hx as [?|Hx]; [tauto|].
        apply elem_of_cons in Hx as [?|?]; [by subst|tauto]. }
      rewrite Hnone. rewrite od_item_get_d by (apply Hin; left). cbn [rbind ok].
      rewrite od_set_fresh by (by apply od_get_None).
      rewrite decide_False by done. rewrite decide_True by done.
      rewrite <- app_assoc. cbn [app].
      rewrite (IH (S2 ++ [(p, One (od_get_d crds p))])); [|done..].
      cbn [map]. by rewrite <- app_assoc.
Qed.

(** The validation passes when every coordinate under a stacked key has
    the size [sz] gives for the key. *)
Lemma _coords_validate_sized dm (value : odict Coord) (sz : string -> Z) :
  NoDup value.*1 ->
  Forall (fun k => k ∈ _valid_dims) value.*1 ->
  (forall k, k ∈ value.*1 -> is_Some (od_get k dm)) ->
  (forall k c d, (k, c) ∈ value -> k ∉ dm.*2 -> od_get k dm = Some d -> size c = ok (sz d)) ->
  _coords_validate dm value = ok value.
Proof.
  intros Hnd Hvalid Hdm Hsize. unfold _coords_validate.
  enough (G : forall st, NoDup (seen_dims st ++ value.*1) ->
            (forall d n, stack_dims st !! d = Some n -> n = sz d) ->
            exists st', foldM (_coords_validate_step dm) value st = ok st').
  { destruct (G {| seen_dims := []; stack_dims := ∅ |} Hnd) as [st ->]; [|done].
    intros d n H. cbn [stack_dims] in H. by rewrite lookup_empty in H. }
  induction value as [|[key c] value IH]; intros st Hst Hrec; cbn [foldM]; [by eexists|].
  cbn [fmap list_fmap fst] in *.
  apply NoDup_cons in Hnd as [_ Hnd]. apply Forall_cons in Hvalid as [Hkey Hvalid].
  assert (Hseen : key ∉ seen_dims st).
  { apply NoDup_app in Hst as (_ & H & _). intros Hin. apply (H key Hin). left. }
  unfold _coords_validate_step at 1.
  rewrite _validate_dim_valid by done. cbn [rbind ok].
  assert (IH' := fun st' => IH Hnd Hvalid
            (fun k Hk => Hdm k (list_elem_of_further _ _ _ Hk))
            (fun k c d Hk => Hsize k c d (list_elem_of_further _ _ _ Hk)) st').
  assert (Hnext : NoDup ((seen_dims st ++ [key]) ++ value.*1))
    by by rewrite <- app_assoc.
  case_bool_decide as Hst'; cbn [negb rbind ok]; [by apply IH'|].
  destruct (Hdm key ltac:(left)) as [d Hd].
  unfold od_item. rewrite Hd. cbn [rbind ok].
  rewrite (Hsize key c d ltac:(left) Hst' Hd).
  destruct (stack_dims st !! d) as [expected|] eqn:Es; cbn [rbind ok].
  - rewrite (Hrec d expected Es), Z.eqb_refl. cbn [negb]. by apply IH'.
  - apply IH'; [done|]. cbn [stack_dims]. intros d' n'.
    destruct (decide (d' = d)) as [->|Hne].
    + rewrite lookup_insert_eq. by intros [= <-].
    + rewrite lookup_insert_ne by done. apply Hrec.
Qed.

Lemma od_get_d_elem (crds : odict Coord) p c :
  NoDup crds.*1 -> (p, c) ∈ crds -> od_get_d crds p = c.
Proof. intros Hnd Hin. unfold od_get_d. by rewrite (elem_od_get _ _ _ Hnd Hin). Qed.

Lemma map_od_get_d_sub (crds l : odict Coord) :
  NoDup crds.*1 -> (forall kv, kv ∈ l -> kv ∈ crds) ->
  map (fun p => (p, od_get_d crds p)) l.*1 = l.
Proof.
  intros Hnd. induction l as [|[p c] l IH]; intros Hsub; [done|].
  cbn. rewrite (od_get_d_elem crds p c) by (done || apply Hsub; left).
  f_equal. apply IH. intros kv Hkv. apply Hsub. by right.
Qed.

Lemma map_od_get_d_with {B} (crds l : odict Coord) (h : string -> Coord -> B) :
  NoDup crds.*1 -> (forall kv, kv ∈ l -> kv ∈ crds) ->
  map (fun p => h p (od_get_d crds p)) l.*1 = map (fun kv => h kv.1 kv.2) l.
Proof.
  intros Hnd. induction l as [|[p c] l IH]; intros Hsub; [done|].
  cbn. rewrite (od_get_d_elem crds p c) by (done || apply Hsub; left).
  f_equal. apply IH. intros kv Hkv. apply Hsub. by right.
Qed.

Lemma filter_fst {V} (P : string -> Prop) `{!forall x, Decision (P x)} (l : odict V) :
  (filter (fun kv => P kv.1) l).*1 = filter P l.*1.
Proof.
  induction l as [|[k v] l IH]; [done|]. cbn [fmap list_fmap].
  destruct (decide (P k)).
  - rewrite (filter_cons_True P) by done.
    rewrite (filter_cons_True (fun kv : string * V => P kv.1)) by done.
    cbn [fmap list_fmap fst]. by f_equal.
  - rewrite (filter_cons_False P) by done.
    by rewrite (filter_cons_False (fun kv : string * V => P kv.1)) by done.
Qed.

Lemma filter_none {A} (P : A -> Prop) `{!forall x, Decision (P x)} (l : list A) :
  Forall (fun x => ~ P x) l -> filter P l = [].
Proof.
  induction 1 as [|x l Hx _ IH]; [done|]. rewrite filter_cons.
  by rewrite decide_False.
Qed.

Lemma filter_all {A} (P : A -> Prop) `{!forall x, Decision (P x)} (l : list A) :
  Forall P l -> filter P l = l.
Proof.
  induction 1 as [|x l Hx _ IH]; [done|]. rewrite filter_cons.
  rewrite decide_True by done. by f_equal.
Qed.

(** The names of [l] that occur in a duplicate-free list holding all of
    [l] are as many as [l] has. *)
Lemma filter_members_length (l names : list string) :
  NoDup names -> NoDup l -> (forall p, p ∈ l -> p ∈ names) ->
  length (filter (fun p => p ∈ l) names) = length l.
Proof.
  intros Hn Hl Hsub. apply Permutation_length, NoDup_Permutation.
  - by apply NoDup_filter.
  - done.
  - intros p. rewrite list_elem_of_filter. split; [tauto|]. intros Hp. split; [done|].
    by apply Hsub.
Qed.

Lemma dims_stacked_map_tail l (ps acc : list string) :
  join_us l ∈ acc -> NoDup (acc ++ ps) ->
  fold_left add_key (stacked_map l ps).*2 acc = acc ++ filter (fun p => p ∉ l) ps.
Proof.
  revert acc. induction ps as [|p ps IH]; intros acc HJ Hnd.
  - cbn. by rewrite app_nil_r.
  - cbn [stacked_map map fmap list_fmap snd fold_left]. fold (stacked_map l ps).
    rewrite filter_cons. apply NoDup_app in Hnd as (H1 & H2 & H3).
    apply NoDup_cons in H3 as [Hp H3].
    case_bool_decide as Hmem.
    + rewrite decide_False by tauto.
      unfold add_key at 2. rewrite bool_decide_eq_true_2 by done.
      apply IH; [done|]. apply NoDup_app. split; [done|]. split; [|done].
      intros x Hx Hxp. apply (H2 x Hx). by right.
    + rewrite decide_True by done.
      rewrite add_key_fresh by (intros Hacc; apply (H2 p Hacc); left).
      rewrite IH.
      * by rewrite <- app_assoc.
      * apply elem_of_app. by left.
      * rewrite <- app_assoc. cbn. apply NoDup_app. split; [done|]. split.
        { intros x Hx. apply (H2 x Hx). }
        by apply NoDup_cons.
Qed.

(** [stack_dict] on the dimension map that [stack] computes. *)
Lemma stack_dict_stacked_map (crds : odict Coord) (l bs rs : list string) g :
  let J := join_us l in
  NoDup (bs ++ g :: rs) ->
  J ∉ bs ++ g :: rs ->
  Forall (fun p => p ∉ l) bs -> g ∈ l ->
  (forall p, p ∈ bs ++ g :: rs -> is_Some (od_get p crds)) ->
  stack_dict crds (stacked_map l (bs ++ g :: rs))
  = ok (map (fun p => (p, One (od_get_d crds p))) bs
        ++ (J, entry_of (od_get_d crds g :: map (od_get_d crds) (filter (fun p => p ∈ l) rs)))
        :: map (fun p => (p, One (od_get_d crds p))) (filter (fun p => p ∉ l) rs)).
Proof.
  intros J Hnd HJ Hbs Hg Hin. unfold stack_dict, stacked_map.
  rewrite map_app, foldM_app. fold (stacked_map l bs).
  apply NoDup_app in Hnd as (Hnb & Hdisj & Hngr). apply NoDup_cons in Hngr as [Hgr Hnr].
  rewrite stack_dict_plain_prefix; [|done|done|].
  2:{ intros p Hp. apply Hin, elem_of_app. by left. }
  cbn [app rbind ok map foldM]. fold (stacked_map l rs). fold J.
  rewrite bool_decide_eq_true_2 by done.
  set (S1 := map (fun p => (p, One (od_get_d crds p))) bs).
  assert (HS1 : S1.*1 = bs).
  { unfold S1. clear. induction bs as [|b bs IH]; [done|]. cbn. by f_equal. }
  assert (HJ1 : J ∉ S1.*1).
  { rewrite HS1. intros H. apply HJ, elem_of_app. by left. }
  unfold stack_dict_step at 1. apply od_get_None in HJ1 as Hnone. rewrite Hnone.
  rewrite od_item_get_d by (apply Hin, elem_of_app; right; left). cbn [rbind ok].
  rewrite od_set_fresh by done.
  change (S1 ++ [(J, One (od_get_d crds g))])
    with (S1 ++ (J, entry_of [od_get_d crds g]) :: []).
  subst J.
  rewrite (stack_dict_group_tail crds l rs S1 [] [od_get_d crds g]); [done|done|done| | |].
  - intros H. apply HJ, elem_of_app. right. by right.
  - cbn [fmap list_fmap]. rewrite app_nil_r, HS1. apply NoDup_app. split; [done|].
    split; [|done]. intros x Hx Hxr. apply (Hdisj x Hx). by right.
  - intros p Hp. apply Hin, elem_of_app. right. by right.
Qed.

(** X9: stacking dimensions of an unstacked [Coordinate]. When the names
    in [stack_dims] are distinct stored dimensions, at least two, whose
    coordinates have one size, [stack] returns with and without a copy.
    The stacked name takes the place of the first stacked dimension in
    [dims]. Without a copy every name keeps its coordinate. The copy
    pairs the names in the order of [stack_dims] with the coordinates in
    the order in which they were stored, so a name receives another
    dimension's coordinate when the two orders differ. *)
Theorem stack_unstacked kw (before rest : odict Coord) g cg (l : list string) n :
  let crds := before ++ (g, cg) :: rest in
  let A := {| co_kwargs := kw; _coords := crds;
              dims_map := map (fun v => (v, v)) crds.*1 |} in
  NoDup crds.*1 ->
  Forall (fun k => k ∈ _valid_dims) crds.*1 ->
  NoDup l -> (2 <= length l)%nat -> (forall p, p ∈ l -> p ∈ crds.*1) ->
  Forall (fun kv => kv.1 ∉ l) before -> g ∈ l ->
  (forall p c, p ∈ l -> (p, c) ∈ crds -> size c = ok n) ->
  let J := join_us l in
  let group := cg :: (filter (fun kv => kv.1 ∈ l) rest).*2 in
  let after := filter (fun kv => kv.1 ∉ l) rest in
  let R := {| co_kwargs := kw; _coords := before ++ zip l group ++ after;
              dims_map := dim_pairs (before.*1 ++ J :: after.*1) |} in
  let A' := {| co_kwargs := kw; _coords := crds; dims_map := stacked_map l crds.*1 |} in
  stack A l true = (ok R, A) /\
  stack A l false = (ok A', A') /\
  dims R = before.*1 ++ J :: after.*1 /\
  dims A' = before.*1 ++ J :: after.*1.
Proof.
  intros crds A Hnd Hvalid Hl Hlen Hsub Hbefore Hg Hsize J group after R A'.
  pose proof (proj1 (Forall_forall _ _) (valid_dims_plain _ Hvalid)) as Hplain.
  pose proof (proj1 (Forall_forall _ _) Hvalid) as Hvalid'.
  assert (Hnames : crds.*1 = before.*1 ++ g :: rest.*1) by (unfold crds; by rewrite fmap_app).
  assert (Hlplain : Forall (fun k => contains_us k = false) l).
  { apply Forall_forall. intros p Hp. by apply Hplain, Hsub. }
  assert (Hlne : l <> []) by (intros E; rewrite E in Hlen; cbn in Hlen; lia).
  assert (Hsplit : split_us J = l) by by apply split_join_us.
  assert (HJc : contains_us J = true) by by apply contains_us_join_us.
  assert (HJ : J ∉ crds.*1).
  { intros H. apply Hplain in H. congruence. }
  assert (Hbs : Forall (fun p => p ∉ l) before.*1).
  { apply Forall_fmap. eapply Forall_impl; [exact Hbefore|]. done. }
  assert (Hin : forall p, p ∈ crds.*1 -> is_Some (od_get p crds))
    by (intros p; apply od_get_is_Some).
  (* the parts of the result, read off the stored dictionary *)
  assert (Hsubc : forall (ls : odict Coord), (forall kv, kv ∈ ls -> kv ∈ crds) ->
            map (fun p => (p, od_get_d crds p)) ls.*1 = ls)
    by (intros ls; by apply map_od_get_d_sub).
  assert (Hrest_sub : forall kv, kv ∈ rest -> kv ∈ crds).
  { intros kv Hkv. unfold crds. apply elem_of_app. right. by right. }
  assert (Hbefore_sub : forall kv, kv ∈ before -> kv ∈ crds).
  { intros kv Hkv. unfold crds. apply elem_of_app. by left. }
  assert (Hcg : od_get_d crds g = cg).
  { apply od_get_d_elem; [done|]. unfold crds. apply elem_of_app. right. left. }
  assert (Hafter : map (fun p => (p, od_get_d crds p)) (filter (fun p => p ∉ l) rest.*1) = after).
  { rewrite <- (filter_fst (fun p => p ∉ l)). apply Hsubc.
    intros kv Hkv%list_elem_of_filter. apply Hrest_sub, Hkv. }
  assert (Hafter1 : after.*1 = filter (fun p => p ∉ l) rest.*1)
    by (unfold after; by rewrite <- (filter_fst (fun p => p ∉ l))).
  assert (Hgroup : od_get_d crds g :: map (od_get_d crds) (filter (fun p => p ∈ l) rest.*1)
                   = group).
  { unfold group. rewrite Hcg. f_equal.
    rewrite <- (filter_fst (fun p => p ∈ l)).
    rewrite (map_od_get_d_with crds _ (fun _ c => c)); [done|done|].
    intros kv Hkv%list_elem_of_filter. apply Hrest_sub, Hkv. }
  assert (Hglen : length group = length l).
  { rewrite <- Hgroup. cbn [length]. rewrite length_map.
    rewrite <- (filter_members_length l crds.*1 Hnd Hl Hsub).
    rewrite Hnames, filter_app, filter_cons_True by done.
    rewrite (filter_none (fun p => p ∈ l) before.*1)
      by exact Hbs.
    done. }
  assert (Hbefore1 : map (fun p => (p, One (od_get_d crds p))) before.*1
                     = prod_map id One <$> before).
  { by rewrite (map_od_get_d_with crds _ (fun p c => (p, One c))). }
  assert (Hafter2 : map (fun p => (p, One (od_get_d crds p))) (filter (fun p => p ∉ l) rest.*1)
                    = prod_map id One <$> after).
  { rewrite <- (filter_fst (fun p => p ∉ l)).
    rewrite (map_od_get_d_with crds _ (fun p c => (p, One c))); [done|done|].
    intros kv Hkv%list_elem_of_filter. apply Hrest_sub, Hkv. }
  (* the stacked dictionary *)
  assert (Hdm : fold_left (fun m k => od_set k J m) l (map (fun v => (v, v)) crds.*1)
                = stacked_map l crds.*1)
    by apply (stacked_map_fold l crds.*1 (fun p => p) J Hnd Hsub).
  set (stacked := (prod_map id One <$> before) ++ (J, Many group) :: (prod_map id One <$> after)).
  assert (Hsd : stack_dict crds (stacked_map l crds.*1) = ok stacked).
  { rewrite Hnames. rewrite stack_dict_stacked_map; [|by rewrite <- Hnames..|done|done|].
    2:{ intros p Hp. apply Hin. by rewrite Hnames. }
    fold J. rewrite Hgroup, Hbefore1, Hafter2. unfold stacked. do 3 f_equal.
    destruct group as [|? [|? ?]]; [cbn in Hglen; lia..|done]. }
  (* the names of the result *)
  assert (Hkeys : stacked.*1 = before.*1 ++ J :: after.*1).
  { unfold stacked. rewrite fmap_app. cbn [fmap list_fmap fst]. by rewrite !prod_map_One_keys. }
  assert (Hbp : Forall (fun k => contains_us k = false) before.*1).
  { apply Forall_forall. intros p Hp. apply Hplain.
    rewrite Hnames. apply elem_of_app. by left. }
  assert (Hap : Forall (fun k => contains_us k = false) after.*1).
  { apply Forall_forall. intros p Hp. apply Hplain.
    rewrite Hnames. apply elem_of_app. right. right.
    rewrite Hafter1 in Hp. by apply list_elem_of_filter in Hp as [_ ?]. }
  assert (Hparts : flat_map split_us stacked.*1 = before.*1 ++ l ++ after.*1).
  { rewrite Hkeys, flat_map_app. cbn [flat_map].
    by rewrite Hsplit, !flat_map_split_plain. }
  assert (Hndparts : NoDup (before.*1 ++ l ++ after.*1)).
  { rewrite Hnames in Hnd. apply NoDup_app in Hnd as (Hnb & Hdisj & Hngr).
    apply NoDup_cons in Hngr as [_ Hnr].
    apply NoDup_app. split; [done|]. split.
    - intros x Hx [Hxl|Hxa]%elem_of_app.
      + rewrite Forall_forall in Hbs. by apply (Hbs x).
      + rewrite Hafter1 in Hxa. apply list_elem_of_filter in Hxa as [_ Hxa].
        apply (Hdisj x Hx). by right.
    - apply NoDup_app. split; [done|]. split.
      + intros x Hx Hxa. rewrite Hafter1 in Hxa. by apply list_elem_of_filter in Hxa as [? _].
      + rewrite Hafter1. by apply NoDup_filter. }
  assert (Hvalue : flat_map coords_of_item stacked = before ++ zip l group ++ after).
  { unfold stacked. rewrite flat_map_app. cbn [flat_map].
    rewrite !coords_of_item_One. unfold coords_of_item at 1. cbn [fst snd].
    by rewrite Hsplit. }
  assert (Hvkeys : (before ++ zip l group ++ after).*1 = before.*1 ++ l ++ after.*1).
  { rewrite !fmap_app. rewrite fst_zip by lia. done. }
  assert (Hgsize : forall c, c ∈ group -> size c = ok n).
  { intros c [->|Hc]%elem_of_cons.
    - apply (Hsize g); [done|]. unfold crds. apply elem_of_app. right. left.
    - apply list_elem_of_fmap in Hc as ([p c'] & -> & Hpc).
      apply list_elem_of_filter in Hpc as [Hp Hpc]. apply (Hsize p); [done|].
      by apply Hrest_sub. }
  assert (Hinit : Coordinate_init stacked kw = ok R).
  { destruct (Coordinate_init_explicit stacked kw) as [_ ->].
    - by rewrite Hparts.
    - unfold stacked. apply Forall_app. split; [|apply Forall_cons; split].
      + apply Forall_forall. intros [k e] ([k' c] & [= -> ->] & Hkc)%list_elem_of_fmap.
        unfold well_shaped. cbn [fst snd].
        rewrite Forall_forall in Hbp. rewrite (Hbp k') by (apply list_elem_of_fmap; by exists (k', c)).
        by exists c.
      + unfold well_shaped. cbn [fst snd]. rewrite HJc, Hsplit. by exists group.
      + apply Forall_forall. intros [k e] ([k' c] & [= -> ->] & Hkc)%list_elem_of_fmap.
        unfold well_shaped. cbn [fst snd].
        rewrite Forall_forall in Hap. rewrite (Hap k') by (apply list_elem_of_fmap; by exists (k', c)).
        by exists c.
    - rewrite Hvalue, Hkeys.
      rewrite (_coords_validate_sized _ _ (fun _ => n)); [done| | | |].
      + by rewrite Hvkeys.
      + rewrite Hvkeys. apply Forall_forall. intros p Hp.
        apply Hvalid'. rewrite Hnames.
        apply elem_of_app in Hp as [?|Hp]; [apply elem_of_app; by left|].
        apply elem_of_app in Hp as [Hp|Hp].
        * rewrite <- Hnames. by apply Hsub.
        * apply elem_of_app. right. right. rewrite Hafter1 in Hp.
          by apply list_elem_of_filter in Hp as [_ ?].
      + intros k Hk. apply od_get_is_Some. rewrite dim_pairs_keys, <- Hkeys, Hparts.
        by rewrite <- Hvkeys.
      + intros k c d Hkc Hst _.
        assert (Hplainkey : forall k', k' ∈ before.*1 ++ after.*1 ->
                  k' ∈ (dim_pairs (before.*1 ++ J :: after.*1)).*2).
        { intros k' Hk'. apply list_elem_of_fmap. exists (k', k'). split; [done|].
          apply elem_of_dim_pairs.
          assert (Hpl : contains_us k' = false).
          { apply elem_of_app in Hk' as [Hk'|Hk'];
              [rewrite Forall_forall in Hbp; by apply Hbp
              |rewrite Forall_forall in Hap; by apply Hap]. }
          rewrite (split_us_plain _ Hpl). split; [|left].
          apply elem_of_app in Hk' as [?|?]; apply elem_of_app; [by left|right; by right]. }
        apply elem_of_app in Hkc as [Hkc|Hkc].
        { destruct Hst. apply Hplainkey, elem_of_app. left.
          apply list_elem_of_fmap. by exists (k, c). }
        apply elem_of_app in Hkc as [Hkc|Hkc].
        { apply Hgsize. apply list_elem_of_lookup in Hkc as [i Hi].
          apply lookup_zip_with_Some in Hi as (? & ? & [= <- <-] & _ & Hi).
          by apply list_elem_of_lookup_2 in Hi. }
        destruct Hst. apply Hplainkey, elem_of_app. right.
        apply list_elem_of_fmap. by exists (k, c). }
  (* the validation of the stored dictionary against the new map *)
  assert (Hval : _coords_validate (stacked_map l crds.*1) crds = ok crds).
  { apply (_coords_validate_sized _ _ (fun _ => n)); [done|done| |].
    - intros k Hk. apply od_get_is_Some.
      by rewrite stacked_map_keys.
    - intros k c d Hkc Hst _. apply (Hsize k); [|done].
      destruct (decide (k ∈ l)) as [|Hnl]; [done|]. destruct Hst.
      apply list_elem_of_fmap. exists (k, k). split; [done|].
      unfold stacked_map. apply list_elem_of_fmap. exists k.
      rewrite bool_decide_eq_false_2 by done. split; [done|].
      apply list_elem_of_fmap. by exists (k, c). }
  split; [|split; [|split]].
  - unfold stack. cbn [dims_map _coords co_kwargs A]. fold J. rewrite Hdm, Hsd.
    unfold ok at 1. by rewrite Hinit.
  - unfold stack. cbn [dims_map _coords co_kwargs A]. fold J. rewrite Hdm, Hsd.
    unfold ok at 1. by rewrite Hval.
  - rewrite dims_fold. cbn [dims_map R]. apply (dims_of_dim_pairs _ []). cbn [app].
    rewrite <- Hkeys.
    assert (Hnd' : NoDup (flat_map split_us stacked.*1)) by by rewrite Hparts.
    clear -Hnd'. induction stacked.*1 as [|c ks IH]; [constructor|].
    cbn [flat_map] in Hnd'. apply NoDup_app in Hnd' as (Hc & Hd & Hks).
    constructor; [|by apply IH]. intros Hin.
    pose proof (split_us_nonempty c) as Hne.
    destruct (split_us c) as [|p ps] eqn:E; [done|].
    apply (Hd p); [left|]. apply elem_of_flat_map_split. exists c. split; [done|].
    rewrite E. left.
  - rewrite dims_fold. cbn [dims_map A']. rewrite Hnames.
    unfold stacked_map. rewrite map_app, fmap_app, fold_left_app.
    fold (stacked_map l before.*1).
    assert (Hb2 : (stacked_map l before.*1).*2 = before.*1).
    { clear -Hbs. induction Hbs as [|b bs Hb _ IH]; [done|]. cbn.
      rewrite bool_decide_eq_false_2 by done. by f_equal. }
    rewrite Hb2.
    rewrite Hnames in Hnd. apply NoDup_app in Hnd as (Hnb & Hdisj & Hngr).
    apply NoDup_cons in Hngr as [Hgr Hnr].
    rewrite (fold_add_key_fresh _ []) by done. cbn [app map fmap list_fmap snd fold_left].
    rewrite bool_decide_eq_true_2 by done. fold (stacked_map l rest.*1).
    assert (HJb : join_us l ∉ before.*1).
    { intros H. apply HJ. rewrite Hnames. apply elem_of_app. by left. }
    rewrite add_key_fresh by done.
    rewrite dims_stacked_map_tail.
    + rewrite <- app_assoc. cbn [app]. by rewrite Hafter1.
    + apply elem_of_app. right. left.
    + rewrite <- app_assoc. cbn [app]. apply NoDup_app. split; [done|]. split.
      * intros x Hx [->|Hxr]%elem_of_cons; [done|]. apply (Hdisj x Hx). by right.
      * apply NoDup_cons. split; [|done].
        intros H. apply HJ. rewrite Hnames. apply elem_of_app. right. by right.
Qed.

Lemma stack_unstacked_witness :
  let lat := grid [0; 1; 2] in
  let lon := grid [10; 20; 30] in
  let time := grid [1; 2; 3; 4] in
  let crds := [("lat", lat); ("lon", lon); ("time", time)]%string in
  let A := {| co_kwargs := default_Coordinate_kwargs; _coords := crds;
              dims_map := map (fun v => (v, v)) crds.*1 |} in
  exists R A',
    stack A ["lon"; "lat"]%string true = (ok R, A) /\
    stack A ["lon"; "lat"]%string false = (ok A', A') /\
    dims R = ["lon_lat"; "time"]%string /\
    dims A' = ["lon_lat"; "time"]%string /\
    od_get "lon"%string (_coords R) = Some lat /\
    od_get "lon"%string (_coords A') = Some lon.
Proof.
  intros lat lon time crds A.
  destruct (stack_unstacked default_Coordinate_kwargs []
              [("lon", lon); ("time", time)]%string "lat"%string lat
              ["lon"; "lat"]%string 3) as (H1 & H2 & H3 & H4).
  - refine (bool_decide_unpack _ _). by vm_compute.
  - refine (bool_decide_unpack _ _). by vm_compute.
  - refine (bool_decide_unpack _ _). by vm_compute.
  - cbn. lia.
  - apply Forall_forall. refine (bool_decide_unpack _ _). by vm_compute.
  - constructor.
  - refine (bool_decide_unpack _ _). by vm_compute.
  - intros p c Hp Hpc.
    apply elem_of_cons in Hpc as [[= -> ->]|Hpc]; [done|].
    apply elem_of_cons in Hpc as [[= -> ->]|Hpc]; [done|].
    apply elem_of_cons in Hpc as [[= -> ->]|Hpc]; [|by apply elem_of_nil in Hpc].
    exfalso. revert Hp. refine (bool_decide_unpack _ _). by vm_compute.
  - eexists _, _. split; [exact H1|]. split; [exact H2|]. by vm_compute.
Defined.

(** ** Replacing coordinates *)

Lemma od_set_same {V} k (v : V) (d : odict V) : od_get k d = Some v -> od_set k v d = d.
Proof.
  induction d as [|[k' v'] d IH]; cbn; [done|].
  destruct (decide (k = k')) as [->|Hne]; [by intros [= ->]|].
  intros H. by rewrite IH.
Qed.

(** The loop of [replace_coords] when [other] stacks the shared
    dimensions as [self] does: the dimension map is left as it was and
    every shared dimension takes the coordinate of [other]. *)
Lemma replace_coords_loop (B : Coordinate) (l pre : odict Coord) (dm : odict string) :
  NoDup (pre ++ l).*1 ->
  (forall k, k ∈ l.*1 -> k ∈ (_coords B).*1 ->
     od_get k (dims_map B) = od_get k dm /\ is_Some (od_get k dm)) ->
  foldM (replace_coords_step B) l.*1 ((pre ++ l : odict Coord), dm)
  = ok ((pre ++ map (fun kv => (kv.1, default kv.2 (od_get kv.1 (_coords B)))) l
         : odict Coord), dm).
Proof.
  revert pre. induction l as [|[k c] l IH]; intros pre Hnd HB; [done|].
  cbn [fmap list_fmap fst foldM map snd].
  assert (Hk : k ∉ pre.*1).
  { rewrite fmap_app in Hnd. apply NoDup_app in Hnd as (_ & H & _).
    intros Hin. apply (H k Hin). left. }
  assert (Hnext : forall x, NoDup ((pre ++ [(k, x)]) ++ l).*1).
  { intros x. rewrite <- app_assoc. cbn [app]. by rewrite fmap_app in *. }
  assert (HB' : forall k', k' ∈ l.*1 -> k' ∈ (_coords B).*1 ->
            od_get k' (dims_map B) = od_get k' dm /\ is_Some (od_get k' dm)).
  { intros k' Hk'. apply HB. by right. }
  unfold replace_coords_step at 1. unfold od_mem. case_bool_decide as Hmem.
  - destruct (proj2 (od_get_is_Some k (_coords B)) Hmem) as [oc Hoc].
    destruct (HB k ltac:(left) Hmem) as [HdB [d Hd]].
    unfold od_item. rewrite Hoc, HdB, Hd. cbn [rbind ok].
    rewrite od_set_middle by done. rewrite (od_set_same _ _ _ Hd).
    specialize (IH (pre ++ [(k, oc)]) (Hnext oc) HB').
    rewrite <- app_assoc in IH. cbn [app] in IH. etrans; [exact IH|].
    by rewrite <- app_assoc.
  - apply od_get_None in Hmem. rewrite Hmem. cbn [default].
    specialize (IH (pre ++ [(k, c)]) (Hnext c) HB').
    rewrite <- app_assoc in IH. cbn [app] in IH. etrans; [exact IH|].
    by rewrite <- app_assoc.
Qed.

Lemma map_default_self (l crds : odict Coord) :
  (forall kv, kv ∈ l -> od_get kv.1 crds = Some kv.2) ->
  map (fun kv => (kv.1, default kv.2 (od_get kv.1 crds))) l = l.
Proof.
  induction l as [|[k c] l IH]; intros H; [done|]. cbn [map fst snd].
  pose proof (H (k, c) ltac:(left)) as Hk. cbn [fst snd] in Hk. rewrite Hk. cbn.
  f_equal. apply IH. intros kv Hkv. apply H. by right.
Qed.

(** X10: [replace_coords] against a [Coordinate] that stacks the shared
    dimensions as [self] does. The call amounts to validating the stored
    dictionary of [self] in which every shared dimension holds the
    coordinate of [other]: the result keeps the dimension map of [self]
    and carries the default keyword traits. It returns whenever [self]
    has no stacked key, and replacing by [self] itself gives [self] back
    up to the keyword traits. *)
Theorem replace_coords_keeps_layout coords kw A B :
  NoDup (flat_map split_us coords.*1) ->
  Coordinate_init coords kw = ok A ->
  (forall d, d ∈ (_coords A).*1 -> d ∈ (_coords B).*1 ->
     od_get d (dims_map B) = od_get d (dims_map A)) ->
  let replaced := map (fun kv => (kv.1, default kv.2 (od_get kv.1 (_coords B)))) (_coords A) in
  let with_coords := fun crds => {| co_kwargs := default_Coordinate_kwargs;
                                    _coords := crds; dims_map := dims_map A |} in
  replace_coords A B
    = (validated <- _coords_validate (dims_map A) replaced ;; ok (with_coords validated)) /\
  ((forall key, key ∈ coords.*1 -> contains_us key = false) ->
   replace_coords A B = ok (with_coords replaced)) /\
  replace_coords A A = ok (with_coords (_coords A)).
Proof.
  intros Hnd HA.
  destruct (Coordinate_init_ok _ _ _ HA) as (_ & Hdm & Hkeys & Hkeys' & HndA & HvalA).
  rewrite (get_dims_map_fresh _ Hnd) in Hdm.
  rewrite (fold_add_key_fresh _ []) in Hkeys by done. cbn [app] in Hkeys.
  assert (Hrun : forall B', (forall d, d ∈ (_coords A).*1 -> d ∈ (_coords B').*1 ->
                              od_get d (dims_map B') = od_get d (dims_map A)) ->
            replace_coords A B'
            = (validated <- _coords_validate (dims_map A)
                 (map (fun kv => (kv.1, default kv.2 (od_get kv.1 (_coords B')))) (_coords A)) ;;
               ok {| co_kwargs := default_Coordinate_kwargs; _coords := validated;
                     dims_map := dims_map A |})).
  { intros B' HB'. unfold replace_coords.
    pose proof (replace_coords_loop B' (_coords A) [] (dims_map A)) as Hloop.
    cbn [app] in Hloop. rewrite Hloop; [|done|].
    2:{ intros k Hk HkB. split; [by apply HB'|]. apply od_get_is_Some. by rewrite <- Hkeys'. }
    cbn [rbind ok fst snd]. rewrite Hdm.
    apply restack_and_init; [done|]. rewrite <- Hkeys.
    clear. induction (_coords A) as [|[k c] l IH]; [done|]. cbn. by f_equal. }
  intros HB replaced with_coords. split; [|split].
  - by apply Hrun.
  - intros Hplain. rewrite (Hrun B HB). fold replaced.
    assert (Hrk : replaced.*1 = (_coords A).*1).
    { unfold replaced. clear. induction (_coords A) as [|[k c] l IH]; [done|]. cbn. by f_equal. }
    apply _coords_validate_ok in HvalA as (_ & Hvalid & _).
    rewrite _coords_validate_plain; [done|by rewrite Hrk..|].
    intros k Hk. rewrite Hrk, Hkeys in Hk. rewrite Hdm.
    assert (Hpl : Forall (fun k => contains_us k = false) coords.*1) by by apply Forall_forall.
    rewrite dim_pairs_plain, map_diag_snd by done.
    by rewrite flat_map_split_plain in Hk.
  - rewrite (Hrun A) by done.
    assert (Hsame : map (fun kv => (kv.1, default kv.2 (od_get kv.1 (_coords A)))) (_coords A)
                    = _coords A).
    { apply map_default_self. intros [k c] Hin. by apply elem_od_get. }
    rewrite Hsame, HvalA. done.
Qed.

Lemma replace_coords_keeps_layout_witness :
  let coords := [("lat_lon"%string, Many [grid [0; 1; 2]; grid [10; 20; 30]]);
                 ("time"%string, One (grid [1; 2; 3; 4]))] in
  let other := [("time"%string, One (grid [7; 8]))] in
  exists A B R,
    Coordinate_init coords default_Coordinate_kwargs = ok A /\
    Coordinate_init other default_Coordinate_kwargs = ok B /\
    replace_coords A B = ok R /\
    dims_map R = dims_map A /\
    od_get "time"%string (_coords R) = Some (grid [7; 8]) /\
    od_get "lat"%string (_coords R) = Some (grid [0; 1; 2]).
Proof.
  intros coords other.
  destruct (Coordinate_init coords default_Coordinate_kwargs) as [e|A] eqn:EA;
    [by vm_compute in EA|].
  destruct (Coordinate_init other default_Coordinate_kwargs) as [e|B] eqn:EB;
    [by vm_compute in EB|].
  destruct (replace_coords_keeps_layout coords default_Coordinate_kwargs A B) as (H1 & _ & _).
  - refine (bool_decide_unpack _ _). by vm_compute.
  - done.
  - vm_compute in EA, EB. injection EA as <-. injection EB as <-.
    intros d HdA HdB. apply list_elem_of_singleton in HdB as ->. done.
  - vm_compute in EA, EB. injection EA as <-. injection EB as <-.
    eexists _, _, _. split; [done|]. split; [done|]. split; [exact H1|]. by vm_compute.
Defined.

(** ** Index slices of an intersection *)

(** An object that can read its bounds intersects with itself in all of
    its values: the two arrays that the check compares are one array. *)
Lemma intersect_self o pad n (σ : store) :
  size (traits o) = ok n ->
  two_entries σ ->
  is_Some (σ !! _cached_bounds o) \/ (exists sb, bounds (traits o) = ok sb) ->
  exists σ' : store, intersect o o pad true σ = (ok (Ind 0 n), σ') /\ two_entries σ'.
Proof.
  intros Hn Hσ Hb.
  destruct (intersect_run o o σ pad true eq_refl Hσ Hb Hb)
    as (σ' & s0 & s1 & o0 & o1 & Hσ' & _ & L1 & L2 & ->).
  rewrite L1 in L2. injection L2 as <- <-. exists σ'. split; [|done].
  unfold check_answer.
  assert (H1 : Qeqb s0 s0 = true) by (apply Qeqb_true; reflexivity).
  assert (H2 : Qeqb s1 s1 = true) by (apply Qeqb_true; reflexivity).
  by rewrite H1, H2, Hn.
Qed.

Lemma py_slice_all {A} (l : list A) : py_slice l 0 (Z.of_nat (length l)) = l.
Proof.
  unfold py_slice, slice_clip. cbn [Z.ltb Z.compare].
  destruct (Z.ltb_spec (Z.of_nat (length l)) 0); [lia|].
  rewrite Z.min_id, Nat2Z.id. replace (Z.to_nat (Z.min 0 (Z.of_nat (length l)))) with 0%nat by lia.
  rewrite drop_0, Nat.sub_0_r. apply firstn_all.
Qed.

(** One round of the loop of [intersect_ind_slice] appends one slice. *)
Lemma intersect_ind_slice_step_ok self_cell other_cell other pad acc item acc' (τ τ' : store) :
  intersect_ind_slice_step self_cell other_cell other pad acc item τ = (ok acc', τ') ->
  exists s, acc' = acc ++ [s].
Proof.
  destruct item as [d c]. unfold intersect_ind_slice_step.
  destruct (od_get d (_coords other)) as [oc|].
  - unfold mbind. destruct (intersect _ _ pad true τ) as [[e|[i j|o]] τ1]; [done| |done].
    intros [= <- _]. eauto.
  - intros [= <- _]. eauto.
Qed.

(** X11: the list of [intersect_ind_slice] has one slice per stored
    dimension of [self], stacked or not, whatever the two hold and have
    cached. Against a [Coordinate] that shares no dimension the call
    returns open slices only, and reads and writes nothing. Against [self],
    when every stored coordinate has a [size] and [bounds] that can be
    read (a [SingleCoord] has not), it returns for every dimension the
    slice from 0 to the [size] of the coordinate, which selects all the
    values of a coordinate whose [size] is the length of its
    [coordinates]. *)
Theorem intersect_ind_slice_edges (A : Coordinate) (cell : string -> loc) pad (σ : store) :
  (forall B other_cell slc,
     fst (intersect_ind_slice A B cell other_cell pad σ) = ok slc ->
     length slc = length (_coords A)) /\
  (forall B other_cell, (forall d, d ∈ (_coords A).*1 -> od_get d (_coords B) = None) ->
     intersect_ind_slice A B cell other_cell pad σ
     = (ok (replicate (length (_coords A)) (slice None None)), σ)) /\
  (NoDup (_coords A).*1 ->
   two_entries σ ->
   (forall d c, (d, c) ∈ _coords A ->
                (exists n, size c = ok n) /\ (exists sb, bounds c = ok sb)) ->
   exists slc,
     fst (intersect_ind_slice A A cell cell pad σ) = ok slc /\
     Forall2 (fun kv s =>
                (exists n, size kv.2 = ok n /\ s = slice (Some 0%Z) (Some n)) /\
                (forall l, coordinates kv.2 = ok l ->
                           size kv.2 = ok (Z.of_nat (length l)) -> apply_slice l s = l))
             (_coords A) slc).
Proof.
  unfold intersect_ind_slice. split; [|split].
  - intros B other_cell slc.
    enough (G : forall l acc (τ : store),
              fst (mfoldM (intersect_ind_slice_step cell other_cell B pad) l acc τ) = ok slc ->
              length slc = (length acc + length l)%nat) by apply (G _ []).
    induction l as [|item l IH]; intros acc τ; cbn [mfoldM].
    + intros [= <-]. cbn. lia.
    + unfold mbind.
      destruct (intersect_ind_slice_step cell other_cell B pad acc item τ)
        as [[e|acc'] τ'] eqn:E; [done|].
      apply intersect_ind_slice_step_ok in E as [s ->].
      intros H%IH. rewrite length_app in H. cbn in *. lia.
  - intros B other_cell HB.
    enough (G : forall l acc, (forall d, d ∈ l.*1 -> od_get d (_coords B) = None) ->
                  mfoldM (intersect_ind_slice_step cell other_cell B pad) l acc σ
                  = (ok (acc ++ replicate (length l) (slice None None)), σ))
      by by apply (G _ []).
    induction l as [|[d c] l IH]; intros acc Hl; cbn [mfoldM].
    + by rewrite app_nil_r.
    + unfold intersect_ind_slice_step at 1. rewrite (Hl d) by left.
      erewrite mbind_run; [|reflexivity].
      rewrite IH by (intros d' Hd'; apply Hl; by right).
      by rewrite <- app_assoc.
  - intros Hnd Hσ Hsize.
    enough (G : forall l acc (τ : store), two_entries τ ->
                  (forall kv, kv ∈ l -> od_get kv.1 (_coords A) = Some kv.2) ->
                  (forall d c, (d, c) ∈ l ->
                               (exists n, size c = ok n) /\ (exists sb, bounds c = ok sb)) ->
                  exists slc,
                    fst (mfoldM (intersect_ind_slice_step cell cell A pad) l acc τ)
                    = ok (acc ++ slc) /\
                    Forall2 (fun kv s =>
                       (exists n, size kv.2 = ok n /\ s = slice (Some 0%Z) (Some n)) /\
                       (forall l, coordinates kv.2 = ok l ->
                                  size kv.2 = ok (Z.of_nat (length l)) -> apply_slice l s = l))
                      l slc).
    { destruct (G (_coords A) [] σ) as (slc & H1 & H2); [done| |done|by exists slc].
      intros [d c] Hin. by apply elem_od_get. }
    induction l as [|[d c] l IH]; intros acc τ Hτ Hl Hsz; cbn [mfoldM].
    + exists []. rewrite app_nil_r. by split; [|constructor].
    + unfold intersect_ind_slice_step at 1.
      pose proof (Hl (d, c) ltac:(left)) as Hd. cbn [fst snd] in Hd. rewrite Hd.
      destruct (Hsz d c ltac:(left)) as [[n Hn] Hb].
      destruct (intersect_self (mk_object c (cell d)) pad n τ Hn Hτ (or_intror Hb))
        as (τ' & Hi & Hτ').
      erewrite mbind_run; [|erewrite mbind_run; [|exact Hi]; reflexivity].
      destruct (IH (acc ++ [slice (Some 0%Z) (Some n)]) τ' Hτ') as (slc & H1 & H2).
      { intros kv Hkv. apply Hl. by right. }
      { intros d' c' Hin. apply (Hsz d' c'). by right. }
      exists (slice (Some 0%Z) (Some n) :: slc). split.
      * rewrite H1. by rewrite <- app_assoc.
      * constructor; [|done]. cbn [snd]. split; [by exists n|].
        intros l' _ Hlen. rewrite Hn in Hlen. injection Hlen as ->.
        cbn [apply_slice default]. apply py_slice_all.
Qed.

(** X11 on lat and time: against itself every dimension is selected in
    full. *)
Lemma intersect_ind_slice_edges_witness :
  exists A slc,
    Coordinate_init [("lat"%string, One (grid [0; 1; 2])); ("time"%string, One (grid [1; 2; 3; 4]))]
                    default_Coordinate_kwargs = ok A /\
    fst (intersect_ind_slice A A (own_cell false) (own_cell false) 1 ∅) = ok slc /\
    slc = [slice (Some 0%Z) (Some 3%Z); slice (Some 0%Z) (Some 4%Z)].
Proof.
  destruct (Coordinate_init
              [("lat"%string, One (grid [0; 1; 2])); ("time"%string, One (grid [1; 2; 3; 4]))]
              default_Coordinate_kwargs) as [e|A] eqn:EA; [by vm_compute in EA|].
  vm_compute in EA. injection EA as <-.
  destruct (proj2 (proj2 (intersect_ind_slice_edges
              {| co_kwargs := default_Coordinate_kwargs;
                 _coords := [("lat"%string, grid [0; 1; 2]); ("time"%string, grid [1; 2; 3; 4])];
                 dims_map := [("lat", "lat"); ("time", "time")]%string |}
              (own_cell false) 1 ∅))) as (slc & H1 & H2).
  - refine (bool_decide_unpack _ _). by vm_compute.
  - intros l x H. by rewrite lookup_empty in H.
  - intros d c [[= -> ->]|[[= -> ->]|H]%elem_of_cons]%elem_of_cons.
    + split; [by exists 3%Z | by eexists].
    + split; [by exists 4%Z | by eexists].
    + by apply elem_of_nil in H.
  - eexists _, slc. split; [reflexivity|]. split; [exact H1|].
    vm_compute in H1. by injection H1 as <-.
Defined.

(** ** The shape against another [Coordinate] *)

(** X12: [get_shape(other)] against a [Coordinate] that does not stack
    the shared dimensions lists one size per stored dimension of [self],
    in stored order: the size of the coordinate of [other] where [other]
    has the dimension, the size of the own coordinate elsewhere. A
    stacked key of [self] therefore contributes one entry per part. *)
Theorem get_shape_of_other (A B : Coordinate) :
  NoDup (_coords A).*1 ->
  (forall d, d ∈ (_coords A).*1 -> d ∈ (_coords B).*1 -> od_get d (dims_map B) = Some d) ->
  (forall d c, (d, c) ∈ _coords A ->
     exists n, size (default c (od_get d (_coords B))) = ok n) ->
  exists s,
    get_shape A B = ok s /\
    Forall2 (fun kv n => size (default kv.2 (od_get kv.1 (_coords B))) = ok n) (_coords A) s.
Proof.
  intros Hnd HB Hsize. unfold get_shape.
  enough (G : forall l shape seen,
            NoDup (seen ++ l.*1) ->
            (forall d, d ∈ l.*1 -> d ∈ (_coords B).*1 -> od_get d (dims_map B) = Some d) ->
            (forall d c, (d, c) ∈ l -> exists n, size (default c (od_get d (_coords B))) = ok n) ->
            exists s seen',
              foldM (get_shape_step B) l (shape, seen) = ok (shape ++ s, seen') /\
              Forall2 (fun kv n => size (default kv.2 (od_get kv.1 (_coords B))) = ok n) l s).
  { destruct (G (_coords A) [] []) as (s & seen' & H1 & H2); [done..|].
    exists s. rewrite H1. done. }
  induction l as [|[d c] l IH]; intros shape seen Hseen Hdm Hsz; cbn [foldM].
  { exists [], seen. rewrite app_nil_r. by split; [|constructor]. }
  cbn [fmap list_fmap fst] in Hseen.
  assert (Hd : d ∉ seen).
  { apply NoDup_app in Hseen as (_ & H & _). intros Hin. apply (H d Hin). left. }
  destruct (Hsz d c ltac:(left)) as [n Hn].
  assert (Hdm' : forall d', d' ∈ l.*1 -> d' ∈ (_coords B).*1 -> od_get d' (dims_map B) = Some d')
    by (intros d' Hd'; apply Hdm; by right).
  assert (Hsz' : forall d' c', (d', c') ∈ l ->
            exists n, size (default c' (od_get d' (_coords B))) = ok n)
    by (intros d' c' Hin; apply Hsz; by right).
  unfold get_shape_step at 1. unfold od_mem. case_bool_decide as Hmem.
  - destruct (proj2 (od_get_is_Some d (_coords B)) Hmem) as [oc Hoc].
    rewrite Hoc in Hn. cbn [from_option id] in Hn.
    unfold od_item. rewrite Hoc, (Hdm d ltac:(left) Hmem). cbn [rbind ok]. rewrite Hn.
    cbn [rbind ok]. rewrite bool_decide_eq_false_2 by done.
    destruct (IH (shape ++ [n]) (seen ++ [d])) as (s & seen' & H1 & H2); [|done..|].
    { rewrite <- app_assoc. done. }
    exists (n :: s), seen'. split.
    + cbn [rbind ok]. rewrite H1. by rewrite <- app_assoc.
    + constructor; [|done]. cbn [fst snd]. by rewrite Hoc.
  - apply od_get_None in Hmem. rewrite Hmem in Hn. cbn [from_option id] in Hn.
    rewrite Hn. cbn [rbind ok].
    destruct (IH (shape ++ [n]) seen) as (s & seen' & H1 & H2); [|done..|].
    { apply NoDup_app in Hseen as (H1 & H2 & H3). apply NoDup_cons in H3 as [_ H3].
      apply NoDup_app. split; [done|]. split; [|done].
      intros x Hx Hxl. apply (H2 x Hx). by right. }
    exists (n :: s), seen'. split.
    + cbn [rbind ok]. rewrite H1. by rewrite <- app_assoc.
    + constructor; [|done]. cbn [fst snd]. by rewrite Hmem.
Qed.

Lemma get_shape_of_other_witness :
  let A := {| co_kwargs := default_Coordinate_kwargs;
              _coords := [("lat", grid [0; 1; 2]); ("lon", grid [10; 20; 30]);
                          ("time", grid [1; 2; 3; 4])]%string;
              dims_map := [("lat", "lat_lon"); ("lon", "lat_lon"); ("time", "time")]%string |} in
  let B := {| co_kwargs := default_Coordinate_kwargs;
              _coords := [("time", grid [7; 8])]%string;
              dims_map := [("time", "time")]%string |} in
  get_shape A B = ok [3; 3; 2]%Z /\ shape A = ok [3; 4]%Z.
Proof.
  intros A B.
  destruct (get_shape_of_other A B) as (s & H1 & H2).
  - refine (bool_decide_unpack _ _). by vm_compute.
  - intros d _ Hd. apply list_elem_of_singleton in Hd as ->. done.
  - intros d c Hin.
    apply elem_of_cons in Hin as [[= -> ->]|Hin]; [by eexists|].
    apply elem_of_cons in Hin as [[= -> ->]|Hin]; [by eexists|].
    apply elem_of_cons in Hin as [[= -> ->]|Hin]; [by eexists|].
    by apply elem_of_nil in Hin.
  - split; [|done]. rewrite H1. vm_compute in H1. by injection H1 as <-.
Defined.

(** ** Stacked or not *)

(** X13: for a dictionary without a repeated dimension name, the
    dimension map that the constructor computes is stacked exactly when
    some key of the dictionary is a stacked key. *)
Theorem is_stacked_iff_stacked_key {V} (coords : odict V) :
  NoDup (flat_map split_us coords.*1) ->
  is_stacked (get_dims_map coords) = true <->
  exists key, key ∈ coords.*1 /\ contains_us key = true.
Proof.
  intros Hnd. rewrite (get_dims_map_fresh _ Hnd). unfold is_stacked.
  rewrite existsb_exists. split.
  - intros ([p c] & Hin%list_elem_of_In & Hne). cbn [fst snd] in Hne.
    apply elem_of_dim_pairs in Hin as [Hc Hp]. exists c. split; [done|].
    destruct (contains_us c) eqn:E; [done|].
    rewrite (split_us_plain _ E) in Hp. apply list_elem_of_singleton in Hp as ->.
    by rewrite bool_decide_eq_true_2 in Hne.
  - intros (c & Hc & E).
    pose proof (split_us_nonempty c) as Hne.
    destruct (split_us c) as [|p ps] eqn:Es; [done|].
    exists (p, c). split.
    + apply list_elem_of_In, elem_of_dim_pairs. split; [done|]. rewrite Es. left.
    + cbn [fst snd]. apply negb_true_iff, bool_decide_eq_false. intros ->.
      assert (Hp : contains_us c = false).
      { apply (split_us_parts_plain c). rewrite Es. left. }
      congruence.
Qed.

Lemma is_stacked_iff_stacked_key_witness :
  is_stacked (get_dims_map [("lat_lon"%string, 1%nat); ("time"%string, 2%nat)]) = true.
Proof.
  apply is_stacked_iff_stacked_key.
  - refine (bool_decide_unpack _ _). by vm_compute.
  - exists "lat_lon"%string. split; [left|done].
Defined.

(** ** Dropping dimensions *)

Lemma elem_of_bfilter {A} (f : A -> bool) (l : list A) x :
  x ∈ List.filter f l <-> x ∈ l /\ f x = true.
Proof. rewrite !list_elem_of_In. apply filter_In. Qed.

Lemma bfilter_ext {A} (f g : A -> bool) (l : list A) :
  (forall x, x ∈ l -> f x = g x) -> List.filter f l = List.filter g l.
Proof. intros H. apply filter_ext_in. intros x Hx. by apply H, list_elem_of_In. Qed.

Lemma bfilter_all {A} (f : A -> bool) (l : list A) :
  (forall x, x ∈ l -> f x = true) -> List.filter f l = l.
Proof.
  induction l as [|a l IH]; intros H; [done|]. cbn [List.filter].
  rewrite (H a) by left. f_equal. apply IH. intros x Hx. apply H. by right.
Qed.

Lemma bfilter_bfilter {A} (f g : A -> bool) (l : list A) :
  List.filter f (List.filter g l) = List.filter (fun x => g x && f x) l.
Proof.
  induction l as [|a l IH]; [done|]. cbn [List.filter].
  destruct (g a); cbn [List.filter andb]; [|done]. destruct (f a); by rewrite IH.
Qed.

Lemma elem_fst_bfilter {V} (f : string * V -> bool) (l : odict V) p :
  p ∈ (List.filter f l).*1 <-> exists v, (p, v) ∈ l /\ f (p, v) = true.
Proof.
  rewrite list_elem_of_fmap. split.
  - intros ([p' v] & -> & Hin%elem_of_bfilter). by exists v.
  - intros (v & Hin & Hf). exists (p, v). split; [done|]. by apply elem_of_bfilter.
Qed.

Lemma NoDup_fst_bfilter {V} (f : string * V -> bool) (l : odict V) :
  NoDup l.*1 -> NoDup (List.filter f l).*1.
Proof.
  induction l as [|[k v] l IH]; [done|]. cbn [fmap list_fmap fst List.filter].
  intros [Hk Hl]%NoDup_cons. destruct (f (k, v)); [|by apply IH].
  cbn [fmap list_fmap fst]. apply NoDup_cons. split; [|by apply IH].
  intros (v' & Hin & _)%elem_fst_bfilter. apply Hk, list_elem_of_fmap. by exists (k, v').
Qed.

Lemma od_get_bfilter {V} (f : string * V -> bool) (m : odict V) p v :
  NoDup m.*1 -> od_get p m = Some v -> f (p, v) = true ->
  od_get p (List.filter f m) = Some v.
Proof.
  intros Hnd Hget Hf. apply elem_od_get; [by apply NoDup_fst_bfilter|].
  apply elem_of_bfilter. split; [|done]. by apply od_get_Some_elem.
Qed.

(** What one pass of the loop of [drop_dims] does: the names in [args]
    leave [_coords]; the entries of [dims_map] go for those of them that
    were stored and map to themselves; [split_dims] gains the parts of the
    keys of the others that were stored. *)
Lemma drop_dims_loop_spec {V} (args : list string) :
  forall (split : list string) (c : odict V) (m : odict string),
    NoDup m.*1 ->
    (forall p, p ∈ c.*1 -> is_Some (od_get p m)) ->
    exists split',
      drop_dims_loop args split (c, m)
      = (ok split',
         (List.filter (fun kv => negb (bool_decide (kv.1 ∈ args))) c,
          List.filter (fun kv => negb (bool_decide (kv.1 ∈ args) && od_mem kv.1 c
                                       && bool_decide (kv.2 = kv.1))) m)) /\
      forall q, q ∈ split' <->
                q ∈ split \/
                exists a d, a ∈ args /\ a ∈ c.*1 /\ od_get a m = Some d /\ d <> a /\
                            q ∈ split_us d.
Proof.
  induction args as [|arg args IH]; intros split c m Hnd Hm.
  - exists split. split.
    + cbn [drop_dims_loop]. f_equal. f_equal; symmetry; apply bfilter_all; intros kv _.
      * by rewrite bool_decide_eq_false_2 by apply not_elem_of_nil.
      * by rewrite bool_decide_eq_false_2 by apply not_elem_of_nil.
    + intros q. split; [by left|]. intros [?|(a & d & Ha%elem_of_nil & _)]; done.
  - cbn [drop_dims_loop fst snd]. destruct (od_mem arg c) eqn:Emem; cbn [negb].
    + apply od_mem_true in Emem.
      destruct (Hm arg Emem) as [d Hd]. rewrite Hd.
      set (c1 := od_del arg c).
      assert (Hc1 : forall p, p ∈ c1.*1 <-> p ∈ c.*1 /\ p <> arg).
      { intros p. unfold c1, od_del. rewrite elem_fst_bfilter. split.
        - intros (v & Hin & Hne). cbn [fst] in Hne.
          apply negb_true_iff, bool_decide_eq_false in Hne.
          split; [|done]. apply list_elem_of_fmap. by exists (p, v).
        - intros [([p' v] & -> & Hin)%list_elem_of_fmap Hne]. exists v. split; [done|].
          cbn [fst]. by apply negb_true_iff, bool_decide_eq_false. }
      assert (Hmem1 : forall p, p <> arg -> od_mem p c1 = od_mem p c).
      { intros p Hp. unfold od_mem. apply bool_decide_ext. rewrite Hc1. tauto. }
      assert (Hvalue : forall v, (arg, v) ∈ m -> v = d).
      { intros v Hin. apply (elem_od_get _ _ _ Hnd) in Hin. congruence. }
      assert (Hcoords : List.filter (fun kv : string * V => negb (bool_decide (kv.1 ∈ args))) c1
                        = List.filter (fun kv => negb (bool_decide (kv.1 ∈ arg :: args))) c).
      { unfold c1, od_del. rewrite bfilter_bfilter. apply bfilter_ext.
        intros [k v] _. cbn [fst].
        destruct (decide (k = arg)) as [->|Hne].
        - rewrite (bool_decide_eq_true_2 (arg = arg)) by done.
          by rewrite (bool_decide_eq_true_2 (arg ∈ arg :: args)) by left.
        - rewrite (bool_decide_eq_false_2 (k = arg)) by done. cbn [negb andb].
          f_equal. apply bool_decide_ext. rewrite elem_of_cons. tauto. }
      case_bool_decide as Hplain.
      * (* the name maps to itself: its entry goes *)
        subst d.
        set (m1 := od_del arg m).
        assert (Hget1 : forall p, p <> arg -> od_get p m1 = od_get p m).
        { intros p Hp. destruct (od_get p m) as [v|] eqn:E.
          - apply od_get_bfilter; [done..|]. cbn [fst].
            by apply negb_true_iff, bool_decide_eq_false.
          - apply od_get_None. apply od_get_None in E. intros (v & Hin & _)%elem_fst_bfilter.
            apply E, list_elem_of_fmap. by exists (p, v). }
        destruct (IH split c1 m1) as (split' & Hrun & Hsplit).
        { by apply NoDup_fst_bfilter. }
        { intros p [Hp Hne]%Hc1. rewrite Hget1 by done. by apply Hm. }
        exists split'. split.
        -- rewrite Hrun, Hcoords. f_equal. f_equal.
           unfold m1, od_del. rewrite bfilter_bfilter. apply bfilter_ext.
           intros [k v] Hin. cbn [fst snd].
           destruct (decide (k = arg)) as [->|Hne].
           ++ rewrite (bool_decide_eq_true_2 (arg = arg)) by done. cbn [negb andb].
              rewrite (bool_decide_eq_true_2 (arg ∈ arg :: args)) by left.
              rewrite (proj2 (od_mem_true arg c) Emem).
              rewrite (Hvalue v Hin). by rewrite bool_decide_eq_true_2.
           ++ rewrite (bool_decide_eq_false_2 (k = arg)) by done. cbn [negb andb].
              rewrite Hmem1 by done. do 3 f_equal.
              apply bool_decide_ext. rewrite elem_of_cons. tauto.
        -- intros q. rewrite Hsplit. apply or_iff_compat_l. split.
           ++ intros (a & d & Ha & [Hac Hne]%Hc1 & Hget & Hd' & Hq).
              exists a, d. rewrite Hget1 in Hget by done.
              split; [by right|]. done.
           ++ intros (a & d & Ha & Hac & Hget & Hd' & Hq).
              assert (Hne : a <> arg) by (intros ->; rewrite Hd in Hget; congruence).
              apply elem_of_cons in Ha as [?|Ha]; [done|].
              exists a, d. rewrite Hget1 by done. split; [done|]. split; [by apply Hc1|done].
      * (* the name is a part of a stacked key: the parts are queued *)
        destruct (IH (split ++ split_us d) c1 m) as (split' & Hrun & Hsplit); [done| |].
        { intros p [Hp _]%Hc1. by apply Hm. }
        exists split'. split.
        -- rewrite Hrun, Hcoords. f_equal. f_equal.
           apply bfilter_ext. intros [k v] Hin. cbn [fst snd].
           destruct (decide (k = arg)) as [->|Hne].
           ++ rewrite (Hvalue v Hin).
              rewrite (bool_decide_eq_false_2 (d = arg)) by done.
              by rewrite !andb_false_r.
           ++ rewrite Hmem1 by done. do 3 f_equal.
              apply bool_decide_ext. rewrite elem_of_cons. tauto.
        -- intros q. rewrite Hsplit, elem_of_app. split.
           ++ intros [[?|Hq]|(a & d' & Ha & [Hac Hne]%Hc1 & Hget & Hd' & Hq)].
              ** by left.
              ** right. exists arg, d. split; [left|]. done.
              ** right. exists a, d'. split; [by right|]. done.
           ++ intros [?|(a & d' & Ha & Hac & Hget & Hd' & Hq)]; [left; by left|].
              destruct (decide (a = arg)) as [->|Hne].
              ** (* [arg] occurs again in [args]: its parts are queued already *)
                 left. right. rewrite Hd in Hget. by injection Hget as <-.
              ** right. apply elem_of_cons in Ha as [?|Ha]; [done|].
                 exists a, d'. split; [done|]. split; [by apply Hc1|done].
    + destruct (IH split c m Hnd Hm) as (split' & Hrun & Hsplit).
      assert (Harg : arg ∉ c.*1).
      { intros H%od_mem_true. congruence. }
      exists split'. split.
      * rewrite Hrun. f_equal. f_equal.
        -- apply bfilter_ext. intros [k v] Hin. cbn [fst]. f_equal.
           apply bool_decide_ext. rewrite elem_of_cons.
           assert (k <> arg); [|tauto]. intros ->. apply Harg, list_elem_of_fmap. by exists (arg, v).
        -- apply bfilter_ext. intros [k v] Hin. cbn [fst snd].
           destruct (od_mem k c) eqn:Ek; [|by rewrite !andb_false_r].
           do 3 f_equal. apply bool_decide_ext. rewrite elem_of_cons.
           assert (k <> arg); [|tauto]. intros ->. by apply od_mem_true in Ek.
      * intros q. rewrite Hsplit. apply or_iff_compat_l. split.
        -- intros (a & d & Ha & Hrest). exists a, d. split; [by right|done].
        -- intros (a & d & [->|Ha]%elem_of_cons & Hac & Hrest); [done|]. by exists a, d.
Qed.

Lemma key_dropped_true args key :
  key_dropped args key = true <-> exists a, a ∈ args /\ a ∈ split_us key.
Proof.
  unfold key_dropped. rewrite existsb_exists. split.
  - intros (a & Ha%list_elem_of_In & Hp%bool_decide_eq_true). by exists a.
  - intros (a & Ha & Hp). exists a. split; [by apply list_elem_of_In|].
    by apply bool_decide_eq_true.
Qed.

Lemma drop_dims_S {V} fuel args (self : odict V * odict string) r s :
  drop_dims_loop args [] self = (r, s) ->
  drop_dims (S fuel) args self
  = match r with
    | inl e => Some (inl e, s)
    | inr [] => Some (ok tt, s)
    | inr split_dims => drop_dims fuel split_dims s
    end.
Proof. intros H. cbn [drop_dims]. by rewrite H. Qed.

(** X14: [drop_dims] on a [Coordinate] as the constructor leaves it (no
    repeated dimension name). Three calls of the method on itself are
    enough, whatever the arguments. In the end a stored name is gone
    exactly when one of the arguments is a part of the key it belongs to,
    so a stacked key loses all its parts at once; [dims_map] loses only
    the arguments that map to themselves, so the parts of a dropped
    stacked key stay in [dims_map]. *)
Theorem drop_dims_drops_whole_keys {V} (keys : list string) (crds : odict V)
    (args : list string) (more : nat) :
  NoDup (flat_map split_us keys) ->
  crds.*1 = flat_map split_us keys ->
  let dm := dim_pairs keys in
  drop_dims (3 + more) args (crds, dm)
  = Some (ok tt,
          (List.filter (fun kv => negb (key_dropped args (default kv.1 (od_get kv.1 dm)))) crds,
           List.filter (fun kv => negb (bool_decide (kv.1 = kv.2) && bool_decide (kv.1 ∈ args)))
                       dm)).
Proof.
  intros Hnd Hkeys dm.
  assert (Hdmk : dm.*1 = crds.*1) by (unfold dm; by rewrite dim_pairs_keys).
  assert (F1 : NoDup dm.*1) by (unfold dm; by rewrite dim_pairs_keys).
  assert (F2 : forall p d, od_get p dm = Some d <-> d ∈ keys /\ p ∈ split_us d).
  { intros p d. rewrite <- elem_of_dim_pairs. split.
    - apply od_get_Some_elem.
    - by apply elem_od_get. }
  assert (F3 : forall p, p ∈ crds.*1 -> is_Some (od_get p dm)).
  { intros p Hp. apply od_get_is_Some. by rewrite Hdmk. }
  assert (F4 : forall a d q, od_get a dm = Some d -> d <> a -> q ∈ split_us d ->
                 od_get q dm = Some d /\ d <> q).
  { intros a d q [Hd Ha]%F2 Hne Hq. split; [by apply F2|]. intros <-.
    pose proof (split_us_parts_plain _ _ Hq) as Hplain.
    rewrite (split_us_plain _ Hplain) in Ha. by apply list_elem_of_singleton in Ha. }
  assert (F5 : forall a q, od_get a dm = Some a -> q ∈ split_us a -> q = a).
  { intros a q [Hd Ha]%F2 Hq.
    pose proof (split_us_parts_plain _ _ Ha) as Hplain.
    rewrite (split_us_plain _ Hplain) in Hq. by apply list_elem_of_singleton in Hq. }
  (* the first call *)
  destruct (drop_dims_loop_spec args [] crds dm F1 F3) as (s1 & R1 & S1).
  set (c1 := List.filter (fun kv : string * V => negb (bool_decide (kv.1 ∈ args))) crds) in *.
  set (m1 := List.filter (fun kv : string * string =>
                negb (bool_decide (kv.1 ∈ args) && od_mem kv.1 crds
                      && bool_decide (kv.2 = kv.1))) dm) in *.
  assert (S1' : forall q, q ∈ s1 <->
            exists a d, a ∈ args /\ a ∈ crds.*1 /\ od_get a dm = Some d /\ d <> a /\
                        q ∈ split_us d).
  { intros q. rewrite S1. split; [|by right]. intros [?%elem_of_nil|?]; done. }
  assert (Hs1 : forall q, q ∈ s1 -> exists d, od_get q dm = Some d /\ d <> q).
  { intros q (a & d & _ & _ & Hget & Hne & Hq)%S1'. exists d. by apply (F4 a). }
  set (cf := List.filter (fun kv : string * V =>
                negb (key_dropped args (default kv.1 (od_get kv.1 dm)))) crds).
  set (mf := List.filter (fun kv : string * string =>
                negb (bool_decide (kv.1 = kv.2) && bool_decide (kv.1 ∈ args))) dm).
  assert (Hm1 : m1 = mf).
  { apply bfilter_ext. intros [k v] Hin. cbn [fst snd].
    assert (Hk : od_mem k crds = true).
    { apply od_mem_true. rewrite <- Hdmk. apply list_elem_of_fmap. by exists (k, v). }
    rewrite Hk, andb_true_r, andb_comm. do 2 f_equal. apply bool_decide_ext. split; congruence. }
  assert (Hc2 : List.filter (fun kv : string * V => negb (bool_decide (kv.1 ∈ s1))) c1 = cf).
  { unfold c1. rewrite bfilter_bfilter. apply bfilter_ext. intros [k v] Hin. cbn [fst].
    assert (Hk : k ∈ crds.*1) by (apply list_elem_of_fmap; by exists (k, v)).
    destruct (F3 k Hk) as [d Hd]. rewrite Hd. cbn [from_option id].
    rewrite <- negb_orb. f_equal. apply eq_true_iff_eq.
    rewrite orb_true_iff, !bool_decide_eq_true, key_dropped_true. split.
    - intros [Ha|(a & d' & Ha & Hac & Hget & Hne & Hq)%S1'].
      + exists k. split; [done|]. by apply F2 in Hd as [_ ?].
      + destruct (F4 _ _ _ Hget Hne Hq) as [Hget' _]. rewrite Hd in Hget'.
        injection Hget' as ->. exists a. split; [done|]. by apply F2 in Hget as [_ ?].
    - intros (a & Ha & Hp).
      assert (Hget : od_get a dm = Some d) by (apply F2; split; [by apply F2 in Hd as [? _]|done]).
      destruct (decide (d = a)) as [->|Hne].
      + left. apply F2 in Hd as [_ Hkd]. by rewrite (F5 a k Hget Hkd).
      + right. apply S1'. exists a, d. split; [done|]. split.
        { rewrite <- Hdmk. apply od_get_is_Some. by exists d. }
        split; [done|]. split; [done|]. by apply F2 in Hd as [_ ?]. }
  etrans; [apply (drop_dims_S _ _ _ _ _ R1)|]. cbn [ok].
  destruct s1 as [|x s1'] eqn:Es1.
  { do 3 f_equal; [|done]. rewrite <- Hc2. symmetry. apply bfilter_all. intros kv _.
    by rewrite bool_decide_eq_false_2 by apply not_elem_of_nil. }
  rewrite <- Es1 in *. clear Es1 x s1'.
  (* the second call, on the parts of the stacked keys that were hit *)
  assert (Hnd1 : NoDup m1.*1) by by apply NoDup_fst_bfilter.
  assert (Hget1 : forall p d, p ∉ args -> od_get p dm = Some d -> od_get p m1 = Some d).
  { intros p d Hp Hd. apply od_get_bfilter; [done..|]. cbn [fst snd].
    by rewrite bool_decide_eq_false_2 by done. }
  assert (Hc1 : forall p, p ∈ c1.*1 -> p ∈ crds.*1 /\ p ∉ args).
  { intros p (v & Hin & Hf)%elem_fst_bfilter. cbn [fst] in Hf.
    apply negb_true_iff, bool_decide_eq_false in Hf. split; [|done].
    apply list_elem_of_fmap. by exists (p, v). }
  assert (Hm1sub : forall p d, od_get p m1 = Some d -> od_get p dm = Some d).
  { intros p d Hd%od_get_Some_elem%elem_of_bfilter. by apply elem_od_get; [|apply Hd]. }
  assert (Hinv1 : forall p, p ∈ c1.*1 -> is_Some (od_get p m1)).
  { intros p [Hp Hna]%Hc1. destruct (F3 p Hp) as [d Hd]. exists d. by apply Hget1. }
  destruct (drop_dims_loop_spec s1 [] c1 m1 Hnd1 Hinv1) as (s2 & R2 & S2).
  rewrite Hc2 in R2.
  assert (Hm2 : List.filter (fun kv : string * string =>
                   negb (bool_decide (kv.1 ∈ s1) && od_mem kv.1 c1
                         && bool_decide (kv.2 = kv.1))) m1 = m1).
  { apply bfilter_all. intros [k v] Hin. cbn [fst snd].
    destruct (decide (k ∈ s1)) as [Hk|Hk]; [|by rewrite (bool_decide_eq_false_2 (k ∈ s1))].
    destruct (Hs1 k Hk) as (d & Hd & Hne).
    assert (v = d).
    { apply elem_of_bfilter in Hin as [Hin _]. apply (elem_od_get _ _ _ F1) in Hin. congruence. }
    subst v. rewrite (bool_decide_eq_false_2 (d = k)) by done. by rewrite andb_false_r. }
  rewrite Hm2 in R2.
  assert (Hsub : forall q, q ∈ s2 -> q ∈ s1).
  { intros q [?%elem_of_nil|(a & d & Ha & Hac & Hget & Hne & Hq)]%S2; [done|].
    apply S1' in Ha as (a0 & d0 & Ha0 & Hac0 & Hget0 & Hne0 & Ha).
    destruct (F4 _ _ _ Hget0 Hne0 Ha) as [Hget' _].
    apply Hm1sub in Hget. rewrite Hget' in Hget. injection Hget as ->.
    apply S1'. by exists a0, d. }
  assert (Hcf : forall p, p ∈ cf.*1 -> p ∉ s1).
  { rewrite <- Hc2. intros p (v & _ & Hf)%elem_fst_bfilter. cbn [fst] in Hf.
    by apply negb_true_iff, bool_decide_eq_false in Hf. }
  assert (Hcf1 : forall p, p ∈ cf.*1 -> p ∈ c1.*1).
  { rewrite <- Hc2. intros p (v & Hin & _)%elem_fst_bfilter.
    apply list_elem_of_fmap. by exists (p, v). }
  change (drop_dims_loop s1 [] (c1, m1) = (ok s2, (cf, m1))) in R2.
  assert (Hstep2 : drop_dims (2 + more) s1 (c1, m1) = Some (ok tt, (cf, mf))).
  { etrans; [apply (drop_dims_S _ _ _ _ _ R2)|]. cbn [ok].
    destruct s2 as [|y s2'] eqn:Es2; [by rewrite Hm1|].
    rewrite <- Es2 in *. clear Es2 y s2'.
    (* the third call finds none of its arguments stored *)
    assert (Hinv2 : forall p, p ∈ cf.*1 -> is_Some (od_get p m1))
      by (intros p Hp; by apply Hinv1, Hcf1).
    destruct (drop_dims_loop_spec s2 [] cf m1 Hnd1 Hinv2) as (s3 & R3 & S3).
    assert (Hs3 : s3 = []).
    { destruct s3 as [|z s3]; [done|]. exfalso.
      destruct (proj1 (S3 z) ltac:(left)) as [?%elem_of_nil|(a & d & Ha & Hac & _)]; [done|].
      by apply (Hcf a Hac), Hsub. }
    subst s3. etrans; [apply (drop_dims_S _ _ _ _ _ R3)|]. cbn [ok]. do 3 f_equal.
    - apply bfilter_all. intros [k v] Hin. cbn [fst].
      rewrite bool_decide_eq_false_2; [done|]. intros Hk%Hsub.
      apply (Hcf k); [|done]. apply list_elem_of_fmap. by exists (k, v).
    - rewrite <- Hm1. apply bfilter_all. intros [k v] Hin. cbn [fst snd].
      destruct (od_mem k cf) eqn:Ek; [|by rewrite andb_false_r].
      apply od_mem_true in Ek. rewrite bool_decide_eq_false_2; [done|].
      intros Hk%Hsub. by apply (Hcf k). }
  destruct s1 as [|x s1']; [done|]. exact Hstep2.
Qed.

Lemma drop_dims_drops_whole_keys_witness :
  drop_dims 3 ["lat"]%string
    ([("lat", 1%nat); ("lon", 2%nat); ("time", 3%nat)]%string,
     dim_pairs ["lat_lon"; "time"]%string)
  = Some (ok tt, ([("time", 3%nat)]%string,
                  [("lat", "lat_lon"); ("lon", "lat_lon"); ("time", "time")]%string)).
Proof.
  refine (drop_dims_drops_whole_keys ["lat_lon"; "time"]%string
            [("lat", 1%nat); ("lon", 2%nat); ("time", 3%nat)]%string ["lat"]%string 0 _ _).
  - refine (bool_decide_unpack _ _). by vm_compute.
  - reflexivity.
Defined.

(** ** The size and the values of a uniform coordinate *)

(** X15: a uniform coordinate given by a step whose sign agrees with the
    order of [start] and [stop] reports the [size] 0, although its
    [coordinates] hold at least two values; with that size the index
    answer of [intersect_bounds] is the empty range [[0, 0]] for all
    bounds and paddings. *)
Theorem uniform_size_is_zero kw start stop s lo hi pad :
  (start < stop /\ 0 < s) \/ (stop < start /\ s < 0) ->
  let c := UniformGridCoord kw start stop None (Some s) in
  size c = ok 0%Z /\
  (exists l, coordinates c = ok l /\ (2 <= length l)%nat) /\
  select c lo hi pad true = ok (Ind 0 0).
Proof.
  intros H c. split; [by apply size_uniform_step_consistent|].
  split; [|by apply uniform_select_index_empty].
  assert (Hs : ~ s == 0) by (intros E; destruct H as [[_ H]|[_ H]]; lra).
  unfold c. rewrite coordinates_uniform_step. unfold np_arange.
  apply Qeqb_false in Hs as Hs'. rewrite Hs'. eexists. split; [reflexivity|].
  rewrite length_map, length_seq.
  assert (Hq : inject_Z 1 < (stop + s - start) / s).
  { pose proof (Qdiv_mul_cancel (stop + s - start) s Hs) as Hq.
    set (q := (stop + s - start) / s) in *. change (inject_Z 1) with 1.
    clearbody q. destruct H as [[H1 H2]|[H1 H2]]; nra. }
  apply Z_lt_Qceiling in Hq. lia.
Qed.

Lemma uniform_size_is_zero_witness :
  size (uniform 50 0 (-10)) = ok 0%Z /\
  (exists l, coordinates (uniform 50 0 (-10)) = ok l /\ (2 <= length l)%nat).
Proof.
  destruct (uniform_size_is_zero default_kwargs 50 0 (-10) 0 0 0) as (H1 & H2 & _).
  - right. split; reflexivity.
  - by split.
Defined.

(** X16: on two new objects of the same units whose bounds can be read
    and are disjoint, [intersect] answers the empty range [[0, 0]] with
    [ind=True]; with [ind=False] it never gives an empty coordinate: a
    [GridCoord] answers with the three values (min, max, 0) and a
    [UniformGridCoord] raises from its constructor. A [SingleCoord] cannot
    take part at all: with one on either side [intersect] raises
    [TraitError], whatever [ind] is. *)
Theorem intersect_disjoint_by_class c other_coord sb ob pad :
  units (kwargs c) = units (kwargs other_coord) ->
  bounds c = ok sb -> bounds other_coord = ok ob ->
  fst sb <= snd sb ->
  snd sb < fst ob \/ snd ob < fst sb ->
  intersect_new c other_coord pad true = ok (Ind 0 0) /\
  intersect_new c other_coord pad false
  = match c with
    | SingleCoord _ _ => raise TraitError
    | GridCoord _ _ => ok (Obj (GridCoord default_kwargs [fst sb; snd sb; 0]))
    | UniformGridCoord _ _ _ _ _ =>
        raise (CoordinateException uniform_requires_num_or_step)
    end /\
  (forall kw x ind, units kw = units (kwargs c) ->
     intersect_new (SingleCoord kw x) c pad ind = raise TraitError /\
     intersect_new c (SingleCoord kw x) pad ind = raise TraitError).
Proof.
  intros Hu Hc Ho Hb Hd.
  destruct (intersect_disjoint c other_coord sb ob pad Hu Hc Ho Hb Hd) as [-> ->].
  split; [done|]. split; [by destruct c|].
  intros kw x ind Hk. by apply (intersect_single kw x c c sb).
Qed.

Lemma intersect_disjoint_by_class_witness :
  intersect_new (uniform 0 50 10) (grid [100; 110]) 1 true = ok (Ind 0 0) /\
  intersect_new (uniform 0 50 10) (grid [100; 110]) 1 false
  = raise (CoordinateException uniform_requires_num_or_step) /\
  intersect_new (single 15) (uniform 0 50 10) 1 true = raise TraitError.
Proof.
  destruct (intersect_disjoint_by_class (uniform 0 50 10) (grid [100; 110])
              (0, 50) (100, 110) 1) as (H1 & H2 & H3).
  - reflexivity.
  - reflexivity.
  - reflexivity.
  - discriminate.
  - left. reflexivity.
  - split; [exact H1|]. split; [exact H2|].
    apply (H3 default_kwargs 15 true). reflexivity.
Defined.

(** X17: on numbers that float64 handles exactly, the values of an
    ascending uniform coordinate given by a step run up to a greatest
    value that lies in [[stop, stop + step)], while its [bounds] are
    [start] and [stop]: the greatest value is [stop] itself when
    [stop - start] is a multiple of the step, a value beyond [bounds[1]]
    otherwise. *)
Theorem uniform_coordinates_reach_stop kw start stop s :
  float_int start -> float_int stop -> float_int s ->
  0 < s -> start <= stop ->
  let c := UniformGridCoord kw start stop None (Some s) in
  exists l v,
    coordinates c = ok l /\ bounds c = ok (start, stop) /\ InQ v l /\
    stop <= v < stop + s /\
    (forall x, InQ x l -> x <= v) /\
    (v == stop <-> exists k : nat, stop == start + inject_Z (Z.of_nat k) * s).
Proof.
  intros _ _ _ Hs Hle c.
  assert (Hs0 : ~ s == 0) by lra.
  destruct (np_arange_ok start (stop + s) s Hs0) as [l Hl].
  set (q := (stop - start) / s).
  pose proof (Qdiv_mul_cancel (stop - start) s Hs0) as Hq. fold q in Hq.
  set (K := Qceiling q).
  pose proof (Qle_ceiling q) as Hup. fold K in Hup.
  pose proof (Qceiling_lt q) as Hlow. fold K in Hlow.
  assert (HK : (0 <= K)%Z).
  { assert (Hneg : inject_Z (-1) < q) by (change (inject_Z (-1)) with (-1); clearbody q; nra).
    apply Z_lt_Qceiling in Hneg. fold K in Hneg. lia. }
  assert (Hlow' : inject_Z K - 1 < q).
  { unfold Zminus in Hlow. rewrite inject_Z_plus in Hlow. exact Hlow. }
  assert (Hb : bounds c = ok (start, stop)).
  { unfold c. cbn [bounds is_max_to_min].
    assert (E : Qltb stop start = false) by by apply Qltb_false. by rewrite E. }
  set (v := start + inject_Z K * s).
  assert (Hv1 : stop <= v) by (unfold v; clearbody q K; nra).
  assert (Hv2 : v < stop + s) by (unfold v; clearbody q K; nra).
  exists l, v. unfold c at 1. rewrite coordinates_uniform_step. split; [done|].
  split; [exact Hb|]. split; [|split; [done|split]].
  - apply (InQ_np_arange _ _ _ _ _ Hs Hl). exists (Z.to_nat K).
    rewrite Z2Nat.id by done. split; [reflexivity|done].
  - intros x (k & Hk & Hlt)%(InQ_np_arange _ _ _ _ _ Hs Hl).
    assert (Hkq : inject_Z (Z.of_nat k) < q + 1).
    { set (z := inject_Z (Z.of_nat k)) in *. clearbody z q K v. clear - Hk Hlt Hq Hs. nra. }
    assert (HkK : (Z.of_nat k <= K)%Z).
    { assert (Hlt' : inject_Z (Z.of_nat k) < inject_Z (K + 1)).
      { rewrite inject_Z_plus. change (inject_Z 1) with 1. lra. }
      rewrite <- Zlt_Qlt in Hlt'. lia. }
    rewrite Zle_Qle in HkK. unfold v. rewrite Hk.
    set (z := inject_Z (Z.of_nat k)) in *. set (zK := inject_Z K) in *.
    clearbody z zK. clear - HkK Hs. nra.
  - split.
    + intros Hvs. exists (Z.to_nat K). rewrite Z2Nat.id by done. by rewrite <- Hvs.
    + intros (k & Hk). unfold v.
      assert (Hqk : q == inject_Z (Z.of_nat k)).
      { unfold q. rewrite Hk. field. done. }
      assert (HKk : K = Z.of_nat k).
      { unfold K. rewrite Hqk. apply Qceiling_Z. }
      rewrite HKk. by rewrite Hk.
Qed.

Lemma uniform_coordinates_reach_stop_witness :
  exists l v,
    coordinates (uniform 0 45 10) = ok l /\ InQ v l /\ 45 <= v < 45 + 10 /\
    (forall x, InQ x l -> x <= v).
Proof.
  destruct (uniform_coordinates_reach_stop default_kwargs 0 45 10)
    as (l & v & H1 & _ & H2 & H3 & H4 & _).
  - exists 0%Z. split; [reflexivity | discriminate].
  - exists 45%Z. split; [reflexivity | discriminate].
  - exists 10%Z. split; [reflexivity | discriminate].
  - reflexivity.
  - discriminate.
  - by exists l, v.
Defined.

(** ** Selection returns values of the coordinate *)

Lemma select_uniform_ascending_obj kw start stop s lo hi pad :
  0 < s -> start <= stop ->
  let imin := Qfloor ((py_max start lo - start) / s) in
  let imax := Qceiling ((stop - py_min stop hi) / s) in
  let cmin := py_max start (start + inject_Z (Z.max 0 (imin - pad)) * s) in
  let cmax := py_min stop (stop - inject_Z (Z.max 0 (imax - pad)) * s) in
  select (UniformGridCoord kw start stop None (Some s)) lo hi pad false
  = ok (Obj (UniformGridCoord kw cmin cmax None (Some s))).
Proof.
  intros Hs Hle imin imax cmin cmax.
  assert (Hs0 : ~ s == 0) by lra.
  assert (Hdir : Qltb stop start = false) by by apply Qltb_false.
  rewrite select_uniform. cbn zeta. rewrite Hdir.
  unfold uniform_answer_with. cbn [is_max_to_min delta kwargs].
  rewrite Hdir. cbn [fst snd rbind ok].
  rewrite !py_div_ok by done. cbn [rbind ok UniformGridCoord_init fst]. done.
Qed.

(** X18: on numbers that float64 handles exactly, on an ascending uniform
    coordinate given by a step, whatever the bounds and the padding, every
    value of the coordinate that [intersect_bounds] returns is a value of
    the coordinate itself: the selection starts and stops on the grid and
    never reaches outside. *)
Theorem select_uniform_ascending_subset kw start stop s lo hi pad r l l' :
  float_int start -> float_int stop -> float_int s -> float_int lo -> float_int hi ->
  0 < s -> start <= stop ->
  select (UniformGridCoord kw start stop None (Some s)) lo hi pad false = ok (Obj r) ->
  coordinates (UniformGridCoord kw start stop None (Some s)) = ok l ->
  coordinates r = ok l' ->
  forall v, InQ v l' -> InQ v l.
Proof.
  intros _ _ _ _ _ Hs Hle Hsel Hl Hl' v Hv.
  rewrite select_uniform_ascending_obj in Hsel by done. injection Hsel as <-.
  rewrite coordinates_uniform_step in Hl, Hl'.
  set (m := Z.max 0 (Qfloor ((py_max start lo - start) / s) - pad)) in *.
  set (M := Z.max 0 (Qceiling ((stop - py_min stop hi) / s) - pad)) in *.
  set (cmin := py_max start (start + inject_Z m * s)) in *.
  set (cmax := py_min stop (stop - inject_Z M * s)) in *.
  destruct (proj1 (InQ_np_arange cmin (cmax + s) s l' v Hs Hl') Hv) as (k & Hk & Hlt).
  apply (InQ_np_arange _ _ _ _ _ Hs Hl).
  assert (Hm0 : 0 <= inject_Z m) by (rewrite <- (Zle_Qle 0); lia).
  assert (HM0 : 0 <= inject_Z M) by (rewrite <- (Zle_Qle 0); lia).
  assert (Hcmin : cmin == start + inject_Z m * s).
  { unfold cmin. destruct (py_max_spec start (start + inject_Z m * s)) as [[_ ->]|[? ->]];
      [reflexivity | nra]. }
  assert (Hcmax : cmax == stop - inject_Z M * s).
  { unfold cmax. destruct (py_min_spec stop (stop - inject_Z M * s)) as [[_ ->]|[? ->]];
      [reflexivity | nra]. }
  exists (Z.to_nat m + k)%nat. split.
  - rewrite Nat2Z.inj_add, Z2Nat.id by lia. rewrite inject_Z_plus.
    set (zk := inject_Z (Z.of_nat k)) in *. set (zm := inject_Z m) in *.
    assert (E : (zm + zk) * s == zm * s + zk * s) by ring.
    clearbody cmin zk zm. clear - Hk Hcmin E. lra.
  - set (zM := inject_Z M) in *. clearbody cmin cmax zM. clear - Hlt Hcmax HM0 Hs. nra.
Qed.

Lemma select_uniform_ascending_subset_witness :
  select (uniform 20 70 10) 45 100 1 false = ok (Obj (uniform 30 70 10)) /\
  InQ 70 [20; 30; 40; 50; 60; 70].
Proof.
  split; [by vm_compute|].
  assert (F : forall z : Z, (Z.abs z <= 2 ^ 50)%Z -> float_int (inject_Z z)).
  { intros z Hz. exists z. split; [reflexivity | exact Hz]. }
  apply (select_uniform_ascending_subset default_kwargs 20 70 10 45 100 1
           (uniform 30 70 10) _ [30; 40; 50; 60; 70]);
    [apply (F 20%Z); discriminate | apply (F 70%Z); discriminate
    | apply (F 10%Z); discriminate | apply (F 45%Z); discriminate
    | apply (F 100%Z); discriminate
    | reflexivity | discriminate | by vm_compute | by vm_compute | by vm_compute |].
  exists 70. split; [|reflexivity]. do 4 right. left.
Defined.

(** ** Indexing a [Coordinate] by name *)

(** X19: a constructed [Coordinate] lists its stacked keys in [dims] but
    does not answer to them: [__getitem__] raises [KeyError] for every
    stacked key and returns a coordinate for each of its parts. *)
Theorem getitem_rejects_stacked_keys coords kw A key :
  NoDup (flat_map split_us coords.*1) ->
  Coordinate_init coords kw = ok A ->
  key ∈ coords.*1 -> contains_us key = true ->
  key ∈ dims A /\
  Coordinate_getitem A key = raise KeyError /\
  forall p, p ∈ split_us key -> exists c, Coordinate_getitem A p = ok c.
Proof.
  intros Hnd HA Hkey Hus.
  destruct (Coordinate_init_ok _ _ _ HA) as (_ & Hdm & Hkeys & _).
  rewrite (fold_add_key_fresh _ []) in Hkeys by done. cbn [app] in Hkeys.
  split; [|split].
  - rewrite dims_fold, Hdm, get_dims_map_set_all.
    apply elem_of_fold_add_key. right.
    pose proof (split_us_nonempty key) as Hne.
    destruct (split_us key) as [|p ps] eqn:E; [done|].
    assert (Hp : (p, key) ∈ dim_pairs coords.*1).
    { apply elem_of_dim_pairs. split; [done|]. rewrite E. left. }
    rewrite (set_all_fresh _ []); [|by rewrite dim_pairs_keys].
    cbn [app]. apply list_elem_of_fmap. by exists (p, key).
  - unfold Coordinate_getitem, od_item.
    assert (Hn : od_get key (_coords A) = None).
    { apply od_get_None. rewrite Hkeys. intros (c & _ & Hp)%elem_of_flat_map_split.
      apply split_us_parts_plain in Hp. congruence. }
    by rewrite Hn.
  - intros p Hp. unfold Coordinate_getitem, od_item.
    assert (Hs : is_Some (od_get p (_coords A))).
    { apply od_get_is_Some. rewrite Hkeys. apply elem_of_flat_map_split. by exists key. }
    destruct Hs as [c ->]. by exists c.
Qed.

Lemma getitem_rejects_stacked_keys_witness :
  let coords := [("lat_lon"%string, Many [grid [0; 1; 2]; grid [10; 20; 30]]);
                 ("time"%string, One (grid [1; 2; 3; 4]))] in
  exists A,
    Coordinate_init coords default_Coordinate_kwargs = ok A /\
    "lat_lon"%string ∈ dims A /\
    Coordinate_getitem A "lat_lon"%string = raise KeyError.
Proof.
  intros coords.
  destruct (Coordinate_init coords default_Coordinate_kwargs) as [e|A] eqn:E;
    [by vm_compute in E|].
  destruct (getitem_rejects_stacked_keys coords default_Coordinate_kwargs A "lat_lon"%string)
    as (H1 & H2 & _).
  - refine (bool_decide_unpack _ _). by vm_compute.
  - done.
  - left.
  - done.
  - by exists A.
Defined.

(** ** Transposing *)

Lemma transpose_loop (crds acc : odict Coord) (dims : list string) :
  NoDup (acc.*1 ++ dims) ->
  (forall d, d ∈ dims -> d ∈ crds.*1) ->
  foldM (transpose_step crds) dims acc
  = ok (acc ++ map (fun d => (d, od_get_d crds d)) dims).
Proof.
  revert acc. induction dims as [|d dims IH]; intros acc Hnd Hin; cbn [foldM map].
  - by rewrite app_nil_r.
  - unfold transpose_step at 1.
    rewrite od_item_get_d by (apply od_get_is_Some, Hin; left). cbn [rbind ok].
    assert (Hd : d ∉ acc.*1).
    { apply NoDup_app in Hnd as (_ & H & _). intros Hacc. apply (H d Hacc). left. }
    rewrite od_set_fresh by done. rewrite IH.
    + by rewrite <- app_assoc.
    + rewrite fmap_app. cbn. by rewrite <- app_assoc.
    + intros d' Hd'. apply Hin. by right.
Qed.

Lemma transpose_named (A : Coordinate) (dims_arg : list string) in_place coords :
  dims_arg <> [] ->
  foldM (transpose_step (_coords A)) dims_arg [] = ok coords ->
  transpose A dims_arg in_place
  = if in_place then
      match _coords_validate (dims_map A) coords with
      | inl e => (inl e, A)
      | inr validated =>
          (ok {| co_kwargs := co_kwargs A; _coords := validated; dims_map := dims_map A |},
           {| co_kwargs := co_kwargs A; _coords := validated; dims_map := dims_map A |})
      end
    else (Coordinate_init (prod_map id One <$> coords) (co_kwargs A), A).
Proof. intros Hne Hloop. unfold transpose. rewrite Hloop. by destruct dims_arg. Qed.

(** X20: [transpose] with distinct stored names on a constructed
    [Coordinate] returns both ways, holding the named coordinates in the
    order given. The copy maps every name to itself, so it is unstacked
    and its [dims] are the names given. In place the dimension map stays
    as it was, so [dims] is not reordered at all. *)
Theorem transpose_copy_and_in_place coords kw A (dims_arg : list string) :
  Coordinate_init coords kw = ok A ->
  dims_arg <> [] -> NoDup dims_arg ->
  (forall d, d ∈ dims_arg -> d ∈ (_coords A).*1) ->
  let picked := map (fun d => (d, od_get_d (_coords A) d)) dims_arg in
  let T := {| co_kwargs := kw; _coords := picked;
              dims_map := map (fun v => (v, v)) dims_arg |} in
  let A' := {| co_kwargs := kw; _coords := picked; dims_map := dims_map A |} in
  transpose A dims_arg false = (ok T, A) /\
  dims T = dims_arg /\
  transpose A dims_arg true = (ok A', A') /\
  dims A' = dims A.
Proof.
  intros HA Hne Hnd Hin picked T A'.
  destruct (Coordinate_init_ok _ _ _ HA) as (Hkw & _ & _ & Hkeys & HndA & HvalA).
  apply _coords_validate_ok in HvalA as (_ & Hvalid & stack & Hrec).
  pose proof (proj1 (Forall_forall _ _) Hvalid) as Hvalid'.
  assert (Hloop : foldM (transpose_step (_coords A)) dims_arg [] = ok picked)
    by by apply (transpose_loop _ []).
  assert (Hpk : picked.*1 = dims_arg).
  { unfold picked. clear. induction dims_arg as [|d l IH]; [done|]. cbn. by f_equal. }
  assert (Hpvalid : Forall (fun k => k ∈ _valid_dims) picked.*1).
  { rewrite Hpk. apply Forall_forall. intros d Hd. by apply Hvalid', Hin. }
  assert (Hpsub : forall k c, (k, c) ∈ picked -> (k, c) ∈ _coords A).
  { intros k c (d & [= -> ->] & Hd)%list_elem_of_fmap.
    apply od_get_Some_elem. unfold od_get_d.
    destruct (proj2 (od_get_is_Some d (_coords A)) (Hin d Hd)) as [c Hc]. by rewrite Hc. }
  split; [|split; [|split]].
  - rewrite (transpose_named _ _ _ _ Hne Hloop), Hkw.
    rewrite Coordinate_init_plain; [|by rewrite Hpk|done].
    by rewrite Hpk.
  - rewrite dims_fold. cbn [dims_map T]. rewrite map_diag_snd.
    by apply (fold_add_key_fresh _ []).
  - rewrite (transpose_named _ _ _ _ Hne Hloop), Hkw.
    rewrite (_coords_validate_sized _ _ (fun d => default 0%Z (stack !! d))); [done| | | |].
    + by rewrite Hpk.
    + done.
    + intros k Hk. apply od_get_is_Some. rewrite <- Hkeys. apply Hin. by rewrite <- Hpk.
    + intros k c d Hkc Hst Hd.
      destruct (Hrec k c d (Hpsub k c Hkc) Hst Hd) as (n & Hn & Hsz). by rewrite Hn.
  - done.
Qed.

Lemma transpose_copy_and_in_place_witness :
  let coords := [("lat_lon"%string, Many [grid [0; 1; 2]; grid [10; 20; 30]]);
                 ("time"%string, One (grid [1; 2; 3; 4]))] in
  exists A T A',
    Coordinate_init coords default_Coordinate_kwargs = ok A /\
    transpose A ["time"; "lon"; "lat"]%string false = (ok T, A) /\
    transpose A ["time"; "lon"; "lat"]%string true = (ok A', A') /\
    dims A = ["lat_lon"; "time"]%string /\
    dims T = ["time"; "lon"; "lat"]%string /\
    dims A' = ["lat_lon"; "time"]%string /\
    shape A = ok [3; 4]%Z /\
    shape A' = ok [4; 3]%Z.
Proof.
  intros coords.
  destruct (Coordinate_init coords default_Coordinate_kwargs) as [e|A] eqn:E;
    [by vm_compute in E|].
  destruct (transpose_copy_and_in_place coords default_Coordinate_kwargs A
              ["time"; "lon"; "lat"]%string) as (H1 & _ & H3 & _).
  - done.
  - done.
  - refine (bool_decide_unpack _ _). by vm_compute.
  - vm_compute in E. injection E as <-. apply Forall_forall.
    refine (bool_decide_unpack _ _). by vm_compute.
  - eexists A, _, _. split; [done|]. split; [exact H1|]. split; [exact H3|].
    vm_compute in E. injection E as <-. by vm_compute.
Defined.

(** ** The step of a uniform coordinate given by a number of values *)

(** X21: for an ascending uniform coordinate given by [num] values, at
    least two, [delta] is [(stop - start + 1) / num] while consecutive
    [coordinates] are [(stop - start) / (num - 1)] apart: the two agree
    exactly when [stop - start = num - 1], that is on a grid of spacing 1. *)
Theorem uniform_num_delta_against_spacing kw start stop (n : Z) :
  (2 <= n)%Z -> start <= stop ->
  let c := UniformGridCoord kw start stop (Some n) None in
  exists l d x0 x1,
    coordinates c = ok l /\ delta c = ok d /\
    l !! 0%nat = Some x0 /\ l !! 1%nat = Some x1 /\
    d == (stop - start + 1) / inject_Z n /\
    x1 - x0 == (stop - start) / inject_Z (n - 1) /\
    (d == x1 - x0 <-> stop - start == inject_Z (n - 1)).
Proof.
  intros Hn Hle c.
  assert (Hdir : Qltb stop start = false) by by apply Qltb_false.
  assert (HN : 2 <= inject_Z n) by (rewrite <- (Zle_Qle 2); lia).
  assert (HN1 : inject_Z (n - 1) == inject_Z n - 1).
  { unfold Zminus. rewrite inject_Z_plus. reflexivity. }
  assert (Hn0 : ~ inject_Z n == 0) by lra.
  assert (Hn1 : ~ inject_Z (n - 1) == 0) by lra.
  set (step := (stop - start) / inject_Z (n - 1)).
  set (f := fun i : nat =>
              if Nat.eqb (S i) (Z.to_nat n) then stop
              else start + inject_Z (Z.of_nat i) * step).
  assert (Hl : coordinates c = ok (map f (seq 0 (Z.to_nat n)))).
  { unfold c. cbn [coordinates size rbind ok]. unfold np_linspace.
    destruct (Z.ltb_spec n 0); [lia|]. destruct (Z.eqb_spec n 1); [lia|]. done. }
  assert (Hd : delta c = ok ((stop - start + 1) / inject_Z n)).
  { unfold c. cbn [delta is_max_to_min]. rewrite py_div_ok by done. cbn [rbind ok].
    by rewrite Hdir. }
  destruct (Z.to_nat n) as [|[|m]] eqn:En; [lia..|].
  pose proof (Qdiv_mul_cancel (stop - start) (inject_Z (n - 1)) Hn1) as Hstep.
  fold step in Hstep.
  assert (Hx0 : f 0%nat = start + inject_Z 0 * step) by done.
  assert (Hx1 : f 1%nat - f 0%nat == step).
  { rewrite Hx0. unfold f. destruct m as [|m]; cbn [Nat.eqb].
    - (* two values: the second one is [stop] *)
      assert (n = 2)%Z by lia. subst n. change (inject_Z (2 - 1)) with 1 in Hstep.
      change (inject_Z 0) with 0. clearbody step. clear - Hstep. lra.
    - change (inject_Z (Z.of_nat 1)) with 1. change (inject_Z 0) with 0. ring. }
  exists (map f (seq 0 (S (S m)))), ((stop - start + 1) / inject_Z n), (f 0%nat), (f 1%nat).
  split; [done|]. split; [done|]. split; [done|]. split; [done|].
  split; [reflexivity|]. split; [done|].
  rewrite Hx1.
  pose proof (Qdiv_mul_cancel (stop - start + 1) (inject_Z n) Hn0) as Ha.
  set (a := (stop - start + 1) / inject_Z n) in *.
  set (N := inject_Z n) in *. set (D := stop - start) in *.
  rewrite HN1 in Hstep. rewrite HN1.
  assert (E : step * (N - 1) == step * N - step) by ring.
  split; intros H.
  - rewrite H in Ha.
    assert (Hs1 : step == 1) by (clearbody a step N D; clear - Ha Hstep E; lra).
    rewrite Hs1 in Hstep. clearbody N D. clear - Hstep. lra.
  - assert (Hs1 : step == 1).
    { unfold step. rewrite HN1. fold D. rewrite H. field. clearbody N. lra. }
    assert (Ha1 : a == 1).
    { unfold a. assert (HD : D + 1 == N) by (rewrite H; ring). rewrite HD. field.
      clearbody N. lra. }
    by rewrite Hs1, Ha1.
Qed.

Lemma uniform_num_delta_against_spacing_witness :
  exists l d,
    coordinates (UniformGridCoord default_kwargs 0 10 (Some 5%Z) None) = ok l /\
    delta (UniformGridCoord default_kwargs 0 10 (Some 5%Z) None) = ok d /\
    length l = 5%nat /\ d == 11 # 5.
Proof.
  destruct (uniform_num_delta_against_spacing default_kwargs 0 10 5)
    as (l & d & x0 & x1 & H1 & H2 & _ & _ & H3 & _).
  - lia.
  - discriminate.
  - exists l, d. split; [done|]. split; [done|]. split.
    + vm_compute in H1. by injection H1 as <-.
    + rewrite H3. by vm_compute.
Defined.

(** ** The area that a uniform coordinate covers *)

(** X22: on numbers that float64 handles exactly ([start], [stop] and the
    step integers, the segment position [p] 0, 1/2 or 1), for a uniform
    coordinate given by a step, of type [segment] or [fence],
    [area_bounds] is [[bounds[0] - p * step, bounds[1] + (1 - p) * step]],
    [bounds] being [start] and [stop] in ascending order: one step wider
    than [bounds] and around them when the step is positive, one step
    narrower and inside them when the step is negative. *)
Theorem area_bounds_uniform_step kw start stop s :
  float_int start -> float_int stop -> float_int s ->
  float_int (2 * segment_position kw) ->
  in_fence_segment (ctype kw) = true ->
  0 <= segment_position kw <= 1 ->
  let c := UniformGridCoord kw start stop None (Some s) in
  let p := segment_position kw in
  exists b0 b1,
    bounds c = ok (b0, b1) /\
    (b0, b1) = (if Qltb stop start then (stop, start) else (start, stop)) /\
    area_bounds c = ok [b0 + - p * s; b1 + (1 - p) * s] /\
    (b1 + (1 - p) * s) - (b0 + - p * s) == b1 - b0 + s /\
    (0 <= s -> b0 + - p * s <= b0 /\ b1 <= b1 + (1 - p) * s) /\
    (s <= 0 -> b0 <= b0 + - p * s /\ b1 + (1 - p) * s <= b1).
Proof.
  intros _ _ _ _ Hct [Hp0 Hp1] c p.
  set (sb := if Qltb stop start then (stop, start) else (start, stop)).
  exists (fst sb), (snd sb).
  assert (Hb : bounds c = ok sb) by done.
  split; [by destruct sb|]. split; [by destruct sb|].
  split.
  - unfold c, area_bounds. fold c. rewrite Hb. cbn [rbind ok delta c]. by rewrite Hct.
  - fold p in Hp0, Hp1. set (b0 := fst sb). set (b1 := snd sb).
    clearbody p b0 b1. split; [ring|]. split; intros Hs; split; nra.
Qed.

Lemma area_bounds_uniform_step_witness :
  area_bounds (uniform 50 0 (-10)) = ok [0 + - (1 # 2) * -10; 50 + (1 - (1 # 2)) * -10] /\
  0 <= 0 + - (1 # 2) * -10 /\ 50 + (1 - (1 # 2)) * -10 <= 50.
Proof.
  destruct (area_bounds_uniform_step default_kwargs 50 0 (-10))
    as (b0 & b1 & _ & Hb & H1 & _ & _ & H4).
  - exists 50%Z. split; [reflexivity | discriminate].
  - exists 0%Z. split; [reflexivity | discriminate].
  - exists (-10)%Z. split; [reflexivity | discriminate].
  - exists 1%Z. split; [reflexivity | discriminate].
  - done.
  - split; discriminate.
  - injection Hb as -> ->. split; [exact H1|]. apply H4. discriminate.
Defined.

(** ** The cached bounds of the other coordinate *)

(** X23: [intersect] on a new uniform coordinate writes into the bounds
    that the other coordinate keeps. When the units agree and the two
    bounds overlap without being equal, then, whatever the call answers or
    raises, the array cached by the other object holds its bounds clipped
    to those of the uniform coordinate, and this is what the other object
    gives as its [bounds] from then on; the array of the uniform
    coordinate holds its own bounds. *)
Theorem intersect_clips_cached_bounds kw start stop num step other_coord ob pad ind :
  let c := UniformGridCoord kw start stop num step in
  let sb := if Qltb stop start then (stop, start) else (start, stop) in
  units kw = units (kwargs other_coord) ->
  bounds other_coord = ok ob ->
  ~ (fst sb == fst ob /\ snd sb == snd ob) ->
  py_max (fst sb) (fst ob) <= py_min (snd sb) (snd ob) ->
  let σ' := snd (intersect (mk_object c 1%positive) (mk_object other_coord 2%positive)
                   pad ind ∅) in
  σ' !! 2%positive = Some [py_max (fst sb) (fst ob); py_min (snd sb) (snd ob)] /\
  σ' !! 1%positive = Some [fst sb; snd sb] /\
  cached_bounds (mk_object other_coord 2%positive) σ' = (ok 2%positive, σ').
Proof.
  intros c sb Hu Ho Hne Hov σ'.
  assert (Hc : bounds c = ok sb) by done.
  assert (Hchk : check_answer c sb.1 sb.2 ob.1 ob.2 ind = ok None).
  { unfold check_answer.
    assert (E1 : Qeqb sb.1 ob.1 && Qeqb sb.2 ob.2 = false).
    { apply andb_false_iff. destruct (Qeqb sb.1 ob.1) eqn:E; [|by left]. right.
      apply Qeqb_false. intros E'. apply Hne. split; [by apply Qeqb_true|done]. }
    assert (E2 : Qltb (py_min sb.2 ob.2) (py_max sb.1 ob.1) = false) by by apply Qltb_false.
    by rewrite E1, E2. }
  assert (Hσ : σ' = <[2%positive := [py_max sb.1 ob.1; py_min sb.2 ob.2]]> (two_caches sb ob)).
  { unfold σ'. rewrite (intersect_new_run c other_coord sb ob pad ind Hu Hc Ho), Hchk.
    cbn [intersect_bounds_with c].
    by rewrite (UniformGridCoord_intersect_bounds_with_run sb _ (two_caches sb ob) _
                  ob.1 ob.2 [] pad ind (lookup_insert_eq _ _ _)). }
  assert (H2 : σ' !! 2%positive = Some [py_max sb.1 ob.1; py_min sb.2 ob.2])
    by (rewrite Hσ; apply lookup_insert_eq).
  split; [exact H2|]. split.
  - rewrite Hσ. unfold two_caches. rewrite !lookup_insert_ne by done. apply lookup_insert_eq.
  - by apply (cached_bounds_kept (mk_object other_coord 2%positive) σ' _ H2).
Qed.

Lemma intersect_clips_cached_bounds_witness :
  snd (intersect (mk_object (uniform 20 70 10) 1%positive)
         (mk_object (uniform 45 100 5) 2%positive) 1 false ∅) !! 2%positive
  = Some [45; 70].
Proof.
  destruct (intersect_clips_cached_bounds default_kwargs 20 70 None (Some 10)
              (uniform 45 100 5) (45, 100) 1 false) as (H & _).
  - reflexivity.
  - reflexivity.
  - intros [H _]. discriminate H.
  - discriminate.
  - exact H.
Defined.
